(** * EKAT packs and masks: a shallow embedding and its verification

    The development follows [src/ekat/ekat_pack.hpp] (the [Mask] and [Pack]
    value types, the operator families generated by macros, the reductions
    and the lane shifts) and [src/ekat/ekat_assert.cpp] (the abort facility).

    Conventions of the embedding:
    - an [int] is a [Z]; a lane index is an [int], as in the source;
    - an array [x d[n]] is a [list] of [n] elements; reading or writing
      outside of it is undefined behaviour, rendered as [None];
    - a function whose body may hit undefined behaviour returns an [option];
    - a freshly declared array holds indeterminate values: the functions that
      declare one take these values as an argument (named [raw]);
    - the loop annotations [vector_simd] and [vector_disabled] come from
      [ekat_macros.hpp], which is not among the sources. They are hints to
      the vectorizer: a loop is embedded as it is written, its iterations in
      source order. The one place where the order is left open is the
      vectorized branch of [reduce_sum], see [schedule] below. *)

From Stdlib Require Import ZArith Lia.
From stdpp Require Import base option list strings.

Local Open Scope Z_scope.

(** ** Arrays and loops *)

Section Arrays.
Context {A : Type}.

(** [arr[i]] read. *)
Definition load (arr : list A) (i : Z) : option A :=
  if decide (0 ≤ i) then arr !! Z.to_nat i else None.

(** [arr[i] = v]. *)
Definition store (arr : list A) (i : Z) (v : A) : option (list A) :=
  if decide (0 ≤ i < Z.of_nat (length arr))
  then Some (<[Z.to_nat i := v]> arr)
  else None.
End Arrays.

(** [trips] iterations of [body], the counter starting at [i] and stepping
    by one. *)
Fixpoint iterate {St : Type} (trips : nat) (i : Z)
    (body : Z → St → option St) (s : St) : option St :=
  match trips with
  | O => Some s
  | S k => s' ← body i s; iterate k (i + 1) body s'
  end.

(** [for (int i = lo; i < hi; ++i) body]. The body never assigns [i], so the
    trip count is [hi - lo] (none when [hi <= lo]). *)
Definition for_loop {St : Type} (lo hi : Z)
    (body : Z → St → option St) (s : St) : option St :=
  iterate (Z.to_nat (hi - lo)) lo body s.

(** ** Scalar types

    [ekat_scalar_traits.hpp] and [ekat_math_utils.hpp] are not part of the
    sources at hand; what the pack header uses of them is taken as an
    interface. *)

(** [ScalarTraits<T>]: the sentinels and the display name. *)
Class ScalarTraits (T : Type) := {
  quiet_NaN : T;
  invalid : T;
  name : string
}.

(** The four arithmetic operators of the macro [ekat_pack_gen_bin_op_all]. *)
Inductive arith_op := OpAdd | OpSub | OpMul | OpDiv.

(** What the scalar type provides: [+ - * /], the conversion [scalar(k)] of
    an [int], and [impl::min], [impl::max]. [x / y] is undefined on some
    operands of the integer types (a zero divisor): [div x y] is then
    [None]. [+ - *] are taken total, as they are on the unsigned and the
    floating-point types. *)
Class ScalarOps (T : Type) := {
  add : T → T → T;
  sub : T → T → T;
  mul : T → T → T;
  div : T → T → option T;
  of_int : Z → T;
  impl_min : T → T → T;
  impl_max : T → T → T
}.

(** [x op y] on two scalars. *)
Definition scalar_op {T} `{ScalarOps T} (op : arith_op) (x y : T)
    : option T :=
  match op with
  | OpAdd => Some (add x y)
  | OpSub => Some (sub x y)
  | OpMul => Some (mul x y)
  | OpDiv => div x y
  end.

(** ** Mask *)

Module Mask.

(** [struct Mask]: [long d[n]]. *)
Record t := mk { d : list Z }.

Section WithSize.
Variable n : Z.

(** A value of type [Mask<n>] has exactly [n] lanes. *)
Definition wf (m : t) : Prop := Z.of_nat (length (d m)) = n.

(** [Mask ()]: the lanes are left as they are. *)
Definition default (raw : list Z) : t := mk raw.

(** [void set (const int& i, const bool& val) { d[i] = val; }] *)
Definition set (m : t) (i : Z) (val : bool) : option t :=
  d' ← store (d m) i (Z.b2z val); Some (mk d').

(** [bool operator[] (const int& i) const { return d[i]; }] *)
Definition get (m : t) (i : Z) : option bool :=
  x ← load (d m) i; Some (negb (x =? 0)).

(** [explicit Mask (const bool& init)] *)
Definition broadcast (raw : list Z) (init : bool) : option t :=
  for_loop 0 n (λ i m, set m i init) (mk raw).

(** [bool any () const] *)
Definition any (m : t) : option bool :=
  for_loop 0 n
    (λ i b, x ← load (d m) i; Some (if negb (x =? 0) then true else b))
    false.

(** [bool all () const] *)
Definition all (m : t) : option bool :=
  for_loop 0 n
    (λ i b, x ← load (d m) i;
            Some (if negb (negb (x =? 0)) then false else b))
    true.

(** [bool none () const { return !any(); }] *)
Definition none (m : t) : option bool :=
  b ← any m; Some (negb b).
End WithSize.
End Mask.

(** ** Pack *)

Module Pack.

(** [struct Pack]: [scalar d[n]]. *)
Record t (T : Type) := mk { d : list T }.
Arguments mk {T} _.
Arguments d {T} _.

Section WithScalar.
Context {T : Type} `{!ScalarTraits T}.
Variable n : Z.

(** A value of type [Pack<T,n>] has exactly [n] lanes. *)
Definition wf (p : t T) : Prop := Z.of_nat (length (d p)) = n.

(** [const scalar& operator[] (const int& i) const { return d[i]; }] *)
Definition get (p : t T) (i : Z) : option T := load (d p) i.

(** [scalar& operator[] (const int& i)], used as [p[i] = v]. *)
Definition put (p : t T) (i : Z) (v : T) : option (t T) :=
  d' ← store (d p) i v; Some (mk d').

(** [Pack ()] *)
Definition default (raw : list T) : option (t T) :=
  for_loop 0 n (λ i p, put p i invalid) (mk raw).

(** [explicit Pack (const scalar& v)] *)
Definition broadcast (raw : list T) (v : T) : option (t T) :=
  for_loop 0 n (λ i p, put p i v) (mk raw).

(** [explicit Pack (const PackIn& v)] *)
Definition from_pack (raw : list T) (v : t T) : option (t T) :=
  for_loop 0 n (λ i p, x ← get v i; put p i x) (mk raw).

(** [explicit Pack (const Mask<PackSize>& m, const PackIn& p)]:
    [d[i] = m[i] ? p[i] : ScalarTraits<scalar>::invalid()]. *)
Definition masked (raw : list T) (m : Mask.t) (p : t T) : option (t T) :=
  for_loop 0 n
    (λ i q, b ← Mask.get m i;
            x ← (if b : bool then get p i else Some invalid);
            put q i x)
    (mk raw).

(** [void set (const Mask<n>& mask, const scalar& v)] *)
Definition set_scalar (q : t T) (mask : Mask.t) (v : T) : option (t T) :=
  for_loop 0 n
    (λ i q, b ← Mask.get mask i;
            if b : bool then put q i v else Some q)
    q.

(** [void set (const Mask<n>& mask, const PackIn& p)] *)
Definition set (q : t T) (mask : Mask.t) (p : t T) : option (t T) :=
  for_loop 0 n
    (λ i q, b ← Mask.get mask i;
            if b : bool then x ← get p i; put q i x else Some q)
    q.
End WithScalar.
End Pack.

(** ** Free functions on packs *)

Section PackFunctions.
Context {T : Type} `{!ScalarTraits T} `{!ScalarOps T}.
Variable n : Z.

(** *** Operators: the macros [ekat_pack_gen_bin_op_pp], [_ps], [_sp] *)

Definition ekat_pack_gen_bin_op_pp (op : arith_op)
    (raw : list T) (a b : Pack.t T) : option (Pack.t T) :=
  c ← Pack.default n raw;
  for_loop 0 n
    (λ i c, x ← Pack.get a i; y ← Pack.get b i;
            v ← scalar_op op x y; Pack.put c i v)
    c.

Definition ekat_pack_gen_bin_op_ps (op : arith_op)
    (raw : list T) (a : Pack.t T) (b : T) : option (Pack.t T) :=
  c ← Pack.default n raw;
  for_loop 0 n
    (λ i c, x ← Pack.get a i; v ← scalar_op op x b; Pack.put c i v)
    c.

Definition ekat_pack_gen_bin_op_sp (op : arith_op)
    (raw : list T) (a : T) (b : Pack.t T) : option (Pack.t T) :=
  c ← Pack.default n raw;
  for_loop 0 n
    (λ i c, y ← Pack.get b i; v ← scalar_op op a y; Pack.put c i v)
    c.

(** *** Masked reductions *)

(** [min (mask, init, p)] *)
Definition min_masked (mask : Mask.t) (init : T) (p : Pack.t T) : option T :=
  for_loop 0 n
    (λ i init, b ← Mask.get mask i;
               if b : bool then x ← Pack.get p i; Some (impl_min init x)
               else Some init)
    init.

(** [max (mask, init, p)] *)
Definition max_masked (mask : Mask.t) (init : T) (p : Pack.t T) : option T :=
  for_loop 0 n
    (λ i init, b ← Mask.get mask i;
               if b : bool then x ← Pack.get p i; Some (impl_max init x)
               else Some init)
    init.

(** *** Shifts *)

(** [shift_right (const PackType& pm1, const PackType& p)] *)
Definition shift_right (raw : list T) (pm1 p : Pack.t T) : option (Pack.t T) :=
  s ← Pack.default n raw;
  x ← Pack.get pm1 (n - 1);
  s ← Pack.put s 0 x;
  for_loop 1 n (λ i s, x ← Pack.get p (i - 1); Pack.put s i x) s.

(** [shift_right (const scalar& pm1, const PackType& p)] *)
Definition shift_right_scalar (raw : list T) (pm1 : T) (p : Pack.t T)
    : option (Pack.t T) :=
  s ← Pack.default n raw;
  s ← Pack.put s 0 pm1;
  for_loop 1 n (λ i s, x ← Pack.get p (i - 1); Pack.put s i x) s.

(** [shift_left (const PackType& pp1, const PackType& p)] *)
Definition shift_left (raw : list T) (pp1 p : Pack.t T) : option (Pack.t T) :=
  s ← Pack.default n raw;
  x ← Pack.get pp1 0;
  s ← Pack.put s (n - 1) x;
  for_loop 0 (n - 1) (λ i s, x ← Pack.get p (i + 1); Pack.put s i x) s.

(** [shift_left (const scalar& pp1, const PackType& p)] *)
Definition shift_left_scalar (raw : list T) (pp1 : T) (p : Pack.t T)
    : option (Pack.t T) :=
  s ← Pack.default n raw;
  s ← Pack.put s (n - 1) pp1;
  for_loop 0 (n - 1) (λ i s, x ← Pack.get p (i + 1); Pack.put s i x) s.
End PackFunctions.

(** ** Sum reduction *)

(** An operand of the sum: the incoming accumulator or a lane of the pack. *)
Inductive operand := Acc | Lane (i : Z).

(** Modelled from the spec: the macro [vector_simd] comes from
    [ekat_macros.hpp], which is not among the sources. On the sum loop it
    leaves the accumulation order unspecified: the additions may be regrouped
    and reordered, as an auto-vectorising compiler would. A [schedule] is one
    such grouping, a binary tree of additions over the operands. *)
Inductive schedule :=
  | Leaf (o : operand)
  | Node (l r : schedule).

Fixpoint operands (s : schedule) : list operand :=
  match s with
  | Leaf o => [o]
  | Node l r => operands l ++ operands r
  end.

(** The operands of the loop [for (i = 0; i < n; ++i) sum += p[i]]. *)
Definition sum_operands (n : Z) : list operand :=
  Acc :: (Lane <$> seqZ 0 n).

(** A schedule is licensed for packs of [n] lanes when it adds every operand
    of the loop exactly once. *)
Definition licensed (n : Z) (s : schedule) : Prop :=
  operands s ≡ₚ sum_operands n.

(** What the vectorizer may make of the loop. *)
Definition licensed_choice (n : Z) (simd : option schedule) : Prop :=
  match simd with
  | None => True
  | Some s => licensed n s
  end.

(** The schedule of the loop as it is written: lane order, the accumulator
    first, the additions grouped to the left. *)
Definition as_written (n : Z) : schedule :=
  foldl (λ s i, Node s (Leaf (Lane i))) (Leaf Acc) (seqZ 0 n).

Section ReduceSum.
Context {T : Type} `{!ScalarOps T}.
Variable n : Z.

(** The value of the sum under a schedule. *)
Fixpoint vector_simd_sum (s : schedule) (p : Pack.t T) (sum : T) : option T :=
  match s with
  | Leaf Acc => Some sum
  | Leaf (Lane i) => Pack.get p i
  | Node l r =>
      x ← vector_simd_sum l p sum;
      y ← vector_simd_sum r p sum;
      Some (add x y)
  end.

(** [template <bool Serialize, typename PackType>
    void reduce_sum (const PackType& p, typename PackType::scalar& sum)];
    the result is the final value of [sum]. [simd] is what the vectorizer
    makes of the [vector_simd] loop: it leaves the loop as it is written
    ([None]) or regroups its additions ([Some s]). *)
Definition reduce_sum (Serialize : bool) (simd : option schedule)
    (p : Pack.t T) (sum : T) : option T :=
  if Serialize then
    for_loop 0 n (λ i sum, x ← Pack.get p i; Some (add sum x)) sum
  else
    match simd with
    | None => for_loop 0 n (λ i sum, x ← Pack.get p i; Some (add sum x)) sum
    | Some s => vector_simd_sum s p sum
    end.

(** [template <bool Serialize, typename PackType>
    scalar reduce_sum (const PackType& p)] *)
Definition reduce_sum_value (Serialize : bool) (simd : option schedule)
    (p : Pack.t T) : option T :=
  let sum := of_int 0 in
  reduce_sum Serialize simd p sum.

(** The overloads whose flag defaults to [ekatBFB], a constant of the build
    configuration. *)
Variable ekatBFB : bool.

Definition reduce_sum_default (simd : option schedule) (p : Pack.t T)
    (sum : T)
    : option T :=
  reduce_sum ekatBFB simd p sum.

Definition reduce_sum_value_default (simd : option schedule) (p : Pack.t T)
    : option T :=
  reduce_sum_value ekatBFB simd p.
End ReduceSum.

(** ** [ScalarTraits] of a pack *)

(** [static_assert (N>0 && ((N & (N-1))==0))] *)
Definition valid_pack_size (N : Z) : bool :=
  (0 <? N) && (Z.land N (N - 1) =? 0).

Module PackTraits.
Section WithScalar.
Context {T : Type} `{inner_traits : !ScalarTraits T}.
Variable N : Z.

(** [static const value_type quiet_NaN ()] *)
Definition quiet_NaN (raw : list T) : option (Pack.t T) :=
  Pack.broadcast N raw (quiet_NaN (T := T)).

(** [static const value_type invalid ()] *)
Definition invalid (raw : list T) : option (Pack.t T) :=
  Pack.broadcast N raw (invalid (T := T)).

(** [static constexpr bool is_simd = true] *)
Definition is_simd : bool := true.
End WithScalar.
End PackTraits.

(** ** The abort facility ([ekat_assert.cpp]) *)

Module error.

(** The part of the process that the two functions touch: what has been
    written to [std::cerr], whether the ekat session is still up, and what
    [MPI_Initialized] reports. *)
Record process := mk_process {
  cerr : string;
  session_up : bool;
  mpi_flag : Z
}.

Inductive communicator := MPI_COMM_WORLD.

(** How the process ends. *)
Inductive termination :=
  | MPI_Abort (comm : communicator) (errorcode : Z)
  | std_abort.

(** A call either returns to its caller or ends the process. *)
Inductive outcome :=
  | Returns (w : process)
  | Exits (how : termination) (w : process).

Definition endl : string := String (Ascii.ascii_of_nat 10) EmptyString.

(** [std::cerr << s] *)
Definition write_cerr (s : string) (w : process) : process :=
  mk_process (cerr w +:+ s) (session_up w) (mpi_flag w).

(** [MPI_Initialized(&flag)]: the value left in [flag]. *)
Definition MPI_Initialized (w : process) : Z := mpi_flag w.

Section WithSession.

(** [finalize_ekat_session] is defined in [ekat_session.cpp], which is not
    among the sources: the two functions are embedded for any effect it may
    have on the process. *)
Variable finalize_ekat_session : process → process.

(** [void runtime_abort(const std::string& message, int code)] *)
Definition runtime_abort (message : string) (code : Z) (w : process)
    : outcome :=
  let w := write_cerr endl (write_cerr "Exiting..."
             (write_cerr endl (write_cerr message w))) in
  let w := finalize_ekat_session w in
  let flag := MPI_Initialized w in
  if negb (flag =? 0) then Exits (MPI_Abort MPI_COMM_WORLD code) w
  else Exits std_abort w.

(** [void runtime_check(bool cond, const std::string& message, int code)] *)
Definition runtime_check (cond : bool) (message : string) (code : Z)
    (w : process) : outcome :=
  if negb cond then runtime_abort message code w else Returns w.
End WithSession.

(** Modelled from the spec: what [finalize_ekat_session] does, being defined
    in [ekat_session.cpp], is only known from the spec: it shuts the runtime
    environment down. *)
Definition session_shutdown (w : process) : process :=
  mk_process (cerr w) false (mpi_flag w).
End error.

(** ** A concrete scalar type

    The definitions above are generic in the scalar type. To run them on
    concrete packs they are instantiated at the C++ type [unsigned int],
    32 bits wide, whose arithmetic is exact modulo [2^32]. *)

Module UInt.

Definition wrap (x : Z) : Z := x mod 2 ^ 32.

(** Modelled from the spec: [impl::min] and [impl::max] are defined in
    [ekat_math_utils.hpp], which is not among the sources; they are the
    scalar minimum and maximum. The division of [unsigned int] truncates
    and is undefined for a zero divisor. *)
#[global] Instance ops : ScalarOps Z := {
  add x y := wrap (x + y);
  sub x y := wrap (x - y);
  mul x y := wrap (x * y);
  div x y := if y =? 0 then None else Some (Z.quot x y);
  of_int k := wrap k;
  impl_min a b := if a <? b then a else b;
  impl_max a b := if a >? b then a else b
}.

(** Modelled from the spec: [ScalarTraits<T>] is declared in
    [ekat_scalar_traits.hpp], which is not among the sources; the sentinel is
    a reserved value of the type. Here it is the largest one. *)
#[global] Instance traits : ScalarTraits Z := {
  quiet_NaN := 2 ^ 32 - 1;
  invalid := 2 ^ 32 - 1;
  name := "unsigned int"
}.

End UInt.

(** ** Vocabulary of the specification *)

(** The lanes of [xs] that the mask lanes [ms] select, in lane order. A mask
    lane is true when its [long] is not zero. *)
Fixpoint selected {T : Type} (ms : list Z) (xs : list T) : list T :=
  match ms, xs with
  | m :: ms', x :: xs' =>
      if negb (m =? 0) then x :: selected ms' xs' else selected ms' xs'
  | _, _ => []
  end.

(** Addition is exact: it can be regrouped and reordered. *)
Class ExactAdd (T : Type) `{!ScalarOps T} : Prop := {
  add_assoc : ∀ x y z : T, add x (add y z) = add (add x y) z;
  add_comm : ∀ x y : T, add x y = add y x
}.

(** The value an operand of the sum denotes. *)
Definition operand_value {T : Type} (p : Pack.t T) (sum : T) (o : operand)
    : option T :=
  match o with
  | Acc => Some sum
  | Lane i => Pack.get p i
  end.

(** Sums of possibly empty collections of scalars: [None] is the empty sum.
    This is how the proofs compare two groupings of the same operands. *)
Definition oadd {T : Type} `{!ScalarOps T} (x y : option T) : option T :=
  match x, y with
  | Some a, Some b => Some (add a b)
  | Some a, None => Some a
  | None, _ => y
  end.

Definition osum {T : Type} `{!ScalarOps T} (l : list (option T)) : option T :=
  foldr oadd None l.

(** A grouping that a two-wide vector unit produces on four lanes: the even
    and the odd lanes are summed apart, the two partial sums are added, and
    the incoming accumulator is added to the result. *)
Definition two_wide : schedule :=
  Node (Leaf Acc)
       (Node (Node (Leaf (Lane 0)) (Leaf (Lane 2)))
             (Node (Leaf (Lane 1)) (Leaf (Lane 3)))).

(** ** The rest of the pack header *)

(** *** Mask operators *)

(** The two logical operators of [ekat_mask_gen_bin_op_mm] and [_mb]. *)
Inductive logic_op := OpAnd | OpOr.

(** [x impl y] for [impl] one of [&&], [||]: the right operand is evaluated
    only when the left one does not decide the result. *)
Definition logic_eval (op : logic_op) (x : bool) (y : option bool)
    : option bool :=
  match op, x with
  | OpAnd, false => Some false
  | OpOr, true => Some true
  | _, _ => y
  end.

Section MaskFunctions.
Variable n : Z.

(** [ekat_mask_gen_bin_op_mm(op, impl)]: [Mask op Mask]. *)
Definition ekat_mask_gen_bin_op_mm (op : logic_op) (raw : list Z)
    (a b : Mask.t) : option Mask.t :=
  let m := Mask.default raw in
  for_loop 0 n
    (λ i m, x ← Mask.get a i; v ← logic_eval op x (Mask.get b i);
            Mask.set m i v)
    m.

(** [ekat_mask_gen_bin_op_mb(op, impl)]: [Mask op bool]. *)
Definition ekat_mask_gen_bin_op_mb (op : logic_op) (raw : list Z)
    (a : Mask.t) (b : bool) : option Mask.t :=
  let m := Mask.default raw in
  for_loop 0 n
    (λ i m, x ← Mask.get a i; v ← logic_eval op x (Some b); Mask.set m i v)
    m.

(** [operator ! (const MaskType& m)] *)
Definition operator_not (raw : list Z) (m : Mask.t) : option Mask.t :=
  let not_m := Mask.default raw in
  for_loop 0 n (λ i not_m, x ← Mask.get m i; Mask.set not_m i (negb x))
    not_m.
End MaskFunctions.

(** *** Assignment operators of [Pack] *)

(** [=] and the four compound assignments of [ekat_pack_gen_assign_op_all]. *)
Inductive assign_op := Assign | Compound (op : arith_op).

(** The six comparisons of [ekat_mask_gen_bin_op_all]. *)
Inductive cmp_op := CmpEq | CmpNe | CmpGe | CmpLe | CmpGt | CmpLt.

(** What the scalar type provides for them. *)
Class ScalarCmp (T : Type) := {
  scalar_eq : T → T → bool;
  scalar_ne : T → T → bool;
  scalar_ge : T → T → bool;
  scalar_le : T → T → bool;
  scalar_gt : T → T → bool;
  scalar_lt : T → T → bool
}.

Definition scalar_cmp {T} `{ScalarCmp T} (op : cmp_op) : T → T → bool :=
  match op with
  | CmpEq => scalar_eq
  | CmpNe => scalar_ne
  | CmpGe => scalar_ge
  | CmpLe => scalar_le
  | CmpGt => scalar_gt
  | CmpLt => scalar_lt
  end.

Section MorePackFunctions.
Context {T : Type} `{!ScalarTraits T} `{!ScalarOps T} `{!ScalarCmp T}.
Variable n : Z.

(** [ekat_pack_gen_assign_op_p(op)]: [Pack& operator op (const Pack& a)],
    the body being [d[i] op a[i]]. The result is the pack after the call. *)
Definition ekat_pack_gen_assign_op_p (aop : assign_op) (q a : Pack.t T)
    : option (Pack.t T) :=
  for_loop 0 n
    (λ i q, match aop with
            | Assign => y ← Pack.get a i; Pack.put q i y
            | Compound op =>
                x ← Pack.get q i; y ← Pack.get a i;
                v ← scalar_op op x y; Pack.put q i v
            end)
    q.

(** [ekat_pack_gen_assign_op_s(op)]: [Pack& operator op (const scalar& a)]. *)
Definition ekat_pack_gen_assign_op_s (aop : assign_op) (q : Pack.t T) (a : T)
    : option (Pack.t T) :=
  for_loop 0 n
    (λ i q, match aop with
            | Assign => Pack.put q i a
            | Compound op =>
                x ← Pack.get q i; v ← scalar_op op x a; Pack.put q i v
            end)
    q.

(** [ekat_pack_gen_unary_op(op)], instantiated in the source at [-]; [neg]
    is the operator of the scalar type. *)
Definition ekat_pack_gen_unary_op (neg : T → T) (raw : list T) (a : Pack.t T)
    : option (Pack.t T) :=
  b ← Pack.default n raw;
  for_loop 0 n (λ i b, x ← Pack.get a i; Pack.put b i (neg x)) b.

(** [ekat_pack_gen_unary_fn(fn, impl)], instantiated in the source at
    [std::abs], [std::exp], [std::log], [std::log10], [std::tgamma],
    [std::sqrt], [std::cbrt] and [std::tanh]. *)
Definition ekat_pack_gen_unary_fn (impl : T → T) (raw : list T)
    (p : Pack.t T) : option (Pack.t T) :=
  s ← Pack.default n raw;
  for_loop 0 n (λ i s, x ← Pack.get p i; Pack.put s i (impl x)) s.

(** [min (const PackType& p)] *)
Definition min_pack (p : Pack.t T) : option T :=
  v ← Pack.get p 0;
  for_loop 0 n (λ i v, x ← Pack.get p i; Some (impl_min v x)) v.

(** [max (const PackType& p)] *)
Definition max_pack (p : Pack.t T) : option T :=
  v ← Pack.get p 0;
  for_loop 0 n (λ i v, x ← Pack.get p i; Some (impl_max v x)) v.

(** [ekat_pack_gen_bin_fn_pp(fn, impl)], [_ps] and [_sp], instantiated in
    the source at [impl::min] and [impl::max]. *)
Definition ekat_pack_gen_bin_fn_pp (impl : T → T → T) (raw : list T)
    (a b : Pack.t T) : option (Pack.t T) :=
  s ← Pack.default n raw;
  for_loop 0 n
    (λ i s, x ← Pack.get a i; y ← Pack.get b i; Pack.put s i (impl x y)) s.

Definition ekat_pack_gen_bin_fn_ps (impl : T → T → T) (raw : list T)
    (a : Pack.t T) (b : T) : option (Pack.t T) :=
  s ← Pack.default n raw;
  for_loop 0 n (λ i s, x ← Pack.get a i; Pack.put s i (impl x b)) s.

Definition ekat_pack_gen_bin_fn_sp (impl : T → T → T) (raw : list T)
    (a : T) (b : Pack.t T) : option (Pack.t T) :=
  s ← Pack.default n raw;
  for_loop 0 n (λ i s, y ← Pack.get b i; Pack.put s i (impl a y)) s.

(** The three overloads of [pow]; [std_pow] stands for [std::pow]. *)
Definition pow_ps (std_pow : T → T → T) (raw : list T) (a : Pack.t T)
    (b : T) : option (Pack.t T) :=
  s ← Pack.default n raw;
  for_loop 0 n (λ i s, x ← Pack.get a i; Pack.put s i (std_pow x b)) s.

Definition pow_sp (std_pow : T → T → T) (raw : list T) (a : T)
    (b : Pack.t T) : option (Pack.t T) :=
  s ← Pack.default n raw;
  for_loop 0 n (λ i s, y ← Pack.get b i; Pack.put s i (std_pow a y)) s.

Definition pow_pp (std_pow : T → T → T) (raw : list T) (a b : Pack.t T)
    : option (Pack.t T) :=
  s ← Pack.default n raw;
  for_loop 0 n
    (λ i s, x ← Pack.get a i; y ← Pack.get b i; Pack.put s i (std_pow x y))
    s.

(** [square (const PackType& a)] *)
Definition square (raw : list T) (a : Pack.t T) : option (Pack.t T) :=
  s ← Pack.default n raw;
  for_loop 0 n (λ i s, x ← Pack.get a i; Pack.put s i (mul x x)) s.

(** [cube (const PackType& a)] *)
Definition cube (raw : list T) (a : Pack.t T) : option (Pack.t T) :=
  s ← Pack.default n raw;
  for_loop 0 n (λ i s, x ← Pack.get a i; Pack.put s i (mul (mul x x) x)) s.

(** [ekat_mask_gen_bin_op_pp(op)]: the comparison of two packs. *)
Definition ekat_mask_gen_bin_op_pp (op : cmp_op) (raw : list Z)
    (a b : Pack.t T) : option Mask.t :=
  let m := Mask.default raw in
  for_loop 0 n
    (λ i m, x ← Pack.get a i; y ← Pack.get b i;
            Mask.set m i (scalar_cmp op x y))
    m.

(** [ekat_mask_gen_bin_op_ps(op)]: a pack against a scalar. *)
Definition ekat_mask_gen_bin_op_ps (op : cmp_op) (raw : list Z)
    (a : Pack.t T) (b : T) : option Mask.t :=
  let m := Mask.default raw in
  for_loop 0 n (λ i m, x ← Pack.get a i; Mask.set m i (scalar_cmp op x b)) m.

(** [ekat_mask_gen_bin_op_sp(op)]: a scalar against a pack. *)
Definition ekat_mask_gen_bin_op_sp (op : cmp_op) (raw : list Z)
    (a : T) (b : Pack.t T) : option Mask.t :=
  let m := Mask.default raw in
  for_loop 0 n (λ i m, y ← Pack.get b i; Mask.set m i (scalar_cmp op a y)) m.

(** [isnan (const PackType& p)]; [is_nan] stands for [impl::is_nan]. *)
Definition isnan (is_nan : T → bool) (raw : list Z) (p : Pack.t T)
    : option Mask.t :=
  let m := Mask.default raw in
  for_loop 0 n (λ i m, x ← Pack.get p i; Mask.set m i (is_nan x)) m.

(** [range (const typename PackType::scalar& start)]: [p[i] = start + i],
    the [int] being converted to the scalar type. *)
Definition range (raw : list T) (start : T) : option (Pack.t T) :=
  p ← Pack.default n raw;
  for_loop 0 n (λ i p, Pack.put p i (add start (of_int i))) p.
End MorePackFunctions.

(** *** [npack] *)

Section Npack.
(** The largest value of the type [Int], which is declared outside of the
    sources at hand; its least value is [- Int_max - 1]. *)
Variable Int_max : Z.
Variable n : Z.

(** An [Int] computation whose result leaves the type is undefined. *)
Definition Int_result (x : Z) : option Z :=
  if decide (- Int_max - 1 ≤ x ≤ Int_max) then Some x else None.

(** [npack(const Int& nscalar)]: [(nscalar + PackType::n - 1) / PackType::n],
    the division truncating and undefined for a zero divisor. *)
Definition npack (nscalar : Z) : option Z :=
  s ← Int_result (nscalar + n);
  s ← Int_result (s - 1);
  if decide (n = 0) then None else Int_result (Z.quot s n).
End Npack.

#[global] Instance uint_cmp : ScalarCmp Z := {
  scalar_eq := Z.eqb;
  scalar_ne x y := negb (Z.eqb x y);
  scalar_ge := Z.geb;
  scalar_le := Z.leb;
  scalar_gt := Z.gtb;
  scalar_lt := Z.ltb
}.

(** *** Mask lanes as lists

    How the statements below write the lanes a mask operator leaves. *)

(** The truth value of a mask lane. *)
Definition truth (x : Z) : bool := negb (x =? 0).

(** The lane that [!] leaves. *)
Definition lane_not (x : Z) : Z := Z.b2z (negb (truth x)).

(** The lane that [&&] or [||] leaves. *)
Definition lane_bin (op : logic_op) (x y : Z) : Z :=
  Z.b2z (match op with
         | OpAnd => truth x && truth y
         | OpOr => truth x || truth y
         end).

(** *** Packs by their lanes *)

(** The call [o] succeeds and returns a pack of [n] lanes whose lane [j]
    holds [f j]. *)
Definition returns_lanes {T : Type} (n : Z) (o : option (Pack.t T))
    (f : Z → option T) : Prop :=
  ∃ r, o = Some r ∧ Pack.wf n r ∧ ∀ j, 0 ≤ j < n → Pack.get r j = f j.

(** The call [o] computes lane [j] as [f j], which may be undefined: it
    returns the pack of these lanes when they are all defined and is itself
    undefined as soon as one of them is. *)
Definition computes_lanes {T : Type} (n : Z) (o : option (Pack.t T))
    (f : Z → option T) : Prop :=
  ((∀ j, 0 ≤ j < n → is_Some (f j)) → returns_lanes n o f) ∧
  ((∃ j, 0 ≤ j < n ∧ f j = None) → o = None).

(** The call [o] succeeds and returns a mask of [n] lanes whose lane [j]
    holds 0 or 1 as [g j] says. *)
Definition returns_mask (n : Z) (o : option Mask.t) (g : Z → option bool)
    : Prop :=
  ∃ m, o = Some m ∧ Mask.wf n m ∧
    ∀ j, 0 ≤ j < n → load (Mask.d m) j = Z.b2z <$> g j.

(** ** Floating-point exception control ([ekat_assert.cpp]) *)

Module fpe.

(** The floating-point environment of the thread: the exceptions that have
    been raised and the exceptions that trap, as bit masks. *)
Record fenv := mk_fenv {
  raised : Z;
  trapping : Z
}.

Section Config.
(** Whether the macros [EKAT_ENABLE_FPE] and [EKAT_FPE] are defined, and the
    constants of [<cfenv>]. *)
Variables (EKAT_ENABLE_FPE EKAT_FPE : bool).
Variables (FE_DIVBYZERO FE_INVALID FE_OVERFLOW FE_ALL_EXCEPT : Z).

(** The four functions of the C library that the file calls, as their
    manual describes them: they act on the supported exceptions of their
    argument and leave the rest of the environment alone. *)
Definition feclearexcept (excepts : Z) (e : fenv) : fenv :=
  mk_fenv (Z.land (raised e) (Z.lnot (Z.land excepts FE_ALL_EXCEPT)))
          (trapping e).

Definition feenableexcept (excepts : Z) (e : fenv) : fenv :=
  mk_fenv (raised e) (Z.lor (trapping e) (Z.land excepts FE_ALL_EXCEPT)).

Definition fedisableexcept (excepts : Z) (e : fenv) : fenv :=
  mk_fenv (raised e)
          (Z.land (trapping e) (Z.lnot (Z.land excepts FE_ALL_EXCEPT))).

Definition fegetexcept (e : fenv) : Z := trapping e.

(** [int get_default_fpes ()] *)
Definition get_default_fpes : Z :=
  if EKAT_ENABLE_FPE then
    if EKAT_FPE then Z.lor (Z.lor FE_DIVBYZERO FE_INVALID) FE_OVERFLOW
    else 0
  else 0.

(** [void enable_fpes (const int mask)] *)
Definition enable_fpes (mask : Z) (e : fenv) : fenv :=
  if EKAT_ENABLE_FPE then
    let e := feclearexcept mask e in
    feenableexcept mask e
  else e.

(** [void disable_fpes (const int mask)] *)
Definition disable_fpes (mask : Z) (e : fenv) : fenv :=
  if EKAT_ENABLE_FPE then fedisableexcept mask e else e.

(** [int get_enabled_fpes ()] *)
Definition get_enabled_fpes (e : fenv) : Z :=
  if EKAT_ENABLE_FPE then fegetexcept e else 0.

(** [void disable_all_fpes ()] *)
Definition disable_all_fpes (e : fenv) : fenv :=
  if EKAT_ENABLE_FPE then disable_fpes FE_ALL_EXCEPT e else e.
End Config.
End fpe.

(** * Verification *)

(** ** Arrays *)

Section ArrayFacts.
Context {A : Type}.
Implicit Types (arr : list A) (i j : Z) (v x : A).

Lemma load_of_nat arr (k : nat) : load arr (Z.of_nat k) = arr !! k.
Proof.
  unfold load. case_decide; [|lia]. by rewrite Nat2Z.id.
Qed.

Lemma load_Some arr i x :
  load arr i = Some x → 0 ≤ i < Z.of_nat (length arr).
Proof.
  unfold load. case_decide; [|done].
  intros Hx%lookup_lt_Some. lia.
Qed.

Lemma load_in_range arr i :
  0 ≤ i < Z.of_nat (length arr) → is_Some (load arr i).
Proof.
  intros Hi. unfold load. case_decide; [|lia].
  apply lookup_lt_is_Some_2. lia.
Qed.

Lemma store_length arr i v arr' :
  store arr i v = Some arr' → length arr' = length arr.
Proof.
  unfold store. case_decide; [|done].
  intros [= <-]. apply length_insert.
Qed.

Lemma load_store arr i j v arr' :
  store arr i v = Some arr' →
  load arr' j = if decide (j = i) then Some v else load arr j.
Proof.
  unfold store. case_decide as Hi; [|done]. intros [= <-].
  unfold load. destruct (decide (j = i)) as [->|Hj].
  - case_decide; [|lia]. apply list_lookup_insert_eq. lia.
  - case_decide; [|done]. apply list_lookup_insert_ne. lia.
Qed.

Lemma store_same arr i x : load arr i = Some x → store arr i x = Some arr.
Proof.
  intros Hx. pose proof (load_Some _ _ _ Hx) as Hi.
  unfold store. case_decide; [|lia]. f_equal.
  apply list_insert_id. revert Hx. unfold load. by case_decide.
Qed.

Lemma store_in_range arr i v :
  0 ≤ i < Z.of_nat (length arr) → is_Some (store arr i v).
Proof. intros Hi. unfold store. case_decide; [eauto|lia]. Qed.
End ArrayFacts.

(** ** Loops *)

Lemma for_loop_empty {St} lo hi (body : Z → St → option St) s :
  hi ≤ lo → for_loop lo hi body s = Some s.
Proof.
  intros Hle. unfold for_loop.
  by replace (Z.to_nat (hi - lo)) with O by lia.
Qed.

(** A loop that reads lane [i] of a list at iteration [i] and folds it into
    its state is a left fold of the list. *)
Lemma iterate_fold {X St} (l : list X) (f : St → X → St)
    (body : Z → St → option St) :
  (∀ (k : nat) s x, l !! k = Some x → body (Z.of_nat k) s = Some (f s x)) →
  ∀ (trips k0 : nat) s,
    (trips + k0 = length l)%nat →
    iterate trips (Z.of_nat k0) body s = Some (foldl f s (drop k0 l)).
Proof.
  intros Hbody trips.
  induction trips as [|trips IH]; intros k0 s Hlen; simpl.
  - by rewrite drop_ge by lia.
  - destruct (lookup_lt_is_Some_2 l k0) as [x Hx]; [lia|].
    rewrite (Hbody _ s _ Hx). simpl.
    rewrite (drop_S _ _ _ Hx). simpl.
    replace (Z.of_nat k0 + 1) with (Z.of_nat (S k0)) by lia.
    apply IH. lia.
Qed.

Lemma for_loop_fold {X St} (l : list X) (f : St → X → St)
    (body : Z → St → option St) (n : Z) s :
  Z.of_nat (length l) = n →
  (∀ (k : nat) s x, l !! k = Some x → body (Z.of_nat k) s = Some (f s x)) →
  for_loop 0 n body s = Some (foldl f s l).
Proof.
  intros Hlen Hbody. unfold for_loop.
  rewrite (iterate_fold l f body Hbody _ O s); [done|lia].
Qed.

(** ** Lanes of a pack *)

Section PackFacts.
Context {T : Type} `{!ScalarTraits T}.
Variable n : Z.
Implicit Types (p q : Pack.t T) (i j : Z) (v x : T).

Lemma get_in_range p i :
  Pack.wf n p → 0 ≤ i < n → is_Some (Pack.get p i).
Proof. intros <- Hi. by apply load_in_range. Qed.

Lemma get_Some_range p i x :
  Pack.wf n p → Pack.get p i = Some x → 0 ≤ i < n.
Proof. intros <- Hx. by apply load_Some in Hx. Qed.

Lemma put_in_range p i v :
  Pack.wf n p → 0 ≤ i < n → is_Some (Pack.put p i v).
Proof.
  intros <- Hi. unfold Pack.put.
  destruct (store_in_range (Pack.d p) i v Hi) as [d' ->]. simpl. eauto.
Qed.

Lemma put_wf p i v q :
  Pack.wf n p → Pack.put p i v = Some q → Pack.wf n q.
Proof.
  unfold Pack.put, Pack.wf. intros <-.
  destruct (store (Pack.d p) i v) as [d'|] eqn:Hst; [|done].
  simpl. intros [= <-]. simpl. by rewrite (store_length _ _ _ _ Hst).
Qed.

Lemma get_put p i j v q :
  Pack.put p i v = Some q →
  Pack.get q j = if decide (j = i) then Some v else Pack.get p j.
Proof.
  unfold Pack.put, Pack.get.
  destruct (store (Pack.d p) i v) as [d'|] eqn:Hst; [|done].
  simpl. intros [= <-]. simpl. by apply load_store.
Qed.

Lemma put_same p i x : Pack.get p i = Some x → Pack.put p i x = Some p.
Proof.
  unfold Pack.put, Pack.get. intros Hx.
  rewrite (store_same _ _ _ Hx). simpl. by destruct p.
Qed.

(** The loops of the pack header write lane [i] at iteration [i]. Such a
    loop over [lo..hi-1] succeeds; lane [j] of the result is related by [R]
    to the lane it replaces when [lo <= j < hi] and is left as it was
    otherwise. *)
Lemma iterate_lanewise (R : Z → T → T → Prop)
    (body : Z → Pack.t T → option (Pack.t T)) (trips : nat) :
  ∀ lo p,
    0 ≤ lo → lo + Z.of_nat trips ≤ n → Pack.wf n p →
    (∀ i q x, lo ≤ i < lo + Z.of_nat trips → Pack.wf n q →
       Pack.get q i = Some x → ∃ v, body i q = Pack.put q i v ∧ R i x v) →
    ∃ q, iterate trips lo body p = Some q ∧ Pack.wf n q ∧
      ∀ j x, Pack.get p j = Some x →
        ∃ v, Pack.get q j = Some v ∧
          if decide (lo ≤ j < lo + Z.of_nat trips) then R j x v else v = x.
Proof.
  induction trips as [|trips IH]; intros lo p Hlo Hhi Hwf Hbody.
  - exists p. repeat split; [done|]. intros j x Hx. exists x.
    split; [done|]. case_decide; [lia|done].
  - destruct (get_in_range p lo Hwf) as [x0 Hx0]; [lia|].
    destruct (Hbody lo p x0) as (v0 & Hb & HR); [lia|done|done|].
    destruct (put_in_range p lo v0 Hwf) as [p' Hp']; [lia|].
    simpl. rewrite Hb, Hp'. simpl.
    destruct (IH (lo + 1) p') as (q & Hq & Hwfq & Hlanes);
      [lia|lia|by eapply put_wf| |].
    { intros i q x Hi. apply Hbody. lia. }
    exists q. repeat split; [done|done|]. intros j x Hx.
    pose proof (get_put _ _ j _ _ Hp') as Hj.
    destruct (decide (j = lo)) as [->|Hne].
    + destruct (Hlanes lo v0 Hj) as (v & Hv & Hkeep).
      case_decide; [lia|]. subst v. exists v0. split; [done|].
      case_decide; [|lia]. congruence.
    + rewrite Hx in Hj.
      destruct (Hlanes j x Hj) as (v & Hv & Hrel).
      exists v. split; [done|].
      repeat case_decide; try done; lia.
Qed.

Lemma for_loop_lanewise (R : Z → T → T → Prop)
    (body : Z → Pack.t T → option (Pack.t T)) lo hi p :
  0 ≤ lo → hi ≤ n → Pack.wf n p →
  (∀ i q x, lo ≤ i < hi → Pack.wf n q →
     Pack.get q i = Some x → ∃ v, body i q = Pack.put q i v ∧ R i x v) →
  ∃ q, for_loop lo hi body p = Some q ∧ Pack.wf n q ∧
    ∀ j x, Pack.get p j = Some x →
      ∃ v, Pack.get q j = Some v ∧
        if decide (lo ≤ j < hi) then R j x v else v = x.
Proof.
  intros Hlo Hhi Hwf Hbody.
  destruct (decide (hi ≤ lo)) as [Hempty|Hne].
  { rewrite for_loop_empty by done. exists p. repeat split; [done|].
    intros j x Hx. exists x. split; [done|]. case_decide; [lia|done]. }
  unfold for_loop.
  destruct (iterate_lanewise R body (Z.to_nat (hi - lo)) lo p)
    as (q & Hq & Hwfq & Hlanes); [lia|lia|done| |].
  { intros i q x Hi. apply Hbody. lia. }
  exists q. repeat split; [done|done|]. intros j x Hx.
  destruct (Hlanes j x Hx) as (v & Hv & Hrel). exists v. split; [done|].
  repeat case_decide; try done; lia.
Qed.

(** A loop over all the lanes that stores a value [f i] into lane [i]. *)
Lemma for_loop_fill (f : Z → option T)
    (body : Z → Pack.t T → option (Pack.t T)) p :
  Pack.wf n p →
  (∀ i q, 0 ≤ i < n → Pack.wf n q →
     ∃ v, f i = Some v ∧ body i q = Pack.put q i v) →
  ∃ q, for_loop 0 n body p = Some q ∧ Pack.wf n q ∧
    ∀ j, 0 ≤ j < n → Pack.get q j = f j.
Proof.
  intros Hwf Hbody.
  destruct (for_loop_lanewise (λ i _ v, f i = Some v) body 0 n p)
    as (q & Hq & Hwfq & Hlanes); [lia|lia|done| |].
  { intros i q x Hi Hwfq _. destruct (Hbody i q Hi Hwfq) as (v & Hf & Hb).
    eauto. }
  exists q. repeat split; [done|done|]. intros j Hj.
  destruct (get_in_range p j Hwf Hj) as [x Hx].
  destruct (Hlanes j x Hx) as (v & Hv & Hrel).
  case_decide; [|lia]. congruence.
Qed.

(** The value stored into lane [i] may be undefined, the iteration then
    being undefined with it. Iteration [i] finds in lane [i] what the lane
    held before the loop; the loop returns the updated pack when every value
    is defined and is undefined as soon as one is not. *)
Lemma iterate_update (u : Z → T → option T)
    (body : Z → Pack.t T → option (Pack.t T)) (trips : nat) :
  ∀ lo p,
    0 ≤ lo → lo + Z.of_nat trips ≤ n → Pack.wf n p →
    (∀ i q x, lo ≤ i < lo + Z.of_nat trips → Pack.wf n q →
       Pack.get q i = Some x → body i q = (v ← u i x; Pack.put q i v)) →
    ((∀ j x, lo ≤ j < lo + Z.of_nat trips → Pack.get p j = Some x →
        is_Some (u j x)) →
     ∃ q, iterate trips lo body p = Some q ∧ Pack.wf n q ∧
       ∀ j x, Pack.get p j = Some x →
         Pack.get q j
         = if decide (lo ≤ j < lo + Z.of_nat trips) then u j x else Some x) ∧
    ((∃ j x, lo ≤ j < lo + Z.of_nat trips ∧ Pack.get p j = Some x ∧
        u j x = None) →
     iterate trips lo body p = None).
Proof.
  induction trips as [|trips IH]; intros lo p Hlo Hhi Hwf Hbody.
  - split.
    + intros _. exists p. split_and!; [done|done|]. intros j x Hx.
      case_decide; [lia|done].
    + intros (j & x & Hj & _). lia.
  - destruct (get_in_range p lo Hwf) as [x0 Hx0]; [lia|].
    simpl. rewrite (Hbody lo p x0); [|lia|done|done].
    destruct (u lo x0) as [v0|] eqn:Hu; simpl.
    2:{ split; [|done]. intros Hdef.
        destruct (Hdef lo x0) as [v Hv]; [lia|done|]. congruence. }
    destruct (put_in_range p lo v0 Hwf) as [p' Hp']; [lia|].
    rewrite Hp'. simpl.
    pose proof (put_wf _ _ _ _ Hwf Hp') as Hwf'.
    assert (∀ j, j ≠ lo → Pack.get p' j = Pack.get p j) as Hother.
    { intros j Hj. rewrite (get_put _ _ j _ _ Hp'). by case_decide. }
    assert (Pack.get p' lo = Some v0) as Hlo'.
    { rewrite (get_put _ _ lo _ _ Hp'). by case_decide. }
    destruct (IH (lo + 1) p') as [IHdef IHundef]; [lia|lia|done| |].
    { intros i q x Hi. apply Hbody. lia. }
    split.
    + intros Hdef. destruct IHdef as (q & Hq & Hwfq & Hlanes).
      { intros j x Hj Hx. apply Hdef; [lia|]. rewrite <-Hother; [done|lia]. }
      exists q. split_and!; [done|done|]. intros j x Hx.
      destruct (decide (j = lo)) as [->|Hne].
      * rewrite (Hlanes lo v0 Hlo'). case_decide; [lia|].
        case_decide; [|lia]. congruence.
      * rewrite (Hlanes j x); [|by rewrite Hother].
        repeat case_decide; try done; lia.
    + intros (j & x & Hj & Hx & Hnone). apply IHundef.
      destruct (decide (j = lo)) as [->|Hne]; [congruence|].
      exists j, x. split_and!; [lia|lia|by rewrite Hother|done].
Qed.

Lemma computes_lanes_ext (o : option (Pack.t T)) (f g : Z → option T) :
  computes_lanes n o f → (∀ j, 0 ≤ j < n → f j = g j) →
  computes_lanes n o g.
Proof.
  intros [Hdef Hundef] Hfg. split.
  - intros Hall. destruct Hdef as (r & -> & Hwf & Hr).
    { intros j Hj. rewrite Hfg by done. by apply Hall. }
    exists r. split_and!; [done|done|]. intros j Hj. by rewrite Hr, Hfg.
  - intros (j & Hj & Hnone). apply Hundef. exists j. by rewrite Hfg.
Qed.

(** A loop that replaces lane [i], holding [x], by [u i x] when this is
    defined. *)
Lemma for_loop_update (u : Z → T → option T)
    (body : Z → Pack.t T → option (Pack.t T)) p :
  Pack.wf n p →
  (∀ i q x, 0 ≤ i < n → Pack.wf n q → Pack.get q i = Some x →
     body i q = (v ← u i x; Pack.put q i v)) →
  computes_lanes n (for_loop 0 n body p) (λ j, x ← Pack.get p j; u j x).
Proof.
  intros Hwf Hbody.
  assert (0 ≤ n) as Hn by (unfold Pack.wf in Hwf; lia).
  destruct (iterate_update u body (Z.to_nat (n - 0)) 0 p)
    as [Hdef Hundef]; [lia|lia|done| |].
  { intros i q x Hi. apply Hbody. lia. }
  unfold for_loop. split.
  - intros Hall. destruct Hdef as (q & Hq & Hwfq & Hlanes).
    { intros j x Hj Hx. specialize (Hall j). rewrite Hx in Hall.
      apply Hall. lia. }
    exists q. split_and!; [done|done|]. intros j Hj.
    destruct (get_in_range p j Hwf Hj) as [x Hx]. rewrite Hx. simpl.
    rewrite (Hlanes j x Hx). case_decide; [done|lia].
  - intros (j & Hj & Hnone). apply Hundef.
    destruct (get_in_range p j Hwf Hj) as [x Hx]. rewrite Hx in Hnone.
    exists j, x. split_and!; [lia|lia|done|done].
Qed.

(** A loop that stores [f i] into lane [i] when this is defined. *)
Lemma for_loop_compute (f : Z → option T)
    (body : Z → Pack.t T → option (Pack.t T)) p :
  Pack.wf n p →
  (∀ i q, 0 ≤ i < n → Pack.wf n q → body i q = (v ← f i; Pack.put q i v)) →
  computes_lanes n (for_loop 0 n body p) f.
Proof.
  intros Hwf Hbody. eapply computes_lanes_ext.
  - apply (for_loop_update (λ i _, f i)); [done|].
    intros i q x Hi Hq _. by apply Hbody.
  - intros j Hj. simpl. by destruct (get_in_range p j Hwf Hj) as [x ->].
Qed.

Lemma raw_wf (raw : list T) :
  Z.of_nat (length raw) = n → Pack.wf n (Pack.mk raw).
Proof. done. Qed.

(** What the constructors leave in the lanes. *)
Lemma broadcast_lanes (raw : list T) v :
  Z.of_nat (length raw) = n →
  ∃ p, Pack.broadcast n raw v = Some p ∧ Pack.wf n p ∧
    ∀ j, 0 ≤ j < n → Pack.get p j = Some v.
Proof.
  intros Hraw. apply (for_loop_fill (λ _, Some v)); [done|]. eauto.
Qed.

Lemma default_lanes (raw : list T) :
  Z.of_nat (length raw) = n →
  ∃ p, Pack.default n raw = Some p ∧ Pack.wf n p ∧
    ∀ j, 0 ≤ j < n → Pack.get p j = Some invalid.
Proof. apply broadcast_lanes. Qed.

(** The same loop on a pack declared just before: [Pack c; for ...]. *)
Lemma fresh_compute (f : Z → option T)
    (body : Z → Pack.t T → option (Pack.t T)) (raw : list T) :
  Z.of_nat (length raw) = n →
  (∀ i q, 0 ≤ i < n → Pack.wf n q → body i q = (v ← f i; Pack.put q i v)) →
  computes_lanes n (c ← Pack.default n raw; for_loop 0 n body c) f.
Proof.
  intros Hraw Hbody.
  destruct (default_lanes raw Hraw) as (c & -> & Hwf & _). simpl.
  by apply for_loop_compute.
Qed.
End PackFacts.

(** ** Lanes of a mask *)

Lemma mask_get_in_range n (m : Mask.t) i :
  Mask.wf n m → 0 ≤ i < n → is_Some (Mask.get m i).
Proof.
  intros <- Hi. unfold Mask.get.
  destruct (load_in_range (Mask.d m) i Hi) as [x ->]. simpl. eauto.
Qed.

(** ** Pack sizes *)

(** The static assertion of [ScalarTraits<Pack<T,N>>] accepts exactly the
    powers of two. *)
Lemma valid_pack_size_pow2 (N : Z) :
  valid_pack_size N = true ↔ ∃ k, 0 ≤ k ∧ N = 2 ^ k.
Proof.
  unfold valid_pack_size. rewrite andb_true_iff, Z.ltb_lt, Z.eqb_eq. split.
  - intros [Hpos Hland]. exists (Z.log2 N).
    split; [apply Z.log2_nonneg|].
    destruct (Z.log2_spec N Hpos) as [Hlo Hhi].
    destruct (decide (N = 2 ^ Z.log2 N)) as [|Hne]; [done|exfalso].
    assert (Z.log2 (N - 1) = Z.log2 N) as Hlog.
    { apply Z.log2_unique; [apply Z.log2_nonneg|lia]. }
    assert (Z.testbit (Z.land N (N - 1)) (Z.log2 N) = true) as Hbit.
    { rewrite Z.land_spec, Z.bit_log2 by done.
      rewrite <-Hlog, Z.bit_log2; [done|].
      assert (0 < 2 ^ Z.log2 N)
        by (apply Z.pow_pos_nonneg; [lia|apply Z.log2_nonneg]).
      lia. }
    rewrite Hland, Z.bits_0 in Hbit. done.
  - intros (k & Hk & ->). split; [by apply Z.pow_pos_nonneg|].
    apply Z.bits_inj'. intros i Hi.
    rewrite Z.land_spec, Z.bits_0, Z.pow2_bits_eqb by done.
    rewrite Z.sub_1_r, <-Z.ones_equiv.
    destruct (Z.eqb_spec k i) as [->|Hne]; [|done].
    rewrite Z.ones_spec_high by lia. done.
Qed.

Lemma valid_pack_size_pos (N : Z) : valid_pack_size N = true → 0 < N.
Proof. unfold valid_pack_size. rewrite andb_true_iff, Z.ltb_lt. tauto. Qed.

(** ** Constructors, [set] and [ScalarTraits] *)

Section Constructors.
Context {T : Type} `{!ScalarTraits T}.
Implicit Types (p q : Pack.t T) (m : Mask.t) (raw : list T).

(** C4. A default-constructed [Pack<T,n>] exists (the constructor stays
    inside its array, whatever the storage held) and every one of its [n]
    lanes holds [ScalarTraits<T>::invalid()]. *)
Theorem default_pack_all_invalid (n : Z) raw :
  Z.of_nat (length raw) = n →
  ∃ p, Pack.default n raw = Some p ∧ Pack.wf n p ∧
    ∀ i, 0 ≤ i < n → Pack.get p i = Some invalid.
Proof. apply default_lanes. Qed.

(** C7. For a pack size [N] that passes the static assertion,
    [ScalarTraits<Pack<T,N>>::invalid()] is a pack whose [N] lanes all hold
    [ScalarTraits<T>::invalid()], and [quiet_NaN()] one whose lanes all hold
    [ScalarTraits<T>::quiet_NaN()]. In particular, for four lanes (whatever
    the scalar type, [double] included) the result of [invalid()] is the pack
    of four inner sentinels. *)
Theorem pack_traits_sentinels :
  (∀ (N : Z) raw,
     valid_pack_size N = true → Z.of_nat (length raw) = N →
     (∃ p, PackTraits.invalid N raw = Some p ∧ Pack.wf N p ∧
        ∀ i, 0 ≤ i < N → Pack.get p i = Some invalid) ∧
     (∃ p, PackTraits.quiet_NaN N raw = Some p ∧ Pack.wf N p ∧
        ∀ i, 0 ≤ i < N → Pack.get p i = Some quiet_NaN)) ∧
  (∀ a b c d : T,
     valid_pack_size 4 = true ∧
     PackTraits.invalid 4 [a; b; c; d]
       = Some (Pack.mk [invalid; invalid; invalid; invalid])).
Proof.
  split.
  - intros N raw _ Hraw. split; by apply broadcast_lanes.
  - intros a b c d. split; reflexivity.
Qed.

(** C3. The masked constructor [Pack(m, p)] and [q.set(m, p)] both succeed
    on operands of [n] lanes. In lane [i] the constructor leaves [p[i]] when
    [m[i]] is true and [invalid()] otherwise; [set] leaves [p[i]] when [m[i]]
    is true and the prior [q[i]] otherwise. So the two agree on the selected
    lanes and differ only in what an unselected lane holds. *)
Theorem masked_constructor_and_set (n : Z) raw m p q :
  Z.of_nat (length raw) = n →
  Mask.wf n m → Pack.wf n p → Pack.wf n q →
  ∃ c s,
    Pack.masked n raw m p = Some c ∧ Pack.set n q m p = Some s ∧
    Pack.wf n c ∧ Pack.wf n s ∧
    ∀ i, 0 ≤ i < n →
      ∃ (b : bool) x y,
        Mask.get m i = Some b ∧ Pack.get p i = Some x ∧
        Pack.get q i = Some y ∧
        Pack.get c i = Some (if b then x else invalid) ∧
        Pack.get s i = Some (if b then x else y) ∧
        (b = true → Pack.get c i = Pack.get s i).
Proof.
  intros Hraw Hm Hp Hq.
  destruct (for_loop_fill n
    (λ i, b ← Mask.get m i; if b : bool then Pack.get p i else Some invalid)
    (λ i q, b ← Mask.get m i;
            x ← (if b : bool then Pack.get p i else Some invalid);
            Pack.put q i x)
    (Pack.mk raw)) as (c & Hc & Hwfc & Hlc); [done| |].
  { intros i q' Hi _.
    destruct (mask_get_in_range n m i Hm Hi) as [b ->].
    destruct (get_in_range n p i Hp Hi) as [x ->].
    destruct b; simpl; eauto. }
  destruct (for_loop_lanewise n
    (λ i y v, ∃ b : bool, Mask.get m i = Some b ∧
                ∃ x, Pack.get p i = Some x ∧ v = if b then x else y)
    (λ i q, b ← Mask.get m i;
            if b : bool then x ← Pack.get p i; Pack.put q i x else Some q)
    0 n q) as (s & Hs & Hwfs & Hls); [lia|lia|done| |].
  { intros i q' y Hi _ Hy.
    destruct (mask_get_in_range n m i Hm Hi) as [b Hb].
    destruct (get_in_range n p i Hp Hi) as [x Hx].
    rewrite Hb, Hx. destruct b; simpl.
    - exists x. split; [done|]. exists true. eauto.
    - exists y. split; [by rewrite put_same|]. exists false. eauto. }
  exists c, s. repeat split; [done..|]. intros i Hi.
  destruct (mask_get_in_range n m i Hm Hi) as [b Hb].
  destruct (get_in_range n p i Hp Hi) as [x Hx].
  destruct (get_in_range n q i Hq Hi) as [y Hy].
  destruct (Hls i y Hy) as (v & Hv & Hrel).
  case_decide; [|lia].
  destruct Hrel as (b' & Hb' & x' & Hx' & ->).
  assert (b' = b) as -> by congruence. assert (x' = x) as -> by congruence.
  exists b, x, y. rewrite (Hlc i Hi), Hb, Hx, Hv.
  simpl. split_and!; [done|done|done|by destruct b|done|by intros ->].
Qed.
End Constructors.

(** ** Arithmetic operators and shifts *)

Section Operators.
Context {T : Type} `{!ScalarTraits T} `{!ScalarOps T}.
Variable n : Z.
Implicit Types (a b p : Pack.t T) (raw : list T).

(** C5. The arithmetic operators come in three operand shapes (pack-pack,
    pack-scalar, scalar-pack) and work lane by lane, a scalar operand being
    used as it is in every lane. For each of [+ - *] the operator succeeds
    on operands of [n] lanes and returns a pack of [n] lanes, whose lane [i]
    is the scalar operator applied to lane [i] of the pack operands; for [+]
    and the pack-pack shape this reads [(a+b)[i] == a[i]+b[i]]. For [/] the
    same holds when the scalar division is defined in every lane; when it is
    undefined in some lane, the division of the packs is undefined. *)
Theorem arithmetic_operators_lanewise raw a b (s : T) :
  Z.of_nat (length raw) = n → Pack.wf n a → Pack.wf n b →
  (∀ op f, (op, f) ∈ [(OpAdd, add); (OpSub, sub); (OpMul, mul)] →
     ∃ cpp cps csp,
       ekat_pack_gen_bin_op_pp n op raw a b = Some cpp ∧
       ekat_pack_gen_bin_op_ps n op raw a s = Some cps ∧
       ekat_pack_gen_bin_op_sp n op raw s b = Some csp ∧
       Pack.wf n cpp ∧ Pack.wf n cps ∧ Pack.wf n csp ∧
       ∀ i, 0 ≤ i < n →
         ∃ x y, Pack.get a i = Some x ∧ Pack.get b i = Some y ∧
           Pack.get cpp i = Some (f x y) ∧
           Pack.get cps i = Some (f x s) ∧
           Pack.get csp i = Some (f s y)) ∧
  computes_lanes n (ekat_pack_gen_bin_op_pp n OpDiv raw a b)
    (λ i, x ← Pack.get a i; y ← Pack.get b i; div x y) ∧
  computes_lanes n (ekat_pack_gen_bin_op_ps n OpDiv raw a s)
    (λ i, x ← Pack.get a i; div x s) ∧
  computes_lanes n (ekat_pack_gen_bin_op_sp n OpDiv raw s b)
    (λ i, y ← Pack.get b i; div s y).
Proof.
  intros Hraw Ha Hb. split_and!.
  - intros op f Hin.
    assert (∀ x y, scalar_op op x y = Some (f x y)) as Hop.
    { rewrite !elem_of_cons, elem_of_nil in Hin.
      destruct Hin as [[= -> ->]|[[= -> ->]|[[= -> ->]|[]]]]; done. }
    destruct (default_lanes n raw Hraw) as (c0 & Hc0 & Hwf0 & _).
    unfold ekat_pack_gen_bin_op_pp, ekat_pack_gen_bin_op_ps,
      ekat_pack_gen_bin_op_sp.
    rewrite Hc0. simpl.
    destruct (for_loop_fill n
      (λ i, x ← Pack.get a i; y ← Pack.get b i; Some (f x y))
      (λ i c, x ← Pack.get a i; y ← Pack.get b i;
              v ← scalar_op op x y; Pack.put c i v) c0)
      as (cpp & -> & Hwfpp & Hpp); [done| |].
    { intros i q Hi _.
      destruct (get_in_range n a i Ha Hi) as [x ->].
      destruct (get_in_range n b i Hb Hi) as [y ->]. simpl.
      rewrite Hop. simpl. eauto. }
    destruct (for_loop_fill n
      (λ i, x ← Pack.get a i; Some (f x s))
      (λ i c, x ← Pack.get a i; v ← scalar_op op x s; Pack.put c i v) c0)
      as (cps & -> & Hwfps & Hps); [done| |].
    { intros i q Hi _.
      destruct (get_in_range n a i Ha Hi) as [x ->]. simpl.
      rewrite Hop. simpl. eauto. }
    destruct (for_loop_fill n
      (λ i, y ← Pack.get b i; Some (f s y))
      (λ i c, y ← Pack.get b i; v ← scalar_op op s y; Pack.put c i v) c0)
      as (csp & -> & Hwfsp & Hsp); [done| |].
    { intros i q Hi _.
      destruct (get_in_range n b i Hb Hi) as [y ->]. simpl.
      rewrite Hop. simpl. eauto. }
    exists cpp, cps, csp. split_and!; [done..|]. intros i Hi.
    rewrite (Hpp i Hi), (Hps i Hi), (Hsp i Hi).
    destruct (get_in_range n a i Ha Hi) as [x ->].
    destruct (get_in_range n b i Hb Hi) as [y ->]. simpl. eauto 10.
  - apply fresh_compute; [done|]. intros i q Hi _.
    destruct (get_in_range n a i Ha Hi) as [x ->].
    by destruct (get_in_range n b i Hb Hi) as [y ->].
  - apply fresh_compute; [done|]. intros i q Hi _.
    by destruct (get_in_range n a i Ha Hi) as [x ->].
  - apply fresh_compute; [done|]. intros i q Hi _.
    by destruct (get_in_range n b i Hb Hi) as [y ->].
Qed.

(** The loop shared by the two [shift_right] overloads. *)
Lemma shift_right_loop p q0 :
  Pack.wf n p → Pack.wf n q0 →
  ∃ r, for_loop 1 n (λ i s, x ← Pack.get p (i - 1); Pack.put s i x) q0
         = Some r ∧ Pack.wf n r ∧
    (0 < n → Pack.get r 0 = Pack.get q0 0) ∧
    ∀ i, 1 ≤ i < n → Pack.get r i = Pack.get p (i - 1).
Proof.
  intros Hp Hq0.
  destruct (for_loop_lanewise n (λ i _ v, Pack.get p (i - 1) = Some v)
    (λ i s, x ← Pack.get p (i - 1); Pack.put s i x) 1 n q0)
    as (r & Hr & Hwfr & Hlanes); [lia|lia|done| |].
  { intros i q _ Hi _ _.
    destruct (get_in_range n p (i - 1) Hp) as [x Hx]; [lia|].
    rewrite Hx. simpl. eauto. }
  exists r. split_and!; [done|done| |].
  - intros Hn. destruct (get_in_range n q0 0 Hq0) as [x Hx]; [lia|].
    destruct (Hlanes 0 x Hx) as (v & Hv & Hrel).
    case_decide; [lia|]. congruence.
  - intros i Hi. destruct (get_in_range n q0 i Hq0) as [x Hx]; [lia|].
    destruct (Hlanes i x Hx) as (v & Hv & Hrel).
    case_decide; [|lia]. congruence.
Qed.

(** The loop shared by the two [shift_left] overloads. *)
Lemma shift_left_loop p q0 :
  Pack.wf n p → Pack.wf n q0 →
  ∃ r, for_loop 0 (n - 1) (λ i s, x ← Pack.get p (i + 1); Pack.put s i x) q0
         = Some r ∧ Pack.wf n r ∧
    (0 < n → Pack.get r (n - 1) = Pack.get q0 (n - 1)) ∧
    ∀ i, 0 ≤ i < n - 1 → Pack.get r i = Pack.get p (i + 1).
Proof.
  intros Hp Hq0.
  destruct (for_loop_lanewise n (λ i _ v, Pack.get p (i + 1) = Some v)
    (λ i s, x ← Pack.get p (i + 1); Pack.put s i x) 0 (n - 1) q0)
    as (r & Hr & Hwfr & Hlanes); [lia|lia|done| |].
  { intros i q _ Hi _ _.
    destruct (get_in_range n p (i + 1) Hp) as [x Hx]; [lia|].
    rewrite Hx. simpl. eauto. }
  exists r. split_and!; [done|done| |].
  - intros Hn. destruct (get_in_range n q0 (n - 1) Hq0) as [x Hx]; [lia|].
    destruct (Hlanes (n - 1) x Hx) as (v & Hv & Hrel).
    case_decide; [lia|]. congruence.
  - intros i Hi. destruct (get_in_range n q0 i Hq0) as [x Hx]; [lia|].
    destruct (Hlanes i x Hx) as (v & Hv & Hrel).
    case_decide; [|lia]. congruence.
Qed.

(** C1, as the code has it. On packs of [n >= 1] lanes the four shifts
    succeed. [shift_right]: lane 0 of the result is the boundary, which is
    the given scalar or, for a boundary pack, its LAST lane [pm1[n-1]]; lanes
    [1..n-1] are lanes [0..n-2] of [p]. [shift_left]: lane [n-1] of the
    result is the boundary, the given scalar or lane 0 of the boundary pack;
    lanes [0..n-2] are lanes [1..n-1] of [p]. *)
Theorem shift_lanes raw (pm1 pp1 p : Pack.t T) (s : T) :
  0 < n → Z.of_nat (length raw) = n →
  Pack.wf n pm1 → Pack.wf n pp1 → Pack.wf n p →
  ∃ r rs l ls,
    shift_right n raw pm1 p = Some r ∧
    shift_right_scalar n raw s p = Some rs ∧
    shift_left n raw pp1 p = Some l ∧
    shift_left_scalar n raw s p = Some ls ∧
    Pack.wf n r ∧ Pack.wf n rs ∧ Pack.wf n l ∧ Pack.wf n ls ∧
    (∃ x, Pack.get pm1 (n - 1) = Some x ∧ Pack.get r 0 = Some x) ∧
    Pack.get rs 0 = Some s ∧
    (∀ i, 1 ≤ i < n →
       ∃ x, Pack.get p (i - 1) = Some x ∧
         Pack.get r i = Some x ∧ Pack.get rs i = Some x) ∧
    (∃ x, Pack.get pp1 0 = Some x ∧ Pack.get l (n - 1) = Some x) ∧
    Pack.get ls (n - 1) = Some s ∧
    (∀ i, 0 ≤ i < n - 1 →
       ∃ x, Pack.get p (i + 1) = Some x ∧
         Pack.get l i = Some x ∧ Pack.get ls i = Some x).
Proof.
  intros Hn Hraw Hpm1 Hpp1 Hp.
  destruct (default_lanes n raw Hraw) as (q0 & Hq0 & Hwf0 & _).
  destruct (get_in_range n pm1 (n - 1) Hpm1) as [xm Hxm]; [lia|].
  destruct (get_in_range n pp1 0 Hpp1) as [xp Hxp]; [lia|].
  destruct (put_in_range n q0 0 xm Hwf0) as [srp Hsrp]; [lia|].
  destruct (put_in_range n q0 0 s Hwf0) as [srs Hsrs]; [lia|].
  destruct (put_in_range n q0 (n - 1) xp Hwf0) as [slp Hslp]; [lia|].
  destruct (put_in_range n q0 (n - 1) s Hwf0) as [sls Hsls]; [lia|].
  destruct (shift_right_loop p srp Hp) as (r & Hr & Hwfr & Hr0 & Hri);
    [exact (put_wf n _ _ _ _ Hwf0 Hsrp)|].
  destruct (shift_right_loop p srs Hp) as (rs & Hrs & Hwfrs & Hrs0 & Hrsi);
    [exact (put_wf n _ _ _ _ Hwf0 Hsrs)|].
  destruct (shift_left_loop p slp Hp) as (l & Hl & Hwfl & Hl0 & Hli);
    [exact (put_wf n _ _ _ _ Hwf0 Hslp)|].
  destruct (shift_left_loop p sls Hp) as (ls & Hls & Hwfls & Hls0 & Hlsi);
    [exact (put_wf n _ _ _ _ Hwf0 Hsls)|].
  exists r, rs, l, ls.
  unfold shift_right, shift_right_scalar, shift_left, shift_left_scalar.
  rewrite Hq0. simpl. rewrite Hxm, Hxp. simpl.
  rewrite Hsrp, Hsrs, Hslp, Hsls. simpl.
  split_and!; try done.
  - exists xm. split; [done|]. rewrite (Hr0 Hn), (get_put _ _ 0 _ _ Hsrp).
    by case_decide.
  - rewrite (Hrs0 Hn), (get_put _ _ 0 _ _ Hsrs). by case_decide.
  - intros i Hi. destruct (get_in_range n p (i - 1) Hp) as [x Hx]; [lia|].
    exists x. by rewrite (Hri i Hi), (Hrsi i Hi).
  - exists xp. split; [done|].
    rewrite (Hl0 Hn), (get_put _ _ (n - 1) _ _ Hslp). by case_decide.
  - rewrite (Hls0 Hn), (get_put _ _ (n - 1) _ _ Hsls). by case_decide.
  - intros i Hi. destruct (get_in_range n p (i + 1) Hp) as [x Hx]; [lia|].
    exists x. by rewrite (Hli i Hi), (Hlsi i Hi).
Qed.
End Operators.

(** ** Mask queries *)

Lemma mask_get_true (m : Mask.t) (k : nat) :
  Mask.get m (Z.of_nat k) = Some true
  ↔ ∃ x, Mask.d m !! k = Some x ∧ x ≠ 0.
Proof.
  unfold Mask.get. rewrite load_of_nat.
  destruct (Mask.d m !! k) as [x|]; simpl.
  - destruct (Z.eqb_spec x 0) as [->|Hx]; simpl.
    + split; [done|]. by intros (y & [= <-] & Hy).
    + split; [eauto|done].
  - split; [done|]. by intros (y & Hy & _).
Qed.

Lemma mask_get_false (m : Mask.t) (k : nat) :
  Mask.get m (Z.of_nat k) = Some false ↔ Mask.d m !! k = Some 0.
Proof.
  unfold Mask.get. rewrite load_of_nat.
  destruct (Mask.d m !! k) as [x|]; simpl.
  - destruct (Z.eqb_spec x 0) as [->|Hx]; simpl.
    + done.
    + split; [done|]. by intros [= ->].
  - done.
Qed.

Lemma foldl_any (l : list Z) (b0 : bool) :
  foldl (λ b x, if negb (x =? 0) then true else b) b0 l = true
  ↔ b0 = true ∨ ∃ (k : nat) x, l !! k = Some x ∧ x ≠ 0.
Proof.
  revert b0. induction l as [|x l IH]; intros b0; simpl.
  - split; [auto|]. intros [?|(k & y & Hk & _)]; [done|].
    by rewrite lookup_nil in Hk.
  - rewrite IH. destruct (Z.eqb_spec x 0) as [->|Hx]; simpl.
    + split.
      * intros [?|(k & y & Hk & Hy)]; [auto|]. right. by exists (S k), y.
      * intros [?|(k & y & Hk & Hy)]; [auto|]. right.
        destruct k as [|k]; simplify_eq/=. by exists k, y.
    + split; [|auto]. intros _. right. by exists O, x.
Qed.

Lemma foldl_all (l : list Z) (b0 : bool) :
  foldl (λ b x, if negb (negb (x =? 0)) then false else b) b0 l = true
  ↔ b0 = true ∧ ∀ (k : nat) x, l !! k = Some x → x ≠ 0.
Proof.
  revert b0. induction l as [|x l IH]; intros b0; simpl.
  - split; [|by intros []]. intros ->. split; [done|].
    intros k y Hk. by rewrite lookup_nil in Hk.
  - rewrite IH. destruct (Z.eqb_spec x 0) as [->|Hx]; simpl.
    + split; [by intros []|]. intros [_ Hall]. by destruct (Hall O 0).
    + split.
      * intros [-> Hall]. split; [done|].
        intros [|k] y Hk; simplify_eq/=; eauto.
      * intros [-> Hall]. split; [done|]. intros k y Hk.
        by apply (Hall (S k)).
Qed.

(** C8. On a mask of [n] lanes, whatever they hold, the three queries
    return: [any()] is true iff some lane is true, [all()] is true iff
    every lane is true, [none()] is the negation of [any()], and (a mask
    type having at least one lane) [all()] implies [any()]. *)
Theorem mask_any_all_none (n : Z) (m : Mask.t) :
  Mask.wf n m →
  ∃ bany ball,
    Mask.any n m = Some bany ∧ Mask.all n m = Some ball ∧
    Mask.none n m = Some (negb bany) ∧
    (bany = true ↔ ∃ i, 0 ≤ i < n ∧ Mask.get m i = Some true) ∧
    (ball = true ↔ ∀ i, 0 ≤ i < n → Mask.get m i = Some true) ∧
    (0 < n → ball = true → bany = true).
Proof.
  intros Hwf.
  assert (Hany : Mask.any n m
    = Some (foldl (λ b x, if negb (x =? 0) then true else b) false
              (Mask.d m))).
  { apply for_loop_fold; [done|]. intros k b x Hx.
    by rewrite load_of_nat, Hx. }
  assert (Hall : Mask.all n m
    = Some (foldl (λ b x, if negb (negb (x =? 0)) then false else b) true
              (Mask.d m))).
  { apply for_loop_fold; [done|]. intros k b x Hx.
    by rewrite load_of_nat, Hx. }
  assert (Hex : ∀ bany,
    bany = foldl (λ b x, if negb (x =? 0) then true else b) false (Mask.d m) →
    bany = true ↔ ∃ i, 0 ≤ i < n ∧ Mask.get m i = Some true).
  { intros bany ->. rewrite foldl_any. split.
    - intros [?|(k & x & Hk & Hx)]; [done|]. exists (Z.of_nat k).
      split; [|apply mask_get_true; eauto].
      apply lookup_lt_Some in Hk. unfold Mask.wf in Hwf. lia.
    - intros (i & Hi & Hget). right.
      replace i with (Z.of_nat (Z.to_nat i)) in Hget by lia.
      apply mask_get_true in Hget as (x & Hx & Hne). eauto. }
  assert (Hfa : ∀ ball,
    ball = foldl (λ b x, if negb (negb (x =? 0)) then false else b) true
             (Mask.d m) →
    ball = true ↔ ∀ i, 0 ≤ i < n → Mask.get m i = Some true).
  { intros ball ->. rewrite foldl_all. split.
    - intros [_ Hlanes] i Hi.
      replace i with (Z.of_nat (Z.to_nat i)) by lia.
      destruct (lookup_lt_is_Some_2 (Mask.d m) (Z.to_nat i)) as [x Hx].
      { unfold Mask.wf in Hwf. lia. }
      apply mask_get_true. exists x. split; [done|]. by eapply Hlanes.
    - intros Hlanes. split; [done|]. intros k x Hk.
      destruct (mask_get_true m k) as [Hget _].
      destruct Hget as (y & Hy & Hne).
      { apply Hlanes. apply lookup_lt_Some in Hk. unfold Mask.wf in Hwf.
        lia. }
      congruence. }
  eexists _, _. unfold Mask.none. rewrite Hany, Hall. simpl.
  split_and!; [done|done|done|by apply Hex|by apply Hfa|].
  intros Hn Htrue. eapply Hex; [done|]. exists 0. split; [lia|].
  eapply Hfa; [done|done|lia].
Qed.

(** ** Masked reductions *)

Section MaskedReductions.
Context {T : Type} `{!ScalarOps T}.
Variable n : Z.

Lemma foldl_selected (g : T → T → T) (ms : list Z) (xs : list T) init :
  foldl (λ s (mx : Z * T), if negb (mx.1 =? 0) then g s mx.2 else s)
        init (zip ms xs)
  = foldl g init (selected ms xs).
Proof.
  revert xs init. induction ms as [|mz ms IH]; intros [|x xs] init; simpl;
    try done.
  rewrite IH. by destruct (negb (mz =? 0)).
Qed.

(** The loop shared by the masked [min] and [max]. *)
Lemma masked_loop (g : T → T → T) (mask : Mask.t) init (p : Pack.t T) :
  Mask.wf n mask → Pack.wf n p →
  for_loop 0 n
    (λ i init, b ← Mask.get mask i;
               if b : bool then x ← Pack.get p i; Some (g init x)
               else Some init)
    init
  = Some (foldl g init (selected (Mask.d mask) (Pack.d p))).
Proof.
  intros Hm Hp. rewrite <-foldl_selected.
  apply for_loop_fold.
  - rewrite length_zip. unfold Mask.wf, Pack.wf in *. lia.
  - intros k s [mz x] [Hmz Hx]%lookup_zip_Some.
    unfold Mask.get, Pack.get. rewrite !load_of_nat, Hmz, Hx. simpl.
    by destruct (negb (mz =? 0)).
Qed.

Lemma selected_none (ms : list Z) (xs : list T) :
  (∀ (k : nat), (k < length ms)%nat → ms !! k = Some 0) →
  selected ms xs = [].
Proof.
  revert xs. induction ms as [|mz ms IH]; intros [|x xs] Hz; simpl;
    try done.
  assert (mz = 0) as ->.
  { specialize (Hz O). simpl in Hz. injection Hz; [done|lia]. }
  simpl. apply IH. intros k Hk. apply (Hz (S k)). simpl. lia.
Qed.

(** C6. The masked [min] (respectively [max]) reduction returns the left
    fold of [impl::min] (respectively [impl::max]), started from [init],
    over the lanes of [p] that the mask selects, in lane order; the lanes
    whose mask lane is false are not folded. When the mask selects no lane
    the result is [init]. *)
Theorem masked_min_max (mask : Mask.t) (init : T) (p : Pack.t T) :
  Mask.wf n mask → Pack.wf n p →
  min_masked n mask init p
    = Some (foldl impl_min init (selected (Mask.d mask) (Pack.d p))) ∧
  max_masked n mask init p
    = Some (foldl impl_max init (selected (Mask.d mask) (Pack.d p))) ∧
  ((∀ i, 0 ≤ i < n → Mask.get mask i = Some false) →
   min_masked n mask init p = Some init ∧
   max_masked n mask init p = Some init).
Proof.
  intros Hm Hp. unfold min_masked, max_masked.
  rewrite !masked_loop by done. split_and!; [done|done|].
  intros Hnone. rewrite selected_none; [done|].
  intros k Hk. apply mask_get_false, Hnone.
  unfold Mask.wf in Hm. lia.
Qed.
End MaskedReductions.

(** ** Sum reduction *)

Section SumFacts.
Context {T : Type} `{!ScalarOps T}.
Variable n : Z.
Implicit Types (p : Pack.t T) (l : list (option T)).

(** The serialized loop is the left-to-right sum onto the accumulator. *)
Lemma serialized_sum p (sum : T) :
  Pack.wf n p →
  for_loop 0 n (λ i sum, x ← Pack.get p i; Some (add sum x)) sum
  = Some (foldl add sum (Pack.d p)).
Proof.
  intros Hp. apply for_loop_fold; [done|]. intros k s x Hx.
  unfold Pack.get. by rewrite load_of_nat, Hx.
Qed.

Lemma lanes_in_order p :
  Pack.wf n p →
  Forall2 (λ i v, Pack.get p i = Some v) (seqZ 0 n) (Pack.d p).
Proof.
  intros Hp. apply Forall2_same_length_lookup_2.
  - rewrite length_seqZ. unfold Pack.wf in Hp. lia.
  - intros k i v [-> _]%lookup_seqZ Hv. unfold Pack.get.
    by rewrite Z.add_0_l, load_of_nat.
Qed.

Lemma left_comb_sum p (sum : T) (lanes : list Z) (vs : list T) :
  Forall2 (λ i v, Pack.get p i = Some v) lanes vs →
  ∀ s0 x0,
    vector_simd_sum s0 p sum = Some x0 →
    vector_simd_sum (foldl (λ s i, Node s (Leaf (Lane i))) s0 lanes) p sum
    = Some (foldl add x0 vs).
Proof.
  induction 1 as [|i v lanes vs Hv _ IH]; intros s0 x0 Hs0; simpl; [done|].
  apply IH. simpl. by rewrite Hs0, Hv.
Qed.

(** The schedule of the loop as written computes what the loop computes,
    whatever the arithmetic. *)
Lemma as_written_sum p (sum : T) :
  Pack.wf n p →
  vector_simd_sum (as_written n) p sum = Some (foldl add sum (Pack.d p)).
Proof.
  intros Hp. unfold as_written.
  by apply (left_comb_sum p sum _ _ (lanes_in_order p Hp)).
Qed.

Lemma as_written_operands m : operands (as_written m) = sum_operands m.
Proof.
  unfold as_written, sum_operands.
  assert (∀ (lanes : list Z) s0,
    operands (foldl (λ s i, Node s (Leaf (Lane i))) s0 lanes)
    = operands s0 ++ (Lane <$> lanes)) as Hgen.
  { induction lanes as [|i lanes IH]; intros s0; simpl.
    - by rewrite app_nil_r.
    - rewrite IH. simpl. by rewrite <-app_assoc. }
  by rewrite Hgen.
Qed.

Lemma as_written_licensed m : licensed m (as_written m).
Proof. unfold licensed. by rewrite as_written_operands. Qed.

(** On a pack of [n] lanes every operand of the loop has a value; together
    they are the accumulator and the lanes. *)
Lemma sum_operands_values p (sum : T) :
  Pack.wf n p →
  operand_value p sum <$> sum_operands n
  = Some sum :: (Some <$> Pack.d p).
Proof.
  intros Hp. unfold sum_operands. rewrite fmap_cons. simpl. f_equal.
  assert (∀ (lanes : list Z) (vs : list T),
    Forall2 (λ i v, Pack.get p i = Some v) lanes vs →
    operand_value p sum <$> (Lane <$> lanes) = Some <$> vs) as Hgen.
  { induction 1 as [|i v lanes vs Hv _ IH]; csimpl; [done|].
    by rewrite Hv, IH. }
  apply Hgen, lanes_in_order, Hp.
Qed.

Section Exact.
Context `{!ExactAdd T}.

Lemma oadd_assoc (x y z : option T) :
  oadd x (oadd y z) = oadd (oadd x y) z.
Proof. destruct x, y, z; simpl; by rewrite ?add_assoc. Qed.

Lemma oadd_comm (x y : option T) : oadd x y = oadd y x.
Proof. destruct x, y; simpl; by rewrite 1?add_comm. Qed.

Lemma oadd_None_r (x : option T) : oadd x None = x.
Proof. by destruct x. Qed.

Lemma osum_app l1 l2 : osum (l1 ++ l2) = oadd (osum l1) (osum l2).
Proof.
  unfold osum. induction l1 as [|x l1 IH]; simpl; [done|].
  by rewrite IH, oadd_assoc.
Qed.

Lemma osum_permutation l1 l2 : l1 ≡ₚ l2 → osum l1 = osum l2.
Proof.
  unfold osum. induction 1 as [|x l1 l2 _ IH|x y l|l1 l2 l3 _ IH1 _ IH2];
    simpl.
  - done.
  - by rewrite IH.
  - by rewrite !oadd_assoc, (oadd_comm y x).
  - by rewrite IH1.
Qed.

Lemma osum_foldl (sum : T) (vs : list T) :
  osum (Some sum :: (Some <$> vs)) = Some (foldl add sum vs).
Proof.
  revert sum. induction vs as [|v vs IH]; intros sum; [done|].
  csimpl. rewrite <-IH.
  change (oadd (Some sum) (oadd (Some v) (osum (Some <$> vs)))
          = oadd (Some (add sum v)) (osum (Some <$> vs))).
  by rewrite oadd_assoc.
Qed.

(** A schedule whose operands all have a value returns their sum. *)
Lemma vector_simd_sum_osum (s : schedule) p (sum : T) :
  (∀ o, o ∈ operands s → is_Some (operand_value p sum o)) →
  ∃ v, vector_simd_sum s p sum = Some v ∧
       osum (operand_value p sum <$> operands s) = Some v.
Proof.
  induction s as [o|l IHl r IHr]; intros Hdef; simpl.
  - destruct (Hdef o) as [v Hv]; [by apply list_elem_of_singleton|].
    exists v. unfold osum. simpl. rewrite Hv. by destruct o.
  - destruct IHl as (x & Hx & Hxs).
    { intros o Ho. apply Hdef. simpl. apply elem_of_app. auto. }
    destruct IHr as (y & Hy & Hys).
    { intros o Ho. apply Hdef. simpl. apply elem_of_app. auto. }
    exists (add x y). rewrite Hx, Hy. simpl.
    by rewrite fmap_app, osum_app, Hxs, Hys.
Qed.

(** With exact addition every licensed schedule returns the left-to-right
    sum. *)
Lemma licensed_sum (s : schedule) p (sum : T) :
  Pack.wf n p → licensed n s →
  vector_simd_sum s p sum = Some (foldl add sum (Pack.d p)).
Proof.
  intros Hp Hs.
  assert (Hvals : operand_value p sum <$> operands s
                  ≡ₚ Some sum :: (Some <$> Pack.d p)).
  { rewrite <-(sum_operands_values p sum Hp). by apply fmap_Permutation. }
  destruct (vector_simd_sum_osum s p sum) as (v & Hv & Hsum).
  { intros o Ho.
    assert (operand_value p sum o ∈ operand_value p sum <$> operands s)
      as Hin by by apply list_elem_of_fmap_2.
    rewrite Hvals in Hin.
    apply elem_of_cons in Hin as [->|Hin]; [done|].
    apply list_elem_of_fmap in Hin as (x & -> & _). done. }
  rewrite Hv, <-Hsum, (osum_permutation _ _ Hvals). apply osum_foldl.
Qed.
End Exact.
End SumFacts.

Section ReduceSumClaims.
Context {T : Type} `{!ScalarOps T}.
Variable n : Z.
Implicit Types (p : Pack.t T) (simd : option schedule).

(** C2. When the addition of the scalar type is exact (it can be regrouped
    and reordered, as for integers), the serialized policy and the
    vectorized policy of [reduce_sum] return the same value from the same
    accumulator, whether the vectorized loop runs as written or under any
    regrouping and reordering of its additions: both return the lane-order
    sum onto the accumulator. The same holds for the overload that starts
    from zero. *)
Theorem reduce_sum_policies_agree `{!ExactAdd T} simd p (sum0 : T) :
  Pack.wf n p → licensed_choice n simd →
  reduce_sum n true simd p sum0 = reduce_sum n false simd p sum0 ∧
  reduce_sum n false simd p sum0 = Some (foldl add sum0 (Pack.d p)) ∧
  reduce_sum_value n true simd p = reduce_sum_value n false simd p.
Proof.
  intros Hp Hs. unfold reduce_sum_value, reduce_sum.
  destruct simd as [s|]; rewrite !serialized_sum by done; [|done].
  by rewrite !(licensed_sum n s p _ Hp Hs).
Qed.

(** C10. The two-argument [reduce_sum(p, sum)] leaves in [sum] the value
    [sum0 + p[0] + ... + p[n-1]], the additions taken from the left: the
    incoming accumulator is added to, not overwritten. The one-argument
    [reduce_sum(p)] returns the same sum started from [scalar(0)]. This holds
    for the serialized policy, for the vectorized policy with the loop run
    as it is written, for the overloads whose policy defaults to [ekatBFB]
    and, when the addition is exact, for the vectorized policy under every
    licensed regrouping. *)
Theorem reduce_sum_accumulates simd p (sum0 : T) :
  Pack.wf n p →
  reduce_sum n true simd p sum0 = Some (foldl add sum0 (Pack.d p)) ∧
  reduce_sum_value n true simd p = Some (foldl add (of_int 0) (Pack.d p)) ∧
  reduce_sum n false None p sum0 = Some (foldl add sum0 (Pack.d p)) ∧
  reduce_sum_value n false None p
    = Some (foldl add (of_int 0) (Pack.d p)) ∧
  (∀ ekatBFB : bool,
     reduce_sum_default n ekatBFB None p sum0
       = Some (foldl add sum0 (Pack.d p)) ∧
     reduce_sum_value_default n ekatBFB None p
       = Some (foldl add (of_int 0) (Pack.d p))) ∧
  (ExactAdd T → licensed_choice n simd →
     reduce_sum n false simd p sum0 = Some (foldl add sum0 (Pack.d p)) ∧
     reduce_sum_value n false simd p
       = Some (foldl add (of_int 0) (Pack.d p))).
Proof.
  intros Hp.
  unfold reduce_sum_value_default, reduce_sum_default, reduce_sum_value,
    reduce_sum.
  rewrite !serialized_sum by done.
  split_and!; try done.
  - by intros [].
  - intros Hexact Hs. destruct simd as [s|]; [|done].
    by rewrite !(licensed_sum n s p _ Hp Hs).
Qed.
End ReduceSumClaims.

(** ** The abort facility *)

Lemma string_append_assoc (s1 s2 s3 : string) :
  (s1 +:+ s2) +:+ s3 = s1 +:+ s2 +:+ s3.
Proof.
  induction s1 as [|c s1 IH]; [done|].
  change (String c ((s1 +:+ s2) +:+ s3) = String c (s1 +:+ s2 +:+ s3)).
  by rewrite IH.
Qed.

(** C9. [runtime_check] calls [runtime_abort] with the given message and
    code exactly when the condition is false, and otherwise returns without
    touching anything. [runtime_abort] always writes the message (then
    "Exiting...") to [std::cerr], then finalizes the ekat session, and ends
    the process: through [MPI_Abort] on [MPI_COMM_WORLD] with the given code
    when MPI is initialized, through [std::abort] otherwise. With the
    shutdown the spec describes, the session is down at the exit and the
    output and the MPI state are as the writes left them. *)
Theorem runtime_check_and_abort :
  (∀ finalize cond message code w,
     error.runtime_check finalize cond message code w
     = if cond then error.Returns w
       else error.runtime_abort finalize message code w) ∧
  (∀ finalize cond message code w,
     (∃ how w', error.runtime_check finalize cond message code w
                = error.Exits how w') ↔ cond = false) ∧
  (∀ finalize message code w,
     let printed :=
       error.mk_process
         (error.cerr w +:+ message +:+ error.endl
            +:+ "Exiting..." +:+ error.endl)
         (error.session_up w) (error.mpi_flag w) in
     let w' := finalize printed in
     error.runtime_abort finalize message code w
     = error.Exits
         (if error.mpi_flag w' =? 0 then error.std_abort
          else error.MPI_Abort error.MPI_COMM_WORLD code) w') ∧
  (∀ message code w,
     ∃ w', error.runtime_abort error.session_shutdown message code w
           = error.Exits
               (if error.mpi_flag w =? 0 then error.std_abort
                else error.MPI_Abort error.MPI_COMM_WORLD code) w' ∧
       error.cerr w'
       = error.cerr w +:+ message +:+ error.endl
           +:+ "Exiting..." +:+ error.endl ∧
       error.session_up w' = false ∧
       error.mpi_flag w' = error.mpi_flag w).
Proof.
  assert (Habort : ∀ finalize message code w,
    error.runtime_abort finalize message code w
    = error.Exits
        (if error.mpi_flag
              (finalize (error.mk_process
                 (error.cerr w +:+ message +:+ error.endl
                    +:+ "Exiting..." +:+ error.endl)
                 (error.session_up w) (error.mpi_flag w))) =? 0
         then error.std_abort
         else error.MPI_Abort error.MPI_COMM_WORLD code)
        (finalize (error.mk_process
           (error.cerr w +:+ message +:+ error.endl
              +:+ "Exiting..." +:+ error.endl)
           (error.session_up w) (error.mpi_flag w)))).
  { intros finalize message code w.
    unfold error.runtime_abort, error.MPI_Initialized, error.write_cerr.
    simpl. rewrite !string_append_assoc.
    by destruct (error.mpi_flag _ =? 0). }
  split_and!.
  - by intros finalize [].
  - intros finalize [] message code w; unfold error.runtime_check; simpl.
    + split; [by intros (? & ? & ?)|done].
    + split; [done|]. intros _. rewrite Habort. by eexists _, _.
  - intros finalize message code w. simpl. apply Habort.
  - intros message code w. rewrite Habort. by eexists.
Qed.

(** * The definitions at work on [unsigned int] packs *)

(** Addition modulo [2^32] is exact. *)
#[global] Instance uint_exact_add : ExactAdd Z.
Proof.
  split; intros; unfold add, UInt.ops, UInt.wrap.
  - rewrite Z.add_mod_idemp_r, Z.add_mod_idemp_l by done. f_equal. lia.
  - f_equal. lia.
Qed.

Lemma two_wide_licensed : licensed 4 two_wide.
Proof.
  unfold licensed. change (sum_operands 4)
    with [Acc; Lane 0; Lane 1; Lane 2; Lane 3].
  simpl. do 2 apply perm_skip. apply perm_swap.
Qed.

(** The functions run. *)

Example shift_right_runs :
  shift_right 4 [0; 0; 0; 0] (Pack.mk [10; 20; 30; 40]) (Pack.mk [1; 2; 3; 4])
  = Some (Pack.mk [40; 1; 2; 3]).
Proof. reflexivity. Qed.

Example shift_left_runs :
  shift_left 4 [0; 0; 0; 0] (Pack.mk [50; 60; 70; 80]) (Pack.mk [1; 2; 3; 4])
  = Some (Pack.mk [2; 3; 4; 50]).
Proof. reflexivity. Qed.

Example shift_right_no_lane :
  shift_right (T := Z) 0 [] (Pack.mk []) (Pack.mk []) = None.
Proof. reflexivity. Qed.

Example masked_runs :
  Pack.masked 4 [0; 0; 0; 0] (Mask.mk [1; 0; 1; 0]) (Pack.mk [11; 12; 13; 14])
  = Some (Pack.mk [11; 2 ^ 32 - 1; 13; 2 ^ 32 - 1]).
Proof. reflexivity. Qed.

Example set_runs :
  Pack.set 4 (Pack.mk [21; 22; 23; 24]) (Mask.mk [1; 0; 1; 0])
    (Pack.mk [11; 12; 13; 14])
  = Some (Pack.mk [11; 22; 13; 24]).
Proof. reflexivity. Qed.

Example mask_queries_all_true :
  let m := Mask.mk [1; 1; 1; 1] in
  Mask.any 4 m = Some true ∧ Mask.all 4 m = Some true ∧
  Mask.none 4 m = Some false.
Proof. by split_and!. Qed.

Example mask_queries_all_false :
  let m := Mask.mk [0; 0; 0; 0] in
  Mask.any 4 m = Some false ∧ Mask.all 4 m = Some false ∧
  Mask.none 4 m = Some true.
Proof. by split_and!. Qed.

Example mask_queries_mixed :
  let m := Mask.mk [0; 1; 0; 0] in
  Mask.any 4 m = Some true ∧ Mask.all 4 m = Some false ∧
  Mask.none 4 m = Some false.
Proof. by split_and!. Qed.

Example reduce_sum_wraps :
  let p := Pack.mk [2 ^ 32 - 1; 1; 5; 7] in
  reduce_sum 4 true None p 10 = Some 22 ∧
  reduce_sum 4 false None p 10 = Some 22 ∧
  reduce_sum 4 false (Some two_wide) p 10 = Some 22 ∧
  reduce_sum 4 false (Some (as_written 4)) p 10 = Some 22.
Proof. by split_and!. Qed.

Example runtime_check_passes :
  let w := error.mk_process EmptyString true 1 in
  error.runtime_check error.session_shutdown true "bad" 3 w
  = error.Returns w.
Proof. reflexivity. Qed.

Example runtime_check_aborts_mpi :
  error.runtime_check error.session_shutdown false "bad" 3
    (error.mk_process EmptyString true 1)
  = error.Exits (error.MPI_Abort error.MPI_COMM_WORLD 3)
      (error.mk_process ("bad" +:+ error.endl +:+ "Exiting..." +:+ error.endl)
         false 1).
Proof. reflexivity. Qed.

Example runtime_check_aborts_plain :
  error.runtime_check error.session_shutdown false "bad" 3
    (error.mk_process EmptyString true 0)
  = error.Exits error.std_abort
      (error.mk_process ("bad" +:+ error.endl +:+ "Exiting..." +:+ error.endl)
         false 0).
Proof. reflexivity. Qed.

(** The claims at concrete packs. *)

Lemma default_pack_all_invalid_witness :
  Z.of_nat (length [7; 8; 9; 10]) = 4 ∧
  ∃ p, Pack.default 4 [7; 8; 9; 10] = Some p ∧ Pack.wf 4 p ∧
    ∀ i, 0 ≤ i < 4 → Pack.get p i = Some (2 ^ 32 - 1).
Proof.
  split; [reflexivity|].
  exact (default_pack_all_invalid 4 [7; 8; 9; 10] eq_refl).
Defined.

Lemma pack_traits_sentinels_witness :
  valid_pack_size 4 = true ∧ Z.of_nat (length [1; 2; 3; 4]) = 4 ∧
  (∃ p, PackTraits.invalid 4 [1; 2; 3; 4] = Some p ∧ Pack.wf 4 p ∧
     ∀ i, 0 ≤ i < 4 → Pack.get p i = Some invalid) ∧
  (∃ p, PackTraits.quiet_NaN 4 [1; 2; 3; 4] = Some p ∧ Pack.wf 4 p ∧
     ∀ i, 0 ≤ i < 4 → Pack.get p i = Some quiet_NaN).
Proof.
  split; [reflexivity|]. split; [reflexivity|].
  exact (proj1 (pack_traits_sentinels (T := Z)) 4 [1; 2; 3; 4]
           eq_refl eq_refl).
Defined.

Lemma masked_constructor_and_set_witness :
  let m := Mask.mk [1; 0; 1; 0] in
  let p := Pack.mk [11; 12; 13; 14] in
  let q := Pack.mk [21; 22; 23; 24] in
  Z.of_nat (length [0; 0; 0; 0]) = 4 ∧
  Mask.wf 4 m ∧ Pack.wf 4 p ∧ Pack.wf 4 q ∧
  ∃ c s,
    Pack.masked 4 [0; 0; 0; 0] m p = Some c ∧ Pack.set 4 q m p = Some s ∧
    Pack.wf 4 c ∧ Pack.wf 4 s ∧
    ∀ i, 0 ≤ i < 4 →
      ∃ (b : bool) x y,
        Mask.get m i = Some b ∧ Pack.get p i = Some x ∧
        Pack.get q i = Some y ∧
        Pack.get c i = Some (if b then x else invalid) ∧
        Pack.get s i = Some (if b then x else y) ∧
        (b = true → Pack.get c i = Pack.get s i).
Proof.
  intros m p q. split_and!; [reflexivity..|].
  exact (masked_constructor_and_set 4 [0; 0; 0; 0] m p q
           eq_refl eq_refl eq_refl eq_refl).
Defined.

Lemma arithmetic_operators_lanewise_witness :
  let a := Pack.mk [7; 2; 3; 4] in
  let b := Pack.mk [1; 3; 1; 2] in
  let raw := [0; 0; 0; 0] in
  Z.of_nat (length raw) = 4 ∧ Pack.wf 4 a ∧ Pack.wf 4 b ∧
  ekat_pack_gen_bin_op_pp 4 OpAdd raw a b = Some (Pack.mk [8; 5; 4; 6]) ∧
  ekat_pack_gen_bin_op_pp 4 OpSub raw a b
  = Some (Pack.mk [6; 4294967295; 2; 2]) ∧
  ekat_pack_gen_bin_op_pp 4 OpMul raw a b = Some (Pack.mk [7; 6; 3; 8]) ∧
  ekat_pack_gen_bin_op_pp 4 OpDiv raw a b = Some (Pack.mk [7; 0; 3; 2]) ∧
  ekat_pack_gen_bin_op_ps 4 OpAdd raw a 3 = Some (Pack.mk [10; 5; 6; 7]) ∧
  ekat_pack_gen_bin_op_ps 4 OpSub raw a 3
  = Some (Pack.mk [4; 4294967295; 0; 1]) ∧
  ekat_pack_gen_bin_op_ps 4 OpMul raw a 3 = Some (Pack.mk [21; 6; 9; 12]) ∧
  ekat_pack_gen_bin_op_ps 4 OpDiv raw a 3 = Some (Pack.mk [2; 0; 1; 1]) ∧
  ekat_pack_gen_bin_op_sp 4 OpAdd raw 3 b = Some (Pack.mk [4; 6; 4; 5]) ∧
  ekat_pack_gen_bin_op_sp 4 OpSub raw 3 b = Some (Pack.mk [2; 0; 2; 1]) ∧
  ekat_pack_gen_bin_op_sp 4 OpMul raw 3 b = Some (Pack.mk [3; 9; 3; 6]) ∧
  ekat_pack_gen_bin_op_sp 4 OpDiv raw 3 b = Some (Pack.mk [3; 1; 3; 1]) ∧
  (∃ cpp cps csp,
     ekat_pack_gen_bin_op_pp 4 OpSub raw a b = Some cpp ∧
     ekat_pack_gen_bin_op_ps 4 OpSub raw a 3 = Some cps ∧
     ekat_pack_gen_bin_op_sp 4 OpSub raw 3 b = Some csp ∧
     Pack.wf 4 cpp ∧ Pack.wf 4 cps ∧ Pack.wf 4 csp ∧
     ∀ i, 0 ≤ i < 4 →
       ∃ x y, Pack.get a i = Some x ∧ Pack.get b i = Some y ∧
         Pack.get cpp i = Some (sub x y) ∧
         Pack.get cps i = Some (sub x 3) ∧
         Pack.get csp i = Some (sub 3 y)) ∧
  computes_lanes 4 (ekat_pack_gen_bin_op_pp 4 OpDiv raw a b)
    (λ i, x ← Pack.get a i; y ← Pack.get b i; div x y) ∧
  computes_lanes 4 (ekat_pack_gen_bin_op_ps 4 OpDiv raw a 3)
    (λ i, x ← Pack.get a i; div x 3) ∧
  computes_lanes 4 (ekat_pack_gen_bin_op_sp 4 OpDiv raw 3 b)
    (λ i, y ← Pack.get b i; div 3 y).
Proof.
  intros a b raw.
  pose proof (arithmetic_operators_lanewise 4 raw a b 3
                eq_refl eq_refl eq_refl) as (Htotal & Hpp & Hps & Hsp).
  split_and!; [reflexivity..| |exact Hpp|exact Hps|exact Hsp].
  apply (Htotal OpSub sub). right. left.
Defined.

Lemma shift_lanes_witness :
  let pm1 := Pack.mk [10; 20; 30; 40] in
  let pp1 := Pack.mk [50; 60; 70; 80] in
  let p := Pack.mk [1; 2; 3; 4] in
  0 < 4 ∧ Z.of_nat (length [0; 0; 0; 0]) = 4 ∧
  Pack.wf 4 pm1 ∧ Pack.wf 4 pp1 ∧ Pack.wf 4 p ∧
  ∃ r rs l ls,
    shift_right 4 [0; 0; 0; 0] pm1 p = Some r ∧
    shift_right_scalar 4 [0; 0; 0; 0] 9 p = Some rs ∧
    shift_left 4 [0; 0; 0; 0] pp1 p = Some l ∧
    shift_left_scalar 4 [0; 0; 0; 0] 9 p = Some ls ∧
    Pack.wf 4 r ∧ Pack.wf 4 rs ∧ Pack.wf 4 l ∧ Pack.wf 4 ls ∧
    (∃ x, Pack.get pm1 (4 - 1) = Some x ∧ Pack.get r 0 = Some x) ∧
    Pack.get rs 0 = Some 9 ∧
    (∀ i, 1 ≤ i < 4 →
       ∃ x, Pack.get p (i - 1) = Some x ∧
         Pack.get r i = Some x ∧ Pack.get rs i = Some x) ∧
    (∃ x, Pack.get pp1 0 = Some x ∧ Pack.get l (4 - 1) = Some x) ∧
    Pack.get ls (4 - 1) = Some 9 ∧
    (∀ i, 0 ≤ i < 4 - 1 →
       ∃ x, Pack.get p (i + 1) = Some x ∧
         Pack.get l i = Some x ∧ Pack.get ls i = Some x).
Proof.
  intros pm1 pp1 p. split_and!; [reflexivity..|].
  exact (shift_lanes 4 [0; 0; 0; 0] pm1 pp1 p 9
           eq_refl eq_refl eq_refl eq_refl eq_refl).
Defined.

(** The claim as the spec words it has lane 0 of [shift_right] come from
    lane 0 of a boundary pack. On four lanes the code takes it from lane 3. *)
Lemma shift_right_boundary_counterexample :
  let pm1 := Pack.mk [10; 20; 30; 40] in
  let p := Pack.mk [1; 2; 3; 4] in
  shift_right 4 [0; 0; 0; 0] pm1 p = Some (Pack.mk [40; 1; 2; 3]) ∧
  Pack.get pm1 0 = Some 10 ∧
  ¬ (∃ r, shift_right 4 [0; 0; 0; 0] pm1 p = Some r ∧
          Pack.get r 0 = Pack.get pm1 0).
Proof.
  intros pm1 p. split_and!; [reflexivity..|].
  intros (r & Hr & Hlane).
  assert (r = Pack.mk [40; 1; 2; 3]) as -> by (vm_compute in Hr; congruence).
  vm_compute in Hlane. congruence.
Qed.

(** The claim as the spec words it has [a / b] yield a pack for every pair
    of packs. On [unsigned int] packs the quotient of lane 1 does not exist
    when the divisor holds 0 there, and no pack is returned; the same when
    the divisor is the scalar 0. *)
Lemma division_zero_lane_counterexample :
  let a := Pack.mk [7; 2; 3; 4] in
  let b := Pack.mk [1; 0; 1; 2] in
  Pack.wf 4 a ∧ Pack.wf 4 b ∧
  Pack.get a 1 = Some 2 ∧ Pack.get b 1 = Some 0 ∧ div 2 0 = None ∧
  ekat_pack_gen_bin_op_pp 4 OpDiv [0; 0; 0; 0] a b = None ∧
  ekat_pack_gen_bin_op_ps 4 OpDiv [0; 0; 0; 0] a 0 = None ∧
  ekat_pack_gen_bin_op_sp 4 OpDiv [0; 0; 0; 0] 7 b = None ∧
  ¬ (∃ c, ekat_pack_gen_bin_op_pp 4 OpDiv [0; 0; 0; 0] a b = Some c ∧
          ∀ i, 0 ≤ i < 4 → is_Some (Pack.get c i)).
Proof.
  intros a b. split_and!; [reflexivity..|].
  intros (c & Hc & _). vm_compute in Hc. congruence.
Qed.

Lemma mask_any_all_none_witness :
  let m := Mask.mk [1; 0; 5; 0] in
  Mask.wf 4 m ∧
  ∃ bany ball,
    Mask.any 4 m = Some bany ∧ Mask.all 4 m = Some ball ∧
    Mask.none 4 m = Some (negb bany) ∧
    (bany = true ↔ ∃ i, 0 ≤ i < 4 ∧ Mask.get m i = Some true) ∧
    (ball = true ↔ ∀ i, 0 ≤ i < 4 → Mask.get m i = Some true) ∧
    (0 < 4 → ball = true → bany = true).
Proof.
  intros m. split; [reflexivity|].
  exact (mask_any_all_none 4 m eq_refl).
Defined.

(** The example of the spec: the masked maximum of the lanes [3,1,4,1]
    under the mask [true,false,true,false], started from 0, is 4. *)
Lemma masked_min_max_witness :
  let mask := Mask.mk [1; 0; 1; 0] in
  let p := Pack.mk [3; 1; 4; 1] in
  Mask.wf 4 mask ∧ Pack.wf 4 p ∧
  max_masked 4 mask 0 p = Some 4 ∧
  min_masked 4 mask 9 p = Some 3.
Proof.
  intros mask p. split_and!; [reflexivity..| |].
  - exact (proj1 (proj2 (masked_min_max 4 mask 0 p eq_refl eq_refl))).
  - exact (proj1 (masked_min_max 4 mask 9 p eq_refl eq_refl)).
Defined.

Lemma reduce_sum_policies_agree_witness :
  let p := Pack.mk [2 ^ 32 - 1; 1; 5; 7] in
  let simd := Some two_wide in
  Pack.wf 4 p ∧ licensed_choice 4 simd ∧
  reduce_sum 4 true simd p 10 = reduce_sum 4 false simd p 10 ∧
  reduce_sum 4 false simd p 10 = Some 22 ∧
  reduce_sum_value 4 true simd p = reduce_sum_value 4 false simd p.
Proof.
  intros p simd. split; [reflexivity|]. split; [exact two_wide_licensed|].
  exact (reduce_sum_policies_agree 4 simd p 10 eq_refl two_wide_licensed).
Defined.

Lemma reduce_sum_accumulates_witness :
  let p := Pack.mk [1; 2; 3; 4] in
  Pack.wf 4 p ∧
  reduce_sum 4 true None p 100 = Some 110 ∧
  reduce_sum_value 4 true None p = Some 10 ∧
  reduce_sum 4 false None p 100 = Some 110 ∧
  reduce_sum_value 4 false None p = Some 10.
Proof.
  intros p. split; [reflexivity|].
  pose proof (reduce_sum_accumulates 4 None p 100 eq_refl)
    as (H1 & H2 & H3 & H4 & _).
  split_and!; [exact H1|exact H2|exact H3|exact H4].
Defined.

(** * The rest of the pack header *)

(** ** Loops that fill an array *)

(** A loop over some state that stores a value [f i] into lane [i] of the
    array the state carries: it succeeds and lane [j] of the final array is
    [f j] for [lo <= j < lo + trips], the other lanes being left alone. *)
Lemma iterate_fill_array {A St : Type} (arr : St → list A) (n : Z)
    (f : Z → option A) (body : Z → St → option St) (trips : nat) :
  ∀ lo s,
    0 ≤ lo → lo + Z.of_nat trips ≤ n → Z.of_nat (length (arr s)) = n →
    (∀ i s, lo ≤ i < lo + Z.of_nat trips → Z.of_nat (length (arr s)) = n →
       ∃ v s', f i = Some v ∧ body i s = Some s' ∧
               arr s' = <[Z.to_nat i := v]> (arr s)) →
    ∃ s', iterate trips lo body s = Some s' ∧
      Z.of_nat (length (arr s')) = n ∧
      ∀ j, load (arr s') j
           = if decide (lo ≤ j < lo + Z.of_nat trips) then f j
             else load (arr s) j.
Proof.
  induction trips as [|trips IH]; intros lo s Hlo Hhi Hlen Hbody.
  - exists s. split_and!; [done|done|]. intros j. case_decide; [lia|done].
  - destruct (Hbody lo s) as (v & s1 & Hf & Hb & Harr); [lia|done|].
    assert (Hlen1 : Z.of_nat (length (arr s1)) = n)
      by by rewrite Harr, length_insert.
    destruct (IH (lo + 1) s1) as (s' & Hs' & Hlen' & Hlanes);
      [lia|lia|done| |].
    { intros i s2 Hi. apply Hbody. lia. }
    exists s'. simpl. rewrite Hb. simpl. split_and!; [done|done|].
    intros j. rewrite Hlanes, Harr.
    assert (Hst : store (arr s) lo v = Some (<[Z.to_nat lo := v]> (arr s))).
    { unfold store. case_decide; [done|lia]. }
    rewrite (load_store _ _ j _ _ Hst).
    repeat case_decide; try done; try lia. congruence.
Qed.

Lemma for_loop_fill_array {A St : Type} (arr : St → list A) (n : Z)
    (f : Z → option A) (body : Z → St → option St) s :
  Z.of_nat (length (arr s)) = n →
  (∀ i s, 0 ≤ i < n → Z.of_nat (length (arr s)) = n →
     ∃ v s', f i = Some v ∧ body i s = Some s' ∧
             arr s' = <[Z.to_nat i := v]> (arr s)) →
  ∃ s', for_loop 0 n body s = Some s' ∧
    Z.of_nat (length (arr s')) = n ∧
    ∀ j, 0 ≤ j < n → load (arr s') j = f j.
Proof.
  intros Hlen Hbody. unfold for_loop.
  destruct (iterate_fill_array arr n f body (Z.to_nat (n - 0)) 0 s)
    as (s' & Hs' & Hlen' & Hlanes); [lia|lia|done| |].
  { intros i s1 Hi. apply Hbody. lia. }
  exists s'. split_and!; [done|done|]. intros j Hj.
  rewrite Hlanes. case_decide; [done|lia].
Qed.

(** Two arrays of [n] lanes with the same lanes are the same array. *)
Lemma array_ext {A : Type} (n : Z) (l1 l2 : list A) :
  Z.of_nat (length l1) = n → Z.of_nat (length l2) = n →
  (∀ j, 0 ≤ j < n → load l1 j = load l2 j) → l1 = l2.
Proof.
  intros H1 H2 Hlanes. apply list_eq. intros k.
  destruct (decide (Z.of_nat k < n)) as [Hk|Hk].
  - rewrite <-!load_of_nat. apply Hlanes. lia.
  - rewrite !(proj2 (lookup_ge_None _ _)); [done|lia|lia].
Qed.

Lemma pack_ext {T : Type} (n : Z) (p q : Pack.t T) :
  Pack.wf n p → Pack.wf n q →
  (∀ j, 0 ≤ j < n → Pack.get p j = Pack.get q j) → p = q.
Proof.
  destruct p as [dp], q as [dq]. unfold Pack.wf, Pack.get. simpl.
  intros H1 H2 Hlanes. f_equal. by apply (array_ext n).
Qed.

Lemma mask_ext (n : Z) (a b : Mask.t) :
  Mask.wf n a → Mask.wf n b →
  (∀ j, 0 ≤ j < n → load (Mask.d a) j = load (Mask.d b) j) → a = b.
Proof.
  destruct a as [da], b as [db]. unfold Mask.wf. simpl.
  intros H1 H2 Hlanes. f_equal. by apply (array_ext n).
Qed.

(** ** Lanes of a mask, continued *)

Lemma mask_set_array (m : Mask.t) i (v : bool) :
  0 ≤ i < Z.of_nat (length (Mask.d m)) →
  ∃ m', Mask.set m i v = Some m' ∧
        Mask.d m' = <[Z.to_nat i := Z.b2z v]> (Mask.d m).
Proof.
  intros Hi. unfold Mask.set, store. case_decide; [|lia]. simpl. eauto.
Qed.

Lemma mask_get_b2z (m : Mask.t) i (b : bool) :
  load (Mask.d m) i = Some (Z.b2z b) → Mask.get m i = Some b.
Proof. unfold Mask.get. intros ->. by destruct b. Qed.

(** A loop that sets lane [i] of a fresh mask to [g i]: the mask it returns
    has [n] lanes, each holding 0 or 1 as [g] says. *)
Lemma mask_fill (n : Z) (g : Z → option bool)
    (body : Z → Mask.t → option Mask.t) (raw : list Z) :
  Z.of_nat (length raw) = n →
  (∀ i m, 0 ≤ i < n → Mask.wf n m →
     ∃ v, g i = Some v ∧ body i m = Mask.set m i v) →
  ∃ m, for_loop 0 n body (Mask.default raw) = Some m ∧ Mask.wf n m ∧
    (∀ j, 0 ≤ j < n → load (Mask.d m) j = Z.b2z <$> g j) ∧
    (∀ j, 0 ≤ j < n → Mask.get m j = g j).
Proof.
  intros Hraw Hbody.
  destruct (for_loop_fill_array Mask.d n (λ i, Z.b2z <$> g i) body
              (Mask.default raw)) as (m & Hm & Hwf & Hlanes); [done| |].
  { intros i m Hi Hwf. destruct (Hbody i m Hi Hwf) as (v & Hg & Hb).
    destruct (mask_set_array m i v) as (m' & Hset & Harr).
    { unfold Mask.wf in Hwf. lia. }
    exists (Z.b2z v), m'. rewrite Hg, Hb. done. }
  exists m. split_and!; [done|done|done|]. intros j Hj.
  specialize (Hlanes j Hj).
  destruct (Hbody j m Hj Hwf) as (v & Hg & _). rewrite Hg in *.
  by apply mask_get_b2z.
Qed.

Lemma truth_b2z (b : bool) : truth (Z.b2z b) = b.
Proof. by destruct b. Qed.

Lemma mask_get_truth (m : Mask.t) i :
  Mask.get m i = truth <$> load (Mask.d m) i.
Proof. unfold Mask.get. by destruct (load (Mask.d m) i). Qed.

(** The loop of [mask_fill] returns the mask whose lanes are listed in [l]
    as soon as [l] holds what the loop stores. *)
Lemma mask_fill_eq (n : Z) (g : Z → option bool)
    (body : Z → Mask.t → option Mask.t) (raw l : list Z) :
  Z.of_nat (length raw) = n → Z.of_nat (length l) = n →
  (∀ i m, 0 ≤ i < n → Mask.wf n m →
     ∃ v, g i = Some v ∧ body i m = Mask.set m i v) →
  (∀ j, 0 ≤ j < n → load l j = Z.b2z <$> g j) →
  for_loop 0 n body (Mask.default raw) = Some (Mask.mk l).
Proof.
  intros Hraw Hl Hbody Hlanes.
  destruct (mask_fill n g body raw Hraw Hbody) as (m & -> & Hwf & Hm & _).
  f_equal. apply (mask_ext n); [done|done|].
  intros j Hj. simpl. by rewrite Hm, Hlanes.
Qed.

Lemma load_fmap {A B : Type} (f : A → B) (l : list A) i :
  load (f <$> l) i = f <$> load l i.
Proof. unfold load. case_decide; [|done]. apply list_lookup_fmap. Qed.

Lemma load_zip_with {A B C : Type} (f : A → B → C) (l : list A)
    (k : list B) i :
  load (zip_with f l k) i = (x ← load l i; y ← load k i; Some (f x y)).
Proof. unfold load. case_decide; [|done]. apply lookup_zip_with. Qed.

Lemma load_replicate {A : Type} (k : nat) (x : A) i :
  0 ≤ i < Z.of_nat k → load (replicate k x) i = Some x.
Proof.
  intros Hi. unfold load. case_decide; [|lia].
  apply lookup_replicate_2. lia.
Qed.

Section MaskOperatorFacts.
Variable n : Z.
Implicit Types (a m : Mask.t) (raw : list Z).

Lemma mask_load_in_range m i :
  Mask.wf n m → 0 ≤ i < n → is_Some (load (Mask.d m) i).
Proof. intros <- Hi. by apply load_in_range. Qed.

Lemma operator_not_eq raw m :
  Z.of_nat (length raw) = n → Mask.wf n m →
  operator_not n raw m = Some (Mask.mk (lane_not <$> Mask.d m)).
Proof.
  intros Hraw Hm. unfold operator_not.
  apply (mask_fill_eq n (λ i, x ← Mask.get m i; Some (negb x))); [done| | |].
  - rewrite length_fmap. done.
  - intros i m' Hi _.
    destruct (mask_get_in_range n m i Hm Hi) as [x ->]. simpl. eauto.
  - intros j Hj. rewrite load_fmap, mask_get_truth.
    by destruct (load (Mask.d m) j).
Qed.

Lemma mask_bin_op_mm_eq (op : logic_op) raw a (b : Mask.t) :
  Z.of_nat (length raw) = n → Mask.wf n a → Mask.wf n b →
  ekat_mask_gen_bin_op_mm n op raw a b
  = Some (Mask.mk (zip_with (lane_bin op) (Mask.d a) (Mask.d b))).
Proof.
  intros Hraw Ha Hb. unfold ekat_mask_gen_bin_op_mm.
  apply (mask_fill_eq n
    (λ i, x ← Mask.get a i; logic_eval op x (Mask.get b i))); [done| | |].
  - rewrite length_zip_with. unfold Mask.wf in *. lia.
  - intros i m' Hi _.
    destruct (mask_get_in_range n a i Ha Hi) as [x ->].
    destruct (mask_get_in_range n b i Hb Hi) as [y ->]. simpl.
    destruct op, x; simpl; eauto.
  - intros j Hj. rewrite load_zip_with, !mask_get_truth.
    destruct (mask_load_in_range a j Ha Hj) as [x ->].
    destruct (mask_load_in_range b j Hb Hj) as [y ->]. simpl.
    unfold lane_bin. by destruct op, (truth x), (truth y).
Qed.

Lemma mask_bin_op_mb_eq (op : logic_op) raw a (b : bool) :
  Z.of_nat (length raw) = n → Mask.wf n a →
  ekat_mask_gen_bin_op_mb n op raw a b
  = Some (Mask.mk ((λ x, lane_bin op x (Z.b2z b)) <$> Mask.d a)).
Proof.
  intros Hraw Ha. unfold ekat_mask_gen_bin_op_mb.
  apply (mask_fill_eq n
    (λ i, x ← Mask.get a i; logic_eval op x (Some b))); [done| | |].
  - by rewrite length_fmap.
  - intros i m' Hi _.
    destruct (mask_get_in_range n a i Ha Hi) as [x ->]. simpl.
    destruct op, x; simpl; eauto.
  - intros j Hj. rewrite load_fmap, !mask_get_truth.
    destruct (mask_load_in_range a j Ha Hj) as [x ->]. simpl.
    unfold lane_bin. rewrite truth_b2z. by destruct op, (truth x), b.
Qed.

Lemma mask_broadcast_eq raw (init : bool) :
  Z.of_nat (length raw) = n →
  Mask.broadcast n raw init
  = Some (Mask.mk (replicate (Z.to_nat n) (Z.b2z init))).
Proof.
  intros Hraw. unfold Mask.broadcast.
  apply (mask_fill_eq n (λ _, Some init) _ raw); [done| | |].
  - rewrite length_replicate. lia.
  - eauto.
  - intros j Hj. simpl. apply load_replicate. lia.
Qed.

Lemma foldl_any_existsb (l : list Z) (b0 : bool) :
  foldl (λ b x, if negb (x =? 0) then true else b) b0 l
  = b0 || existsb truth l.
Proof.
  revert b0. induction l as [|x l IH]; intros b0; simpl.
  - by rewrite orb_false_r.
  - rewrite IH. unfold truth. by destruct (negb (x =? 0)), b0.
Qed.

Lemma foldl_all_forallb (l : list Z) (b0 : bool) :
  foldl (λ b x, if negb (negb (x =? 0)) then false else b) b0 l
  = b0 && forallb truth l.
Proof.
  revert b0. induction l as [|x l IH]; intros b0; simpl.
  - by rewrite andb_true_r.
  - rewrite IH. unfold truth. by destruct (negb (x =? 0)), b0.
Qed.

Lemma mask_any_eq m :
  Mask.wf n m → Mask.any n m = Some (existsb truth (Mask.d m)).
Proof.
  intros Hm. unfold Mask.any.
  rewrite (for_loop_fold (Mask.d m)
    (λ b x, if negb (x =? 0) then true else b)); [|done|].
  - by rewrite foldl_any_existsb.
  - intros k b x Hx. by rewrite load_of_nat, Hx.
Qed.

Lemma mask_all_eq m :
  Mask.wf n m → Mask.all n m = Some (forallb truth (Mask.d m)).
Proof.
  intros Hm. unfold Mask.all.
  rewrite (for_loop_fold (Mask.d m)
    (λ b x, if negb (negb (x =? 0)) then false else b)); [|done|].
  - by rewrite foldl_all_forallb.
  - intros k b x Hx. by rewrite load_of_nat, Hx.
Qed.

Lemma mask_none_eq m :
  Mask.wf n m → Mask.none n m = Some (negb (existsb truth (Mask.d m))).
Proof. intros Hm. unfold Mask.none. by rewrite mask_any_eq. Qed.
End MaskOperatorFacts.

(** ** Mask: lane access, broadcast and the logical operators *)

Lemma existsb_replicate (k : nat) (b : bool) :
  (0 < k)%nat → existsb truth (replicate k (Z.b2z b)) = b.
Proof.
  intros Hk. destruct k as [|k]; [lia|]. simpl. rewrite truth_b2z.
  destruct b; [done|]. simpl. clear Hk. by induction k.
Qed.

Lemma forallb_replicate (k : nat) (b : bool) :
  (0 < k)%nat → forallb truth (replicate k (Z.b2z b)) = b.
Proof.
  intros Hk. destruct k as [|k]; [lia|]. simpl. rewrite truth_b2z.
  destruct b; [|done]. simpl. clear Hk. by induction k.
Qed.

Lemma existsb_lane_not (l : list Z) :
  existsb truth (lane_not <$> l) = negb (forallb truth l).
Proof.
  induction l as [|x l IH]; [done|]. csimpl. rewrite IH.
  unfold lane_not. rewrite truth_b2z. by destruct (truth x).
Qed.

Lemma forallb_lane_not (l : list Z) :
  forallb truth (lane_not <$> l) = negb (existsb truth l).
Proof.
  induction l as [|x l IH]; [done|]. csimpl. rewrite IH.
  unfold lane_not. rewrite truth_b2z. by destruct (truth x).
Qed.

Lemma existsb_lane_or (la lb : list Z) :
  length la = length lb →
  existsb truth (zip_with (lane_bin OpOr) la lb)
  = existsb truth la || existsb truth lb.
Proof.
  revert lb. induction la as [|x la IH]; intros [|y lb] Hlen;
    simplify_eq/=; [done|].
  rewrite IH by done. unfold lane_bin. rewrite truth_b2z.
  destruct (truth x), (truth y); simpl; try done.
  by rewrite orb_true_r.
Qed.

Lemma forallb_lane_and (la lb : list Z) :
  length la = length lb →
  forallb truth (zip_with (lane_bin OpAnd) la lb)
  = forallb truth la && forallb truth lb.
Proof.
  revert lb. induction la as [|x la IH]; intros [|y lb] Hlen;
    simplify_eq/=; [done|].
  rewrite IH by done. unfold lane_bin. rewrite truth_b2z.
  destruct (truth x), (truth y); simpl; try done.
  by rewrite andb_false_r.
Qed.

(** X1. Writing a mask lane and reading it back: for an index inside the
    mask, [set] succeeds, keeps the number of lanes, the lane then reads as
    the value written and every other lane reads as before. For an index
    outside, both [set] and [operator[]] are undefined. *)
Theorem mask_set_get (n : Z) (m : Mask.t) (i : Z) (v : bool) :
  Mask.wf n m →
  (0 ≤ i < n →
   ∃ m', Mask.set m i v = Some m' ∧ Mask.wf n m' ∧
     Mask.get m' i = Some v ∧
     ∀ j, j ≠ i → Mask.get m' j = Mask.get m j) ∧
  (¬ 0 ≤ i < n → Mask.set m i v = None ∧ Mask.get m i = None).
Proof.
  intros Hm. split.
  - intros Hi. unfold Mask.set, Mask.get.
    destruct (store_in_range (Mask.d m) i (Z.b2z v)) as [d' Hst].
    { unfold Mask.wf in Hm. lia. }
    rewrite Hst. simpl. exists (Mask.mk d'). simpl. split_and!; [done| | |].
    + unfold Mask.wf. simpl. by rewrite (store_length _ _ _ _ Hst).
    + rewrite (load_store _ _ i _ _ Hst). case_decide; [|done]. simpl.
      by destruct v.
    + intros j Hj. rewrite (load_store _ _ j _ _ Hst). by case_decide.
  - intros Hi. unfold Mask.set, Mask.get, store, load.
    unfold Mask.wf in Hm. case_decide; [lia|]. split; [done|].
    case_decide; [|done].
    rewrite (proj2 (lookup_ge_None _ _)); [done|lia].
Qed.

(** X2. [Mask(init)] gives every lane the value [init]; on a mask with at
    least one lane, [any()] and [all()] then both return [init] and [none()]
    returns its negation. *)
Theorem mask_broadcast_queries (n : Z) (raw : list Z) (init : bool) :
  Z.of_nat (length raw) = n →
  ∃ m, Mask.broadcast n raw init = Some m ∧ Mask.wf n m ∧
    (∀ j, 0 ≤ j < n → Mask.get m j = Some init) ∧
    (0 < n → Mask.any n m = Some init ∧ Mask.all n m = Some init ∧
             Mask.none n m = Some (negb init)).
Proof.
  intros Hraw. rewrite (mask_broadcast_eq n raw init Hraw).
  assert (Hwf : Mask.wf n (Mask.mk (replicate (Z.to_nat n) (Z.b2z init)))).
  { unfold Mask.wf. simpl. rewrite length_replicate. lia. }
  eexists. split_and!; [done|done| |].
  - intros j Hj. rewrite mask_get_truth. simpl.
    rewrite load_replicate by lia. simpl. by rewrite truth_b2z.
  - intros Hn. rewrite mask_any_eq, mask_all_eq, mask_none_eq by done.
    simpl. by rewrite existsb_replicate, forallb_replicate by lia.
Qed.

(** X3. [!m] negates every lane, so its queries are those of [m] turned
    around: [(!m).any()] is the negation of [m.all()], [(!m).all()] is
    [m.none()] and [(!m).none()] is [m.all()]. *)
Theorem mask_not_queries (n : Z) (raw : list Z) (m : Mask.t) :
  Z.of_nat (length raw) = n → Mask.wf n m →
  ∃ r, operator_not n raw m = Some r ∧ Mask.wf n r ∧
    (∀ j, 0 ≤ j < n → Mask.get r j = negb <$> Mask.get m j) ∧
    Mask.any n r = negb <$> Mask.all n m ∧
    Mask.all n r = Mask.none n m ∧
    Mask.none n r = Mask.all n m.
Proof.
  intros Hraw Hm. rewrite (operator_not_eq n raw m Hraw Hm).
  assert (Hwf : Mask.wf n (Mask.mk (lane_not <$> Mask.d m))).
  { unfold Mask.wf. simpl. by rewrite length_fmap. }
  eexists. split_and!; [done|done| | | |].
  - intros j Hj. rewrite !mask_get_truth. simpl. rewrite load_fmap.
    destruct (load (Mask.d m) j) as [x|]; [|done]. simpl.
    unfold lane_not. by rewrite truth_b2z.
  - rewrite mask_any_eq, mask_all_eq by done. simpl.
    by rewrite existsb_lane_not.
  - rewrite mask_all_eq, mask_none_eq by done. simpl.
    by rewrite forallb_lane_not.
  - rewrite mask_none_eq, mask_all_eq by done. simpl.
    by rewrite existsb_lane_not, negb_involutive.
Qed.

(** X4. Negating a mask twice gives back its truth values lane by lane. The
    lanes themselves come back as 0 or 1: a lane holding 0 stays 0 and a
    lane holding any other value becomes 1. So the mask itself comes back
    when its lanes hold only 0 or 1 (as the lanes of every mask built by a
    constructor or an operator do). *)
Theorem mask_double_negation (n : Z) (raw1 raw2 : list Z) (m : Mask.t) :
  Z.of_nat (length raw1) = n → Z.of_nat (length raw2) = n → Mask.wf n m →
  ∃ r, (x ← operator_not n raw1 m; operator_not n raw2 x) = Some r ∧
    Mask.wf n r ∧
    (∀ j, Mask.get r j = Mask.get m j) ∧
    Mask.d r = (λ x, if decide (x = 0) then 0 else 1) <$> Mask.d m ∧
    ((∀ x, x ∈ Mask.d m → x = 0 ∨ x = 1) → r = m).
Proof.
  intros Hraw1 Hraw2 Hm. rewrite (operator_not_eq n raw1 m Hraw1 Hm). simpl.
  assert (Hwf : Mask.wf n (Mask.mk (lane_not <$> Mask.d m))).
  { unfold Mask.wf. simpl. by rewrite length_fmap. }
  rewrite (operator_not_eq n raw2 _ Hraw2 Hwf). simpl.
  eexists. split_and!; [done| | | |].
  - unfold Mask.wf. simpl. by rewrite !length_fmap.
  - intros j. rewrite !mask_get_truth. simpl. rewrite !load_fmap.
    destruct (load (Mask.d m) j) as [x|]; [|done]. simpl.
    unfold lane_not. by rewrite !truth_b2z, negb_involutive.
  - simpl. rewrite <-list_fmap_compose. apply list_fmap_ext.
    intros k x _. simpl. unfold lane_not. rewrite truth_b2z, negb_involutive.
    unfold truth. case_decide as Hx.
    + by subst x.
    + by destruct (Z.eqb_spec x 0).
  - intros Hcanon. destruct m as [l]. simpl in *. f_equal.
    rewrite <-list_fmap_compose. rewrite <-(list_fmap_id l) at 2.
    apply list_fmap_ext. intros k x Hx. simpl.
    by destruct (Hcanon x (list_elem_of_lookup_2 _ _ _ Hx)) as [->| ->].
Qed.

(** X5. De Morgan on masks: [!(a && b)] is the same mask as [!a || !b] and
    [!(a || b)] the same as [!a && !b], whatever the temporaries held. *)
Theorem mask_de_morgan (n : Z) (raw1 raw2 raw3 raw4 raw5 : list Z)
    (a b : Mask.t) :
  Z.of_nat (length raw1) = n → Z.of_nat (length raw2) = n →
  Z.of_nat (length raw3) = n → Z.of_nat (length raw4) = n →
  Z.of_nat (length raw5) = n →
  Mask.wf n a → Mask.wf n b →
  is_Some (x ← ekat_mask_gen_bin_op_mm n OpAnd raw1 a b;
           operator_not n raw2 x) ∧
  (x ← ekat_mask_gen_bin_op_mm n OpAnd raw1 a b; operator_not n raw2 x)
  = (na ← operator_not n raw3 a; nb ← operator_not n raw4 b;
     ekat_mask_gen_bin_op_mm n OpOr raw5 na nb) ∧
  (x ← ekat_mask_gen_bin_op_mm n OpOr raw1 a b; operator_not n raw2 x)
  = (na ← operator_not n raw3 a; nb ← operator_not n raw4 b;
     ekat_mask_gen_bin_op_mm n OpAnd raw5 na nb).
Proof.
  intros H1 H2 H3 H4 H5 Ha Hb.
  assert (Hna : Mask.wf n (Mask.mk (lane_not <$> Mask.d a))).
  { unfold Mask.wf. simpl. by rewrite length_fmap. }
  assert (Hnb : Mask.wf n (Mask.mk (lane_not <$> Mask.d b))).
  { unfold Mask.wf. simpl. by rewrite length_fmap. }
  assert (Hbin : ∀ op,
    Mask.wf n (Mask.mk (zip_with (lane_bin op) (Mask.d a) (Mask.d b)))).
  { intros op. unfold Mask.wf in *. simpl. rewrite length_zip_with. lia. }
  rewrite !(mask_bin_op_mm_eq n _ raw1 a b H1 Ha Hb). simpl.
  rewrite !(operator_not_eq n raw2 _ H2 (Hbin _)).
  rewrite (operator_not_eq n raw3 a H3 Ha). simpl.
  rewrite (operator_not_eq n raw4 b H4 Hb). simpl.
  rewrite !(mask_bin_op_mm_eq n _ raw5 _ _ H5 Hna Hnb). simpl.
  assert (Hlanes : ∀ op op' la lb,
    (∀ x y, lane_not (lane_bin op x y)
            = lane_bin op' (lane_not x) (lane_not y)) →
    lane_not <$> zip_with (lane_bin op) la lb
    = zip_with (lane_bin op') (lane_not <$> la) (lane_not <$> lb)).
  { intros op op' la lb Hpt. revert lb.
    induction la as [|x la IH]; intros [|y lb]; csimpl; [done..|].
    by rewrite Hpt, IH. }
  split_and!; [done| |]; do 2 f_equal; apply Hlanes; intros x y;
    unfold lane_bin, lane_not; rewrite !truth_b2z;
    by destruct (truth x), (truth y).
Qed.

(** X6. The queries distribute over the operators: [(a || b).any()] is
    [a.any() || b.any()] and [(a && b).all()] is [a.all() && b.all()]. *)
Theorem mask_any_all_distribute (n : Z) (raw : list Z) (a b : Mask.t) :
  Z.of_nat (length raw) = n → Mask.wf n a → Mask.wf n b →
  (r ← ekat_mask_gen_bin_op_mm n OpOr raw a b; Mask.any n r)
  = (x ← Mask.any n a; y ← Mask.any n b; Some (x || y)) ∧
  (r ← ekat_mask_gen_bin_op_mm n OpAnd raw a b; Mask.all n r)
  = (x ← Mask.all n a; y ← Mask.all n b; Some (x && y)) ∧
  is_Some (r ← ekat_mask_gen_bin_op_mm n OpOr raw a b; Mask.any n r).
Proof.
  intros Hraw Ha Hb.
  assert (Hbin : ∀ op,
    Mask.wf n (Mask.mk (zip_with (lane_bin op) (Mask.d a) (Mask.d b)))).
  { intros op. unfold Mask.wf in *. simpl. rewrite length_zip_with. lia. }
  rewrite !(mask_bin_op_mm_eq n _ raw a b Hraw Ha Hb). simpl.
  rewrite !mask_any_eq, !mask_all_eq by done. simpl.
  assert (length (Mask.d a) = length (Mask.d b)) as Hlen
    by (unfold Mask.wf in *; lia).
  by rewrite existsb_lane_or, forallb_lane_and.
Qed.

(** X7. The [Mask op bool] overloads behave as [Mask op Mask] applied to the
    broadcast of the boolean; [false] absorbs [&&] and [true] absorbs [||]
    (the result is the broadcast mask), while [m && true] and [m || false]
    keep the truth value of every lane of [m]. *)
Theorem mask_bool_operand (n : Z) (raw raw' : list Z) (op : logic_op)
    (a : Mask.t) (b : bool) :
  Z.of_nat (length raw) = n → Z.of_nat (length raw') = n → Mask.wf n a →
  ekat_mask_gen_bin_op_mb n op raw a b
  = (mb ← Mask.broadcast n raw' b; ekat_mask_gen_bin_op_mm n op raw a mb) ∧
  ekat_mask_gen_bin_op_mb n OpAnd raw a false = Mask.broadcast n raw' false ∧
  ekat_mask_gen_bin_op_mb n OpOr raw a true = Mask.broadcast n raw' true ∧
  ∃ r1 r2,
    ekat_mask_gen_bin_op_mb n OpAnd raw a true = Some r1 ∧
    ekat_mask_gen_bin_op_mb n OpOr raw a false = Some r2 ∧
    ∀ j, Mask.get r1 j = Mask.get a j ∧ Mask.get r2 j = Mask.get a j.
Proof.
  intros Hraw Hraw' Ha.
  assert (Hrep : ∀ c : bool,
    Mask.wf n (Mask.mk (replicate (Z.to_nat n) (Z.b2z c)))).
  { intros c. unfold Mask.wf. simpl. rewrite length_replicate. lia. }
  rewrite !(mask_bin_op_mb_eq n _ raw a _ Hraw Ha).
  rewrite !(mask_broadcast_eq n raw' _ Hraw'). simpl.
  rewrite (mask_bin_op_mm_eq n op raw a _ Hraw Ha (Hrep b)). simpl.
  assert (Hzip : ∀ (f : Z → Z → Z) (l : list Z) (k : nat) (y : Z),
    length l = k → zip_with f l (replicate k y) = (λ x, f x y) <$> l).
  { intros f l. induction l as [|x l IH]; intros [|k] y Hk;
      simplify_eq/=; [done|]. by rewrite IH. }
  assert (Hconst : ∀ (c : Z) (l : list Z),
    (λ _, c) <$> l = replicate (length l) c).
  { intros c l. induction l as [|x l IH]; [done|]. csimpl. by rewrite IH. }
  assert (Hlen : length (Mask.d a) = Z.to_nat n)
    by (unfold Mask.wf in Ha; lia).
  split_and!.
  - do 2 f_equal. by rewrite Hzip.
  - do 2 f_equal. rewrite <-Hlen, <-Hconst. apply list_fmap_ext.
    intros k x _. unfold lane_bin. by rewrite andb_false_r.
  - do 2 f_equal. rewrite <-Hlen, <-Hconst. apply list_fmap_ext.
    intros k x _. unfold lane_bin. by rewrite orb_true_r.
  - eexists _, _. split_and!; [done|done|]. intros j.
    rewrite !mask_get_truth. simpl. rewrite !load_fmap.
    destruct (load (Mask.d a) j) as [x|]; [|done]. simpl.
    unfold lane_bin. rewrite !truth_b2z. simpl.
    by rewrite andb_true_r, orb_false_r.
Qed.

(** ** Packs by their lanes *)

Section LaneFacts.
Context {T : Type} `{!ScalarTraits T} `{!ScalarOps T}.
Variable n : Z.
Implicit Types (p q a : Pack.t T) (raw : list T) (f g : Z → option T).

Lemma returns_lanes_eq (o1 o2 : option (Pack.t T)) f g :
  returns_lanes n o1 f → returns_lanes n o2 g →
  (∀ j, 0 ≤ j < n → f j = g j) → o1 = o2.
Proof.
  intros (r1 & -> & Hwf1 & H1) (r2 & -> & Hwf2 & H2) Hfg. f_equal.
  apply (pack_ext n); [done|done|]. intros j Hj.
  by rewrite H1, H2, Hfg.
Qed.

Lemma returns_lanes_Some (o : option (Pack.t T)) f p :
  returns_lanes n o f → Pack.wf n p →
  (∀ j, 0 ≤ j < n → f j = Pack.get p j) → o = Some p.
Proof.
  intros (r & -> & Hwf & Hr) Hp Hf. f_equal.
  apply (pack_ext n); [done|done|]. intros j Hj. by rewrite Hr, Hf.
Qed.

Lemma returns_lanes_ext (o : option (Pack.t T)) f g :
  returns_lanes n o f → (∀ j, 0 ≤ j < n → f j = g j) → returns_lanes n o g.
Proof.
  intros (r & -> & Hwf & Hr) Hfg. exists r. split_and!; [done|done|].
  intros j Hj. by rewrite Hr, Hfg.
Qed.

Lemma returns_lanes_self p :
  Pack.wf n p → returns_lanes n (Some p) (Pack.get p).
Proof. intros Hp. by exists p. Qed.

(** Binding a call on the pack a first call returned. *)
Lemma returns_lanes_bind (o : option (Pack.t T)) f
    (k : Pack.t T → option (Pack.t T)) g :
  returns_lanes n o f →
  (∀ r, Pack.wf n r → (∀ j, 0 ≤ j < n → Pack.get r j = f j) →
        returns_lanes n (k r) g) →
  returns_lanes n (o ≫= k) g.
Proof. intros (r & -> & Hwf & Hr) Hk. simpl. by apply Hk. Qed.

(** A loop that stores [f i] into lane [i] of the pack it is given. *)
Lemma fill_lanes f (body : Z → Pack.t T → option (Pack.t T)) p :
  Pack.wf n p →
  (∀ i q, 0 ≤ i < n → Pack.wf n q →
     ∃ v, f i = Some v ∧ body i q = Pack.put q i v) →
  returns_lanes n (for_loop 0 n body p) f.
Proof. intros Hp Hbody. by apply for_loop_fill. Qed.

(** The same on a pack declared just before: [PackType s; for ...]. *)
Lemma fresh_fill_lanes f (body : Z → Pack.t T → option (Pack.t T)) raw :
  Z.of_nat (length raw) = n →
  (∀ i q, 0 ≤ i < n → Pack.wf n q →
     ∃ v, f i = Some v ∧ body i q = Pack.put q i v) →
  returns_lanes n (s ← Pack.default n raw; for_loop 0 n body s) f.
Proof.
  intros Hraw Hbody.
  destruct (default_lanes n raw Hraw) as (s & -> & Hwf & _). simpl.
  by apply fill_lanes.
Qed.

(** A loop that replaces lane [i], holding [x], by [u i x]. *)
Lemma update_lanes (u : Z → T → option T)
    (body : Z → Pack.t T → option (Pack.t T)) p :
  Pack.wf n p →
  (∀ i q x, 0 ≤ i < n → Pack.wf n q → Pack.get q i = Some x →
     ∃ v, u i x = Some v ∧ body i q = Pack.put q i v) →
  returns_lanes n (for_loop 0 n body p) (λ j, x ← Pack.get p j; u j x).
Proof.
  intros Hp Hbody.
  destruct (for_loop_lanewise n (λ i x v, u i x = Some v) body 0 n p)
    as (r & Hr & Hwf & Hlanes); [lia|lia|done| |].
  { intros i q x Hi Hq Hx.
    destruct (Hbody i q x Hi Hq Hx) as (v & Hu & Hb). eauto. }
  exists r. split_and!; [done|done|]. intros j Hj.
  destruct (get_in_range n p j Hp Hj) as [x Hx].
  destruct (Hlanes j x Hx) as (v & Hv & Hrel).
  case_decide; [|lia]. rewrite Hx. simpl. congruence.
Qed.

Lemma default_returns raw :
  Z.of_nat (length raw) = n →
  returns_lanes n (Pack.default n raw) (λ _, Some invalid).
Proof. apply default_lanes. Qed.

Lemma broadcast_returns raw (v : T) :
  Z.of_nat (length raw) = n →
  returns_lanes n (Pack.broadcast n raw v) (λ _, Some v).
Proof. apply broadcast_lanes. Qed.

Lemma from_pack_returns raw p :
  Z.of_nat (length raw) = n → Pack.wf n p →
  returns_lanes n (Pack.from_pack n raw p) (Pack.get p).
Proof.
  intros Hraw Hp. apply fill_lanes; [done|]. intros i q Hi _.
  destruct (get_in_range n p i Hp Hi) as [x Hx]. rewrite Hx. simpl. eauto.
Qed.

Lemma masked_returns raw (m : Mask.t) p :
  Z.of_nat (length raw) = n → Mask.wf n m → Pack.wf n p →
  returns_lanes n (Pack.masked n raw m p)
    (λ j, b ← Mask.get m j; if b : bool then Pack.get p j else Some invalid).
Proof.
  intros Hraw Hm Hp. apply fill_lanes; [done|]. intros i q Hi _.
  destruct (mask_get_in_range n m i Hm Hi) as [b ->].
  destruct (get_in_range n p i Hp Hi) as [x ->].
  destruct b; simpl; eauto.
Qed.

Lemma set_returns q (m : Mask.t) p :
  Mask.wf n m → Pack.wf n p → Pack.wf n q →
  returns_lanes n (Pack.set n q m p)
    (λ j, b ← Mask.get m j; if b : bool then Pack.get p j else Pack.get q j).
Proof.
  intros Hm Hp Hq.
  eapply returns_lanes_ext.
  - apply (update_lanes
      (λ i y, b ← Mask.get m i; if b : bool then Pack.get p i else Some y));
      [done|].
    intros i q' y Hi _ Hy.
    destruct (mask_get_in_range n m i Hm Hi) as [b ->].
    destruct (get_in_range n p i Hp Hi) as [x ->].
    destruct b; simpl; [eauto|]. exists y. by rewrite put_same.
  - intros j Hj. simpl.
    destruct (get_in_range n q j Hq Hj) as [y ->]. done.
Qed.

Lemma set_scalar_returns q (m : Mask.t) (v : T) :
  Mask.wf n m → Pack.wf n q →
  returns_lanes n (Pack.set_scalar n q m v)
    (λ j, b ← Mask.get m j; if b : bool then Some v else Pack.get q j).
Proof.
  intros Hm Hq.
  eapply returns_lanes_ext.
  - apply (update_lanes
      (λ i y, b ← Mask.get m i; if b : bool then Some v else Some y));
      [done|].
    intros i q' y Hi _ Hy.
    destruct (mask_get_in_range n m i Hm Hi) as [b ->].
    destruct b; simpl; [eauto|]. exists y. by rewrite put_same.
  - intros j Hj. simpl.
    destruct (get_in_range n q j Hq Hj) as [y ->]. done.
Qed.

(** Lanes that may be undefined. *)
Lemma lanes_defined_or_not f :
  (∀ j, 0 ≤ j < n → is_Some (f j)) ∨ (∃ j, 0 ≤ j < n ∧ f j = None).
Proof.
  destruct (Forall_Exists_dec (λ j, is_Some (f j)) (λ j, f j = None)
              (λ j, match f j as o return {is_Some o} + {o = None} with
                    | Some v => left (ex_intro _ v eq_refl)
                    | None => right eq_refl
                    end) (seqZ 0 n)) as [Hall|Hex].
  - left. intros j Hj. apply (proj1 (Forall_forall _ _) Hall).
    apply elem_of_seqZ. lia.
  - right. apply Exists_exists in Hex as (j & Hj%elem_of_seqZ & Hnone).
    exists j. split; [lia|done].
Qed.

Lemma computes_lanes_eq (o1 o2 : option (Pack.t T)) f g :
  computes_lanes n o1 f → computes_lanes n o2 g →
  (∀ j, 0 ≤ j < n → f j = g j) → o1 = o2.
Proof.
  intros [Hdef1 Hundef1] Hg Hfg.
  destruct (computes_lanes_ext n o2 g f Hg) as [Hdef2 Hundef2].
  { intros j Hj. by rewrite Hfg. }
  destruct (lanes_defined_or_not f) as [Hall|Hex].
  - by eapply returns_lanes_eq; [apply Hdef1|apply Hdef2|].
  - by rewrite Hundef1, Hundef2.
Qed.

Lemma returns_computes (o : option (Pack.t T)) f :
  returns_lanes n o f → computes_lanes n o f.
Proof.
  intros (r & -> & Hwf & Hr). split.
  - intros _. by exists r.
  - intros (j & Hj & Hnone). rewrite <-(Hr j Hj) in Hnone.
    destruct (get_in_range n r j Hwf Hj) as [x Hx]. congruence.
Qed.

Lemma computes_lanes_bind (o : option (Pack.t T)) f
    (k : Pack.t T → option (Pack.t T)) g :
  returns_lanes n o f →
  (∀ r, Pack.wf n r → (∀ j, 0 ≤ j < n → Pack.get r j = f j) →
        computes_lanes n (k r) g) →
  computes_lanes n (o ≫= k) g.
Proof. intros (r & -> & Hwf & Hr) Hk. simpl. by apply Hk. Qed.

(** The arithmetic operators: lane [j] is the scalar operator applied to
    lane [j] of the operands, and defined when that is. *)
Lemma bin_op_pp_computes (op : arith_op) raw a (b : Pack.t T) :
  Z.of_nat (length raw) = n → Pack.wf n a → Pack.wf n b →
  computes_lanes n (ekat_pack_gen_bin_op_pp n op raw a b)
    (λ j, x ← Pack.get a j; y ← Pack.get b j; scalar_op op x y).
Proof.
  intros Hraw Ha Hb. apply fresh_compute; [done|]. intros i q Hi _.
  destruct (get_in_range n a i Ha Hi) as [x ->].
  by destruct (get_in_range n b i Hb Hi) as [y ->].
Qed.

Lemma bin_op_ps_computes (op : arith_op) raw a (s : T) :
  Z.of_nat (length raw) = n → Pack.wf n a →
  computes_lanes n (ekat_pack_gen_bin_op_ps n op raw a s)
    (λ j, x ← Pack.get a j; scalar_op op x s).
Proof.
  intros Hraw Ha. apply fresh_compute; [done|]. intros i q Hi _.
  by destruct (get_in_range n a i Ha Hi) as [x ->].
Qed.

Lemma bin_op_sp_computes (op : arith_op) raw (s : T) (b : Pack.t T) :
  Z.of_nat (length raw) = n → Pack.wf n b →
  computes_lanes n (ekat_pack_gen_bin_op_sp n op raw s b)
    (λ j, y ← Pack.get b j; scalar_op op s y).
Proof.
  intros Hraw Hb. apply fresh_compute; [done|]. intros i q Hi _.
  by destruct (get_in_range n b i Hb Hi) as [y ->].
Qed.

(** [+ - *] are defined in every lane. *)
Lemma scalar_op_total (op : arith_op) (x y : T) :
  op ≠ OpDiv → is_Some (scalar_op op x y).
Proof. by destruct op; simpl; eauto. Qed.

Lemma bin_op_pp_returns (op : arith_op) raw a (b : Pack.t T) :
  op ≠ OpDiv →
  Z.of_nat (length raw) = n → Pack.wf n a → Pack.wf n b →
  returns_lanes n (ekat_pack_gen_bin_op_pp n op raw a b)
    (λ j, x ← Pack.get a j; y ← Pack.get b j; scalar_op op x y).
Proof.
  intros Hop Hraw Ha Hb. apply bin_op_pp_computes; [done..|]. intros j Hj.
  destruct (get_in_range n a j Ha Hj) as [x ->].
  destruct (get_in_range n b j Hb Hj) as [y ->]. simpl.
  by apply scalar_op_total.
Qed.

Lemma bin_op_ps_returns (op : arith_op) raw a (s : T) :
  op ≠ OpDiv →
  Z.of_nat (length raw) = n → Pack.wf n a →
  returns_lanes n (ekat_pack_gen_bin_op_ps n op raw a s)
    (λ j, x ← Pack.get a j; scalar_op op x s).
Proof.
  intros Hop Hraw Ha. apply bin_op_ps_computes; [done..|]. intros j Hj.
  destruct (get_in_range n a j Ha Hj) as [x ->]. simpl.
  by apply scalar_op_total.
Qed.

Lemma bin_op_sp_returns (op : arith_op) raw (s : T) (b : Pack.t T) :
  op ≠ OpDiv →
  Z.of_nat (length raw) = n → Pack.wf n b →
  returns_lanes n (ekat_pack_gen_bin_op_sp n op raw s b)
    (λ j, y ← Pack.get b j; scalar_op op s y).
Proof.
  intros Hop Hraw Hb. apply bin_op_sp_computes; [done..|]. intros j Hj.
  destruct (get_in_range n b j Hb Hj) as [y ->]. simpl.
  by apply scalar_op_total.
Qed.
End LaneFacts.

Section MoreLaneFacts.
Context {T : Type} `{!ScalarTraits T} `{!ScalarOps T} `{!ScalarCmp T}.
Variable n : Z.
Implicit Types (p q a : Pack.t T) (raw : list T).

Lemma assign_op_p_computes (aop : assign_op) q a :
  Pack.wf n q → Pack.wf n a →
  computes_lanes n (ekat_pack_gen_assign_op_p n aop q a)
    (λ j, match aop with
          | Assign => Pack.get a j
          | Compound op =>
              x ← Pack.get q j; y ← Pack.get a j; scalar_op op x y
          end).
Proof.
  intros Hq Ha. eapply computes_lanes_ext.
  - apply (for_loop_update n
      (λ i x, match aop with
              | Assign => Pack.get a i
              | Compound op => y ← Pack.get a i; scalar_op op x y
              end)); [done|].
    intros i q' x Hi _ Hx.
    destruct (get_in_range n a i Ha Hi) as [y Hy]. rewrite Hy.
    destruct aop as [|op]; simpl; [done|]. by rewrite Hx.
  - intros j Hj. simpl.
    destruct (get_in_range n q j Hq Hj) as [x ->]. by destruct aop.
Qed.

Lemma assign_op_s_computes (aop : assign_op) q (s : T) :
  Pack.wf n q →
  computes_lanes n (ekat_pack_gen_assign_op_s n aop q s)
    (λ j, match aop with
          | Assign => Some s
          | Compound op => x ← Pack.get q j; scalar_op op x s
          end).
Proof.
  intros Hq. eapply computes_lanes_ext.
  - apply (for_loop_update n
      (λ i x, match aop with
              | Assign => Some s
              | Compound op => scalar_op op x s
              end)); [done|].
    intros i q' x Hi _ Hx.
    destruct aop as [|op]; simpl; [done|]. by rewrite Hx.
  - intros j Hj. simpl.
    destruct (get_in_range n q j Hq Hj) as [x ->]. by destruct aop.
Qed.

Lemma unary_fn_returns (impl : T → T) raw p :
  Z.of_nat (length raw) = n → Pack.wf n p →
  returns_lanes n (ekat_pack_gen_unary_fn n impl raw p)
    (λ j, impl <$> Pack.get p j).
Proof.
  intros Hraw Hp. apply fresh_fill_lanes; [done|]. intros i q Hi _.
  destruct (get_in_range n p i Hp Hi) as [x ->]. simpl. eauto.
Qed.

Lemma unary_op_returns (neg : T → T) raw p :
  Z.of_nat (length raw) = n → Pack.wf n p →
  returns_lanes n (ekat_pack_gen_unary_op n neg raw p)
    (λ j, neg <$> Pack.get p j).
Proof. apply unary_fn_returns. Qed.

Lemma bin_fn_pp_returns (impl : T → T → T) raw a (b : Pack.t T) :
  Z.of_nat (length raw) = n → Pack.wf n a → Pack.wf n b →
  returns_lanes n (ekat_pack_gen_bin_fn_pp n impl raw a b)
    (λ j, x ← Pack.get a j; y ← Pack.get b j; Some (impl x y)).
Proof.
  intros Hraw Ha Hb. apply fresh_fill_lanes; [done|]. intros i q Hi _.
  destruct (get_in_range n a i Ha Hi) as [x ->].
  destruct (get_in_range n b i Hb Hi) as [y ->]. simpl. eauto.
Qed.

Lemma bin_fn_ps_returns (impl : T → T → T) raw a (s : T) :
  Z.of_nat (length raw) = n → Pack.wf n a →
  returns_lanes n (ekat_pack_gen_bin_fn_ps n impl raw a s)
    (λ j, x ← Pack.get a j; Some (impl x s)).
Proof.
  intros Hraw Ha. apply fresh_fill_lanes; [done|]. intros i q Hi _.
  destruct (get_in_range n a i Ha Hi) as [x ->]. simpl. eauto.
Qed.

Lemma bin_fn_sp_returns (impl : T → T → T) raw (s : T) (b : Pack.t T) :
  Z.of_nat (length raw) = n → Pack.wf n b →
  returns_lanes n (ekat_pack_gen_bin_fn_sp n impl raw s b)
    (λ j, y ← Pack.get b j; Some (impl s y)).
Proof.
  intros Hraw Hb. apply fresh_fill_lanes; [done|]. intros i q Hi _.
  destruct (get_in_range n b i Hb Hi) as [y ->]. simpl. eauto.
Qed.

Lemma square_returns raw a :
  Z.of_nat (length raw) = n → Pack.wf n a →
  returns_lanes n (square n raw a) (λ j, x ← Pack.get a j; Some (mul x x)).
Proof.
  intros Hraw Ha. apply fresh_fill_lanes; [done|]. intros i q Hi _.
  destruct (get_in_range n a i Ha Hi) as [x ->]. simpl. eauto.
Qed.

Lemma cube_returns raw a :
  Z.of_nat (length raw) = n → Pack.wf n a →
  returns_lanes n (cube n raw a)
    (λ j, x ← Pack.get a j; Some (mul (mul x x) x)).
Proof.
  intros Hraw Ha. apply fresh_fill_lanes; [done|]. intros i q Hi _.
  destruct (get_in_range n a i Ha Hi) as [x ->]. simpl. eauto.
Qed.

Lemma range_returns raw (start : T) :
  Z.of_nat (length raw) = n →
  returns_lanes n (range n raw start) (λ j, Some (add start (of_int j))).
Proof. intros Hraw. apply fresh_fill_lanes; [done|]. eauto. Qed.

Lemma shift_right_scalar_returns raw (s : T) p :
  0 < n → Z.of_nat (length raw) = n → Pack.wf n p →
  returns_lanes n (shift_right_scalar n raw s p)
    (λ j, if decide (j = 0) then Some s else Pack.get p (j - 1)).
Proof.
  intros Hn Hraw Hp. unfold shift_right_scalar.
  destruct (default_lanes n raw Hraw) as (q0 & -> & Hwf0 & _). simpl.
  destruct (put_in_range n q0 0 s Hwf0) as [q1 Hq1]; [lia|].
  rewrite Hq1. simpl.
  destruct (shift_right_loop n p q1 Hp (put_wf n _ _ _ _ Hwf0 Hq1))
    as (r & -> & Hwfr & Hr0 & Hri).
  exists r. split_and!; [done|done|]. intros j Hj. case_decide as Hj0.
  - subst j. rewrite (Hr0 Hn), (get_put _ _ 0 _ _ Hq1). by case_decide.
  - apply Hri. lia.
Qed.

Lemma shift_left_scalar_returns raw (s : T) p :
  0 < n → Z.of_nat (length raw) = n → Pack.wf n p →
  returns_lanes n (shift_left_scalar n raw s p)
    (λ j, if decide (j = n - 1) then Some s else Pack.get p (j + 1)).
Proof.
  intros Hn Hraw Hp. unfold shift_left_scalar.
  destruct (default_lanes n raw Hraw) as (q0 & -> & Hwf0 & _). simpl.
  destruct (put_in_range n q0 (n - 1) s Hwf0) as [q1 Hq1]; [lia|].
  rewrite Hq1. simpl.
  destruct (shift_left_loop n p q1 Hp (put_wf n _ _ _ _ Hwf0 Hq1))
    as (r & -> & Hwfr & Hr0 & Hri).
  exists r. split_and!; [done|done|]. intros j Hj. case_decide as Hj0.
  - subst j. rewrite (Hr0 Hn), (get_put _ _ (n - 1) _ _ Hq1). by case_decide.
  - apply Hri. lia.
Qed.

Lemma shift_right_returns raw (pm1 : Pack.t T) p :
  0 < n → Z.of_nat (length raw) = n → Pack.wf n pm1 → Pack.wf n p →
  returns_lanes n (shift_right n raw pm1 p)
    (λ j, if decide (j = 0) then Pack.get pm1 (n - 1)
          else Pack.get p (j - 1)).
Proof.
  intros Hn Hraw Hpm1 Hp.
  destruct (get_in_range n pm1 (n - 1) Hpm1) as [x Hx]; [lia|].
  destruct (shift_right_scalar_returns raw x p Hn Hraw Hp)
    as (r & Hr & Hwf & Hlanes).
  exists r. split_and!; [|done|].
  - revert Hr. unfold shift_right, shift_right_scalar.
    destruct (Pack.default n raw); simpl; [|done]. by rewrite Hx.
  - intros j Hj. rewrite (Hlanes j Hj), Hx. done.
Qed.

Lemma shift_left_returns raw (pp1 : Pack.t T) p :
  0 < n → Z.of_nat (length raw) = n → Pack.wf n pp1 → Pack.wf n p →
  returns_lanes n (shift_left n raw pp1 p)
    (λ j, if decide (j = n - 1) then Pack.get pp1 0
          else Pack.get p (j + 1)).
Proof.
  intros Hn Hraw Hpp1 Hp.
  destruct (get_in_range n pp1 0 Hpp1) as [x Hx]; [lia|].
  destruct (shift_left_scalar_returns raw x p Hn Hraw Hp)
    as (r & Hr & Hwf & Hlanes).
  exists r. split_and!; [|done|].
  - revert Hr. unfold shift_left, shift_left_scalar.
    destruct (Pack.default n raw); simpl; [|done]. by rewrite Hx.
  - intros j Hj. rewrite (Hlanes j Hj), Hx. done.
Qed.
End MoreLaneFacts.

(** ** Pack: lane access, constructors, [set] and assignments *)

Lemma broadcast_mask_get (n : Z) (b : bool) j :
  0 ≤ j < n →
  Mask.get (Mask.mk (replicate (Z.to_nat n) (Z.b2z b))) j = Some b.
Proof.
  intros Hj. rewrite mask_get_truth. simpl.
  rewrite load_replicate by lia. simpl. by rewrite truth_b2z.
Qed.

Lemma broadcast_mask_wf (n : Z) (b : bool) :
  0 ≤ n → Mask.wf n (Mask.mk (replicate (Z.to_nat n) (Z.b2z b))).
Proof. intros Hn. unfold Mask.wf. simpl. rewrite length_replicate. lia. Qed.

Lemma not_mask_get (m : Mask.t) j :
  Mask.get (Mask.mk (lane_not <$> Mask.d m)) j = negb <$> Mask.get m j.
Proof.
  rewrite !mask_get_truth. simpl. rewrite load_fmap.
  destruct (load (Mask.d m) j) as [x|]; [|done]. simpl.
  unfold lane_not. by rewrite truth_b2z.
Qed.

Lemma not_mask_wf (n : Z) (m : Mask.t) :
  Mask.wf n m → Mask.wf n (Mask.mk (lane_not <$> Mask.d m)).
Proof. unfold Mask.wf. simpl. by rewrite length_fmap. Qed.

Section PackExtras.
Context {T : Type} `{!ScalarTraits T} `{!ScalarOps T}.
Variable n : Z.
Implicit Types (p q a : Pack.t T) (raw : list T) (m : Mask.t).

(** X8. Writing a pack lane and reading it back: for an index inside the
    pack the write succeeds, keeps the number of lanes, the lane then reads
    as the value written and every other lane reads as before. For an index
    outside, both the write and the read are undefined: there is no bounds
    check and no growth. *)
Theorem pack_put_get p (i : Z) (v : T) :
  Pack.wf n p →
  (0 ≤ i < n →
   ∃ p', Pack.put p i v = Some p' ∧ Pack.wf n p' ∧
     Pack.get p' i = Some v ∧
     ∀ j, j ≠ i → Pack.get p' j = Pack.get p j) ∧
  (¬ 0 ≤ i < n → Pack.put p i v = None ∧ Pack.get p i = None).
Proof.
  intros Hp. split.
  - intros Hi. destruct (put_in_range n p i v Hp Hi) as [p' Hp'].
    exists p'. split_and!; [done|by eapply put_wf| |].
    + rewrite (get_put _ _ i _ _ Hp'). by case_decide.
    + intros j Hj. rewrite (get_put _ _ j _ _ Hp'). by case_decide.
  - intros Hi. unfold Pack.put, Pack.get, store, load.
    unfold Pack.wf in Hp. case_decide; [lia|]. split; [done|].
    case_decide; [|done].
    rewrite (proj2 (lookup_ge_None _ _)); [done|lia].
Qed.

(** X9. The pack-from-pack constructor returns a copy of its argument,
    whatever the storage held. *)
Theorem pack_copy_constructor raw p :
  Z.of_nat (length raw) = n → Pack.wf n p →
  Pack.from_pack n raw p = Some p.
Proof.
  intros Hraw Hp.
  eapply returns_lanes_Some; [by apply from_pack_returns|done|done].
Qed.

(** X10. The masked constructor is a default construction followed by
    [set]: [Pack(m, p)] is the pack that [Pack q; q.set(m, p)] leaves. *)
Theorem masked_is_default_then_set raw raw' m p :
  Z.of_nat (length raw) = n → Z.of_nat (length raw') = n →
  Mask.wf n m → Pack.wf n p →
  Pack.masked n raw m p = (q ← Pack.default n raw'; Pack.set n q m p) ∧
  is_Some (Pack.masked n raw m p).
Proof.
  intros Hraw Hraw' Hm Hp. split.
  - eapply returns_lanes_eq; [by apply masked_returns| |done].
    eapply returns_lanes_bind; [by apply default_returns|].
    intros q Hq Hlanes.
    eapply returns_lanes_ext; [by apply set_returns|].
    intros j Hj. simpl. by rewrite (Hlanes j Hj).
  - by destruct (masked_returns n raw m p Hraw Hm Hp) as (r & -> & _).
Qed.

(** X11. [q.set(mask, v)] with a scalar is [q.set(mask, Pack(v))]. *)
Theorem set_scalar_is_set_broadcast raw q m (v : T) :
  Z.of_nat (length raw) = n → Mask.wf n m → Pack.wf n q →
  Pack.set_scalar n q m v = (b ← Pack.broadcast n raw v; Pack.set n q m b) ∧
  returns_lanes n (Pack.set_scalar n q m v)
    (λ j, b ← Mask.get m j; if b : bool then Some v else Pack.get q j).
Proof.
  intros Hraw Hm Hq. split; [|by apply set_scalar_returns].
  eapply returns_lanes_eq; [by apply set_scalar_returns| |done].
  eapply returns_lanes_bind; [by apply broadcast_returns|].
  intros b Hb Hlanes.
  eapply returns_lanes_ext; [by apply set_returns|].
  intros j Hj. simpl. by rewrite (Hlanes j Hj).
Qed.

(** X12. [set] under the all-true mask [Mask(true)] overwrites the whole
    pack: the result is [p]. Under [Mask(false)] it changes nothing: the
    result is [q]. *)
Theorem set_full_and_empty_mask (rawm : list Z) q p :
  Z.of_nat (length rawm) = n → Pack.wf n p → Pack.wf n q →
  (mk ← Mask.broadcast n rawm true; Pack.set n q mk p) = Some p ∧
  (mk ← Mask.broadcast n rawm false; Pack.set n q mk p) = Some q.
Proof.
  intros Hrawm Hp Hq. rewrite !(mask_broadcast_eq n rawm _ Hrawm). simpl.
  assert (0 ≤ n) as Hn by (unfold Pack.wf in Hp; lia).
  split.
  - eapply returns_lanes_Some;
      [by apply set_returns; [exact (broadcast_mask_wf n true Hn)|..]|done|].
    intros j Hj. pose proof (broadcast_mask_get n true j Hj) as Hget.
    simpl in *. by rewrite Hget.
  - eapply returns_lanes_Some;
      [by apply set_returns; [exact (broadcast_mask_wf n false Hn)|..]|done|].
    intros j Hj. pose proof (broadcast_mask_get n false j Hj) as Hget.
    simpl in *. by rewrite Hget.
Qed.

(** X13. [set] is idempotent, and setting under a mask and then under its
    negation overwrites every lane: [q.set(m, p); q.set(!m, p)] leaves
    [p]. *)
Theorem set_twice (rawm : list Z) q m p :
  Z.of_nat (length rawm) = n → Mask.wf n m → Pack.wf n p → Pack.wf n q →
  (q1 ← Pack.set n q m p; Pack.set n q1 m p) = Pack.set n q m p ∧
  (q1 ← Pack.set n q m p; nm ← operator_not n rawm m; Pack.set n q1 nm p)
  = Some p.
Proof.
  intros Hrawm Hm Hp Hq. split.
  - eapply returns_lanes_eq; [|by apply set_returns|done].
    eapply returns_lanes_bind; [by apply set_returns|].
    intros q1 Hq1 Hlanes.
    eapply returns_lanes_ext; [by apply set_returns|].
    intros j Hj. simpl. rewrite (Hlanes j Hj).
    destruct (mask_get_in_range n m j Hm Hj) as [b ->]. simpl.
    by destruct b.
  - eapply returns_lanes_Some; [|done|done].
    eapply returns_lanes_bind; [by apply set_returns|].
    intros q1 Hq1 Hlanes.
    rewrite (operator_not_eq n rawm m Hrawm Hm). simpl.
    eapply returns_lanes_ext;
      [by apply set_returns; [apply not_mask_wf|..]|].
    intros j Hj. simpl. rewrite not_mask_get, (Hlanes j Hj).
    destruct (mask_get_in_range n m j Hm Hj) as [b ->]. simpl.
    by destruct b.
Qed.

(** X14. A compound assignment leaves what the binary operator returns:
    [q op= a] leaves [q op a] and [q op= s] leaves [q op s], for each of
    [+ - * /], and is undefined when the operator is. [+= -= *=] always
    succeed; [/=] divides lane by lane, and is undefined as soon as the
    scalar division is in some lane. Plain assignment of a pack leaves a
    copy of it and of a scalar its broadcast. *)
Theorem assignment_operators (op : arith_op) raw q a (s : T) :
  Z.of_nat (length raw) = n → Pack.wf n q → Pack.wf n a →
  ekat_pack_gen_assign_op_p n (Compound op) q a
  = ekat_pack_gen_bin_op_pp n op raw q a ∧
  ekat_pack_gen_assign_op_s n (Compound op) q s
  = ekat_pack_gen_bin_op_ps n op raw q s ∧
  ekat_pack_gen_assign_op_p n Assign q a = Some a ∧
  ekat_pack_gen_assign_op_s n Assign q s = Pack.broadcast n raw s ∧
  (op ≠ OpDiv →
   is_Some (ekat_pack_gen_assign_op_p n (Compound op) q a) ∧
   is_Some (ekat_pack_gen_assign_op_s n (Compound op) q s)) ∧
  computes_lanes n (ekat_pack_gen_assign_op_p n (Compound OpDiv) q a)
    (λ j, x ← Pack.get q j; y ← Pack.get a j; div x y) ∧
  computes_lanes n (ekat_pack_gen_assign_op_s n (Compound OpDiv) q s)
    (λ j, x ← Pack.get q j; div x s).
Proof.
  intros Hraw Hq Ha. split_and!.
  - eapply computes_lanes_eq;
      [by apply (assign_op_p_computes n (Compound op))
      |by apply bin_op_pp_computes|done].
  - eapply computes_lanes_eq;
      [by apply (assign_op_s_computes n (Compound op))
      |by apply bin_op_ps_computes|done].
  - eapply returns_lanes_Some; [|done|done].
    apply (assign_op_p_computes n Assign q a Hq Ha).
    intros j Hj. by apply (get_in_range n).
  - eapply returns_lanes_eq; [|by apply broadcast_returns|done].
    apply (assign_op_s_computes n Assign q s Hq). eauto.
  - intros Hop. split.
    + destruct (proj1 (assign_op_p_computes n (Compound op) q a Hq Ha))
        as (r & -> & _); [|done].
      intros j Hj. destruct (get_in_range n q j Hq Hj) as [x ->].
      destruct (get_in_range n a j Ha Hj) as [y ->]. simpl.
      by apply scalar_op_total.
    + destruct (proj1 (assign_op_s_computes n (Compound op) q s Hq))
        as (r & -> & _); [|done].
      intros j Hj. destruct (get_in_range n q j Hq Hj) as [x ->]. simpl.
      by apply scalar_op_total.
  - by apply (assign_op_p_computes n (Compound OpDiv)).
  - by apply (assign_op_s_computes n (Compound OpDiv)).
Qed.

(** X15. In an arithmetic operator a scalar operand acts as its broadcast:
    [a op s] is [a op Pack(s)] and [s op b] is [Pack(s) op b], the two
    sides being undefined together. With [+ - *] both are defined; [a / s]
    and [s / b] are undefined as soon as the scalar division is in some
    lane. *)
Theorem scalar_operand_is_broadcast (op : arith_op) raw raw' a (s : T) :
  Z.of_nat (length raw) = n → Z.of_nat (length raw') = n → Pack.wf n a →
  ekat_pack_gen_bin_op_ps n op raw a s
  = (b ← Pack.broadcast n raw' s; ekat_pack_gen_bin_op_pp n op raw a b) ∧
  ekat_pack_gen_bin_op_sp n op raw s a
  = (b ← Pack.broadcast n raw' s; ekat_pack_gen_bin_op_pp n op raw b a) ∧
  (op ≠ OpDiv →
   is_Some (ekat_pack_gen_bin_op_ps n op raw a s) ∧
   is_Some (ekat_pack_gen_bin_op_sp n op raw s a)) ∧
  computes_lanes n (ekat_pack_gen_bin_op_ps n OpDiv raw a s)
    (λ j, x ← Pack.get a j; div x s) ∧
  computes_lanes n (ekat_pack_gen_bin_op_sp n OpDiv raw s a)
    (λ j, y ← Pack.get a j; div s y).
Proof.
  intros Hraw Hraw' Ha. split_and!.
  - eapply computes_lanes_eq; [by apply bin_op_ps_computes| |done].
    eapply computes_lanes_bind; [by apply broadcast_returns|].
    intros b Hb Hlanes.
    eapply computes_lanes_ext; [by apply bin_op_pp_computes|].
    intros j Hj. simpl. rewrite (Hlanes j Hj).
    by destruct (Pack.get a j).
  - eapply computes_lanes_eq; [by apply bin_op_sp_computes| |done].
    eapply computes_lanes_bind; [by apply broadcast_returns|].
    intros b Hb Hlanes.
    eapply computes_lanes_ext; [by apply bin_op_pp_computes|].
    intros j Hj. simpl. by rewrite (Hlanes j Hj).
  - intros Hop. split.
    + by destruct (bin_op_ps_returns n op raw a s Hop Hraw Ha)
        as (r & -> & _).
    + by destruct (bin_op_sp_returns n op raw s a Hop Hraw Ha)
        as (r & -> & _).
  - by apply (bin_op_ps_computes n OpDiv).
  - by apply (bin_op_sp_computes n OpDiv).
Qed.
End PackExtras.

(** ** Math functions, reductions and comparisons *)

Lemma returns_mask_eq (n : Z) (o1 o2 : option Mask.t)
    (g1 g2 : Z → option bool) :
  returns_mask n o1 g1 → returns_mask n o2 g2 →
  (∀ j, 0 ≤ j < n → g1 j = g2 j) → o1 = o2.
Proof.
  intros (m1 & -> & Hwf1 & H1) (m2 & -> & Hwf2 & H2) Hg. f_equal.
  apply (mask_ext n); [done|done|]. intros j Hj.
  by rewrite H1, H2, Hg.
Qed.

Lemma returns_mask_fill (n : Z) (g : Z → option bool)
    (body : Z → Mask.t → option Mask.t) (raw : list Z) :
  Z.of_nat (length raw) = n →
  (∀ i m, 0 ≤ i < n → Mask.wf n m →
     ∃ v, g i = Some v ∧ body i m = Mask.set m i v) →
  returns_mask n (for_loop 0 n body (Mask.default raw)) g.
Proof.
  intros Hraw Hbody.
  destruct (mask_fill n g body raw Hraw Hbody) as (m & Hm & Hwf & Hl & _).
  by exists m.
Qed.

Lemma returns_mask_not (n : Z) (raw : list Z) (m : Mask.t) :
  Z.of_nat (length raw) = n → Mask.wf n m →
  returns_mask n (operator_not n raw m) (λ j, negb <$> Mask.get m j).
Proof.
  intros Hraw Hm. unfold operator_not.
  eapply (returns_mask_fill n (λ j, negb <$> Mask.get m j)); [done|].
  intros i m' Hi _.
  destruct (mask_get_in_range n m i Hm Hi) as [x ->]. simpl. eauto.
Qed.

Lemma selected_all {A : Type} (xs : list A) (k : nat) :
  length xs = k → selected (replicate k 1) xs = xs.
Proof.
  revert k. induction xs as [|x xs IH]; intros [|k] Hk; simplify_eq/=;
    [done|]. by rewrite IH.
Qed.

Section MathExtras.
Context {T : Type} `{!ScalarTraits T} `{!ScalarOps T} `{!ScalarCmp T}.
Variable n : Z.
Implicit Types (p q a : Pack.t T) (raw : list T).

(** X16. A unary function generated by [ekat_pack_gen_unary_fn] (and the
    unary operator [-]) applies the scalar function lane by lane: it maps a
    broadcast to the broadcast of the image, and applying two of them in
    turn applies the composed scalar function. *)
Theorem unary_functions_lanewise (f g : T → T) raw raw' raw'' p (v : T) :
  Z.of_nat (length raw) = n → Z.of_nat (length raw') = n →
  Z.of_nat (length raw'') = n → Pack.wf n p →
  returns_lanes n (ekat_pack_gen_unary_fn n f raw p)
    (λ j, f <$> Pack.get p j) ∧
  ekat_pack_gen_unary_op n f raw p = ekat_pack_gen_unary_fn n f raw p ∧
  (b ← Pack.broadcast n raw v; ekat_pack_gen_unary_fn n f raw' b)
  = Pack.broadcast n raw'' (f v) ∧
  (r ← ekat_pack_gen_unary_fn n f raw p; ekat_pack_gen_unary_fn n g raw' r)
  = ekat_pack_gen_unary_fn n (g ∘ f) raw'' p.
Proof.
  intros Hraw Hraw' Hraw'' Hp. split_and!.
  - by apply unary_fn_returns.
  - done.
  - eapply returns_lanes_eq; [|by apply broadcast_returns|done].
    eapply returns_lanes_bind; [by apply broadcast_returns|].
    intros b Hb Hlanes.
    eapply returns_lanes_ext; [by apply unary_fn_returns|].
    intros j Hj. simpl. by rewrite (Hlanes j Hj).
  - eapply returns_lanes_eq; [|by apply unary_fn_returns|done].
    eapply returns_lanes_bind; [by apply unary_fn_returns|].
    intros r Hr Hlanes.
    eapply returns_lanes_ext; [by apply unary_fn_returns|].
    intros j Hj. simpl. rewrite (Hlanes j Hj).
    by destruct (Pack.get p j).
Qed.

(** X17. [square(a)] is [a * a] and [cube(a)] is [square(a) * a], through
    the pack operator [*]. *)
Theorem square_cube_are_products raw raw' raw'' a :
  Z.of_nat (length raw) = n → Z.of_nat (length raw') = n →
  Z.of_nat (length raw'') = n → Pack.wf n a →
  square n raw a = ekat_pack_gen_bin_op_pp n OpMul raw' a a ∧
  cube n raw a
  = (s ← square n raw' a; ekat_pack_gen_bin_op_pp n OpMul raw'' s a) ∧
  is_Some (cube n raw a).
Proof.
  intros Hraw Hraw' Hraw'' Ha. split_and!.
  - eapply returns_lanes_eq;
      [by apply square_returns|by apply bin_op_pp_returns|].
    intros j Hj. simpl. by destruct (Pack.get a j).
  - eapply returns_lanes_eq; [by apply cube_returns| |done].
    eapply returns_lanes_bind; [by apply square_returns|].
    intros s Hs Hlanes.
    eapply returns_lanes_ext; [by apply bin_op_pp_returns|].
    intros j Hj. simpl. rewrite (Hlanes j Hj).
    by destruct (Pack.get a j).
  - by destruct (cube_returns n raw a Hraw Ha) as (r & -> & _).
Qed.

Lemma lane_fold (g : T → T → T) p (v0 : T) :
  Pack.wf n p →
  for_loop 0 n (λ i v, x ← Pack.get p i; Some (g v x)) v0
  = Some (foldl g v0 (Pack.d p)).
Proof.
  intros Hp. apply for_loop_fold; [done|]. intros k s x Hx.
  unfold Pack.get. by rewrite load_of_nat, Hx.
Qed.

(** X18. The unmasked [min(p)] and [max(p)] fold [impl::min] and
    [impl::max] over all the lanes starting from lane 0 (which is therefore
    folded twice); they are the masked reductions under the all-true mask
    with [p[0]] as initial value. On a pack without lanes they read [p[0]]
    out of bounds. *)
Theorem min_max_pack (rawm : list Z) p :
  Z.of_nat (length rawm) = n → Pack.wf n p →
  (0 < n →
   ∃ x0, Pack.get p 0 = Some x0 ∧
     min_pack n p = Some (foldl impl_min x0 (Pack.d p)) ∧
     max_pack n p = Some (foldl impl_max x0 (Pack.d p)) ∧
     min_pack n p = (m ← Mask.broadcast n rawm true; min_masked n m x0 p) ∧
     max_pack n p = (m ← Mask.broadcast n rawm true; max_masked n m x0 p)) ∧
  (n ≤ 0 → min_pack n p = None ∧ max_pack n p = None).
Proof.
  intros Hrawm Hp. split.
  - intros Hn. destruct (get_in_range n p 0 Hp) as [x0 Hx0]; [lia|].
    exists x0. unfold min_pack, max_pack. rewrite Hx0. simpl.
    rewrite !lane_fold by done.
    rewrite (mask_broadcast_eq n rawm true Hrawm). simpl.
    unfold min_masked, max_masked.
    rewrite !(masked_loop n _ _ _ p (broadcast_mask_wf n true ltac:(lia)) Hp).
    simpl. rewrite selected_all; [done|]. unfold Pack.wf in Hp. lia.
  - intros Hn. unfold min_pack, max_pack, Pack.get, load.
    unfold Pack.wf in Hp. case_decide; [|done].
    rewrite (proj2 (lookup_ge_None _ _)); [done|lia].
Qed.

(** X19. The binary functions generated by [ekat_pack_gen_bin_fn_all]
    ([min] and [max] of two operands) and the three overloads of [pow] apply
    the scalar function lane by lane, and a scalar argument acts as its
    broadcast. *)
Theorem binary_functions_lanewise (impl : T → T → T) raw raw' a
    (b : Pack.t T) (s : T) :
  Z.of_nat (length raw) = n → Z.of_nat (length raw') = n →
  Pack.wf n a → Pack.wf n b →
  returns_lanes n (ekat_pack_gen_bin_fn_pp n impl raw a b)
    (λ j, x ← Pack.get a j; y ← Pack.get b j; Some (impl x y)) ∧
  ekat_pack_gen_bin_fn_ps n impl raw a s
  = (bs ← Pack.broadcast n raw' s;
     ekat_pack_gen_bin_fn_pp n impl raw a bs) ∧
  ekat_pack_gen_bin_fn_sp n impl raw s b
  = (bs ← Pack.broadcast n raw' s;
     ekat_pack_gen_bin_fn_pp n impl raw bs b) ∧
  returns_lanes n (pow_pp n impl raw a b)
    (λ j, x ← Pack.get a j; y ← Pack.get b j; Some (impl x y)) ∧
  pow_ps n impl raw a s
  = (bs ← Pack.broadcast n raw' s; pow_pp n impl raw a bs) ∧
  pow_sp n impl raw s b
  = (bs ← Pack.broadcast n raw' s; pow_pp n impl raw bs b).
Proof.
  intros Hraw Hraw' Ha Hb.
  assert (Hps : ekat_pack_gen_bin_fn_ps n impl raw a s
    = (bs ← Pack.broadcast n raw' s;
       ekat_pack_gen_bin_fn_pp n impl raw a bs)).
  { eapply returns_lanes_eq; [by apply bin_fn_ps_returns| |done].
    eapply returns_lanes_bind; [by apply broadcast_returns|].
    intros bs Hbs Hlanes.
    eapply returns_lanes_ext; [by apply bin_fn_pp_returns|].
    intros j Hj. simpl. rewrite (Hlanes j Hj).
    by destruct (Pack.get a j). }
  assert (Hsp : ekat_pack_gen_bin_fn_sp n impl raw s b
    = (bs ← Pack.broadcast n raw' s;
       ekat_pack_gen_bin_fn_pp n impl raw bs b)).
  { eapply returns_lanes_eq; [by apply bin_fn_sp_returns| |done].
    eapply returns_lanes_bind; [by apply broadcast_returns|].
    intros bs Hbs Hlanes.
    eapply returns_lanes_ext; [by apply bin_fn_pp_returns|].
    intros j Hj. simpl. by rewrite (Hlanes j Hj). }
  split_and!; [by apply bin_fn_pp_returns|done|done
              |by apply bin_fn_pp_returns|exact Hps|exact Hsp].
Qed.

Lemma cmp_pp_returns (op : cmp_op) (raw : list Z) a (b : Pack.t T) :
  Z.of_nat (length raw) = n → Pack.wf n a → Pack.wf n b →
  returns_mask n (ekat_mask_gen_bin_op_pp n op raw a b)
    (λ j, x ← Pack.get a j; y ← Pack.get b j; Some (scalar_cmp op x y)).
Proof.
  intros Hraw Ha Hb. apply returns_mask_fill; [done|]. intros i m Hi _.
  destruct (get_in_range n a i Ha Hi) as [x ->].
  destruct (get_in_range n b i Hb Hi) as [y ->]. simpl. eauto.
Qed.

Lemma cmp_ps_returns (op : cmp_op) (raw : list Z) a (s : T) :
  Z.of_nat (length raw) = n → Pack.wf n a →
  returns_mask n (ekat_mask_gen_bin_op_ps n op raw a s)
    (λ j, x ← Pack.get a j; Some (scalar_cmp op x s)).
Proof.
  intros Hraw Ha. apply returns_mask_fill; [done|]. intros i m Hi _.
  destruct (get_in_range n a i Ha Hi) as [x ->]. simpl. eauto.
Qed.

Lemma cmp_sp_returns (op : cmp_op) (raw : list Z) (s : T) (b : Pack.t T) :
  Z.of_nat (length raw) = n → Pack.wf n b →
  returns_mask n (ekat_mask_gen_bin_op_sp n op raw s b)
    (λ j, y ← Pack.get b j; Some (scalar_cmp op s y)).
Proof.
  intros Hraw Hb. apply returns_mask_fill; [done|]. intros i m Hi _.
  destruct (get_in_range n b i Hb Hi) as [y ->]. simpl. eauto.
Qed.

(** X20. A comparison of packs returns a mask of the same number of lanes;
    lane [i] reads as the scalar comparison of the operands' lanes [i] and
    is stored as 0 or 1. A scalar operand acts as its broadcast. [isnan]
    likewise reads, in lane [i], as [impl::is_nan(p[i])]. *)
Theorem comparison_masks (op : cmp_op) (is_nan : T → bool) (raw : list Z)
    (rawp : list T) a (b : Pack.t T) (s : T) :
  Z.of_nat (length raw) = n → Z.of_nat (length rawp) = n →
  Pack.wf n a → Pack.wf n b →
  (∃ m, ekat_mask_gen_bin_op_pp n op raw a b = Some m ∧ Mask.wf n m ∧
     (∀ j, 0 ≤ j < n →
        Mask.get m j
        = (x ← Pack.get a j; y ← Pack.get b j; Some (scalar_cmp op x y))) ∧
     (∀ z, z ∈ Mask.d m → z = 0 ∨ z = 1)) ∧
  ekat_mask_gen_bin_op_ps n op raw a s
  = (bs ← Pack.broadcast n rawp s; ekat_mask_gen_bin_op_pp n op raw a bs) ∧
  ekat_mask_gen_bin_op_sp n op raw s b
  = (bs ← Pack.broadcast n rawp s; ekat_mask_gen_bin_op_pp n op raw bs b) ∧
  (∃ m, isnan n is_nan raw a = Some m ∧ Mask.wf n m ∧
     ∀ j, 0 ≤ j < n → Mask.get m j = is_nan <$> Pack.get a j).
Proof.
  intros Hraw Hrawp Ha Hb. split_and!.
  - destruct (cmp_pp_returns op raw a b Hraw Ha Hb) as (m & -> & Hwf & Hl).
    exists m. split_and!; [done|done| |].
    + intros j Hj. rewrite mask_get_truth, (Hl j Hj).
      destruct (Pack.get a j), (Pack.get b j); simpl; try done.
      by rewrite truth_b2z.
    + intros z [k Hk]%list_elem_of_lookup_1.
      assert (0 ≤ Z.of_nat k < n) as Hkn.
      { apply lookup_lt_Some in Hk. unfold Mask.wf in Hwf. lia. }
      specialize (Hl _ Hkn). rewrite load_of_nat, Hk in Hl.
      destruct (Pack.get a _), (Pack.get b _); simplify_eq/=.
      by destruct (scalar_cmp op _ _); auto.
  - destruct (broadcast_lanes n rawp s Hrawp) as (bs & -> & Hbs & Hlanes).
    simpl. eapply returns_mask_eq;
      [by apply cmp_ps_returns|by apply cmp_pp_returns|].
    intros j Hj. simpl. rewrite (Hlanes j Hj). by destruct (Pack.get a j).
  - destruct (broadcast_lanes n rawp s Hrawp) as (bs & -> & Hbs & Hlanes).
    simpl. eapply returns_mask_eq;
      [by apply cmp_sp_returns|by apply cmp_pp_returns|].
    intros j Hj. simpl. by rewrite (Hlanes j Hj).
  - destruct (mask_fill n (λ j, is_nan <$> Pack.get a j)
      (λ i m, x ← Pack.get a i; Mask.set m i (is_nan x)) raw Hraw)
      as (m & Hm & Hwf & _ & Hget).
    { intros i m Hi _. destruct (get_in_range n a i Ha Hi) as [x ->].
      simpl. eauto. }
    exists m. by split_and!.
Qed.

(** X21. Comparisons that the scalar type relates are related on packs:
    when one scalar comparison is the negation of another (as [!=] of [==]),
    the pack comparison is the negated mask of the other; when one is the
    other with its operands swapped (as [>] of [<]), so is the pack
    comparison. *)
Theorem comparison_relations (op op' : cmp_op) (raw raw' raw'' : list Z) a
    (b : Pack.t T) :
  Z.of_nat (length raw) = n → Z.of_nat (length raw') = n →
  Z.of_nat (length raw'') = n → Pack.wf n a → Pack.wf n b →
  ((∀ x y, scalar_cmp op x y = negb (scalar_cmp op' x y)) →
   ekat_mask_gen_bin_op_pp n op raw a b
   = (m ← ekat_mask_gen_bin_op_pp n op' raw' a b; operator_not n raw'' m)) ∧
  ((∀ x y, scalar_cmp op x y = scalar_cmp op' y x) →
   ekat_mask_gen_bin_op_pp n op raw a b
   = ekat_mask_gen_bin_op_pp n op' raw' b a).
Proof.
  intros Hraw Hraw' Hraw'' Ha Hb. split.
  - intros Hneg.
    destruct (cmp_pp_returns op' raw' a b Hraw' Ha Hb)
      as (m & -> & Hwf & Hl). simpl.
    eapply returns_mask_eq;
      [by apply cmp_pp_returns|by apply returns_mask_not|].
    intros j Hj. simpl. rewrite mask_get_truth, (Hl j Hj).
    destruct (Pack.get a j), (Pack.get b j); simpl; try done.
    by rewrite truth_b2z, Hneg.
  - intros Hswap.
    eapply returns_mask_eq;
      [by apply cmp_pp_returns|by apply cmp_pp_returns|].
    intros j Hj. simpl.
    destruct (Pack.get a j), (Pack.get b j); simpl; try done.
    by rewrite Hswap.
Qed.
End MathExtras.

(** ** Shifts, [range], [npack] and chained sums *)

Section ShiftExtras.
Context {T : Type} `{!ScalarTraits T} `{!ScalarOps T}.
Variable n : Z.
Implicit Types (p q a : Pack.t T) (raw : list T).

(** X22. The two shifts undo each other when the lane that fell off is
    given back as boundary: shifting [p] right and then left with [p[n-1]]
    as boundary returns [p], and shifting left and then right with [p[0]]
    returns [p]. *)
Theorem shift_round_trip raw1 raw2 (s : T) p :
  0 < n → Z.of_nat (length raw1) = n → Z.of_nat (length raw2) = n →
  Pack.wf n p →
  (r ← shift_right_scalar n raw1 s p; x ← Pack.get p (n - 1);
   shift_left_scalar n raw2 x r) = Some p ∧
  (l ← shift_left_scalar n raw1 s p; x ← Pack.get p 0;
   shift_right_scalar n raw2 x l) = Some p.
Proof.
  intros Hn Hraw1 Hraw2 Hp.
  destruct (get_in_range n p (n - 1) Hp) as [xl Hxl]; [lia|].
  destruct (get_in_range n p 0 Hp) as [xf Hxf]; [lia|].
  split.
  - eapply returns_lanes_Some; [|done|done].
    eapply returns_lanes_bind; [by apply shift_right_scalar_returns|].
    intros r Hr Hlanes. rewrite Hxl. simpl.
    eapply returns_lanes_ext; [by apply shift_left_scalar_returns|].
    intros j Hj. simpl. case_decide as Hlast; [by subst j|].
    rewrite Hlanes by lia. case_decide; [lia|]. f_equal. lia.
  - eapply returns_lanes_Some; [|done|done].
    eapply returns_lanes_bind; [by apply shift_left_scalar_returns|].
    intros l Hl Hlanes. rewrite Hxf. simpl.
    eapply returns_lanes_ext; [by apply shift_right_scalar_returns|].
    intros j Hj. simpl. case_decide as Hfirst; [by subst j|].
    rewrite Hlanes by lia. case_decide; [lia|]. f_equal. lia.
Qed.

Lemma load_window {A : Type} (l : list A) (k len : nat) j :
  0 ≤ j < Z.of_nat len →
  load (take len (drop k l)) j = l !! (k + Z.to_nat j)%nat.
Proof.
  intros Hj. unfold load. destruct (decide (0 ≤ j)); [|lia].
  by rewrite lookup_take_lt, lookup_drop by lia.
Qed.

Lemma load_nat {A : Type} (l : list A) j :
  0 ≤ j → load l j = l !! Z.to_nat j.
Proof. intros Hj. unfold load. by destruct (decide (0 ≤ j)). Qed.

(** X23. The shifts with a boundary pack are windows of two adjacent packs
    laid side by side: [shift_right(pm1, p)] is the [n] lanes of [pm1]
    followed by [p] that start one lane before [p], and [shift_left(pp1, p)]
    the [n] lanes of [p] followed by [pp1] that start one lane after the
    start of [p]. *)
Theorem shift_is_window raw (pm1 pp1 p : Pack.t T) :
  0 < n → Z.of_nat (length raw) = n →
  Pack.wf n pm1 → Pack.wf n pp1 → Pack.wf n p →
  shift_right n raw pm1 p
  = Some (Pack.mk (take (Z.to_nat n)
                     (drop (Z.to_nat (n - 1)) (Pack.d pm1 ++ Pack.d p)))) ∧
  shift_left n raw pp1 p
  = Some (Pack.mk (take (Z.to_nat n) (drop 1 (Pack.d p ++ Pack.d pp1)))).
Proof.
  intros Hn Hraw Hpm1 Hpp1 Hp. split.
  - eapply returns_lanes_Some; [by apply shift_right_returns| |].
    + unfold Pack.wf in *. simpl.
      rewrite length_take, length_drop, length_app. lia.
    + intros j Hj. unfold Pack.get, Pack.wf in *. simpl.
      rewrite load_window by lia.
      destruct (decide (j = 0)) as [->|Hj0].
      * rewrite load_nat by lia. rewrite lookup_app_l by lia.
        f_equal. lia.
      * rewrite load_nat by lia. rewrite lookup_app_r by lia.
        f_equal. lia.
  - eapply returns_lanes_Some; [by apply shift_left_returns| |].
    + unfold Pack.wf in *. simpl.
      rewrite length_take, length_drop, length_app. lia.
    + intros j Hj. unfold Pack.get, Pack.wf in *. simpl.
      rewrite load_window by lia.
      destruct (decide (j = n - 1)) as [->|Hj0].
      * rewrite load_nat by lia. rewrite lookup_app_r by lia.
        f_equal. lia.
      * rewrite load_nat by lia. rewrite lookup_app_l by lia.
        f_equal. lia.
Qed.

(** X24. [range(start)] returns the pack whose lane [i] is [start + i];
    shifting it left with [start + n] as boundary gives, in lane [i], the
    value [start + (i + 1)]. *)
Theorem range_lanes raw raw' (start : T) :
  Z.of_nat (length raw) = n → Z.of_nat (length raw') = n →
  returns_lanes n (range n raw start) (λ j, Some (add start (of_int j))) ∧
  (0 < n →
   returns_lanes n
     (r ← range n raw start;
      shift_left_scalar n raw' (add start (of_int n)) r)
     (λ j, Some (add start (of_int (j + 1))))).
Proof.
  intros Hraw Hraw'. split; [by apply range_returns|]. intros Hn.
  eapply returns_lanes_bind; [by apply range_returns|].
  intros r Hr Hlanes.
  eapply returns_lanes_ext; [by apply shift_left_scalar_returns|].
  intros j Hj. simpl. case_decide as Hlast.
  - subst j. do 3 f_equal. lia.
  - by rewrite Hlanes by lia.
Qed.

(** X25. Sums chain: accumulating [q] and then [p] onto the same
    accumulator, under the serialized policy or with the vectorized loop
    run as written, leaves the accumulator plus the lanes of [q] and then
    of [p], added from the left. *)
Theorem reduce_sum_chains (Serialize : bool) q p (sum0 : T) :
  Pack.wf n q → Pack.wf n p →
  (s ← reduce_sum n Serialize None q sum0; reduce_sum n Serialize None p s)
  = Some (foldl add sum0 (Pack.d q ++ Pack.d p)).
Proof.
  intros Hq Hp. unfold reduce_sum.
  destruct Serialize; rewrite !serialized_sum by done; simpl;
    by rewrite serialized_sum, foldl_app.
Qed.
End ShiftExtras.

(** X26. [npack] is the number of packs needed for [nscalar] scalars: for a
    non-negative [nscalar] and packs of [n >= 1] lanes with [nscalar + n]
    inside [Int], it returns the least [k] with [nscalar <= n * k]. When
    [nscalar + n] leaves [Int] the intermediate sum overflows, even where
    the quotient itself would fit. *)
Theorem npack_is_ceiling (Int_max n nscalar : Z) :
  0 < n → 0 ≤ nscalar →
  (nscalar + n ≤ Int_max →
   ∃ k, npack Int_max n nscalar = Some k ∧
     n * (k - 1) < nscalar ≤ n * k ∧
     ∀ k', nscalar ≤ n * k' → k ≤ k') ∧
  (Int_max < nscalar + n → npack Int_max n nscalar = None).
Proof.
  intros Hn Hns. split.
  - intros Hfit. unfold npack, Int_result.
    destruct (decide (- Int_max - 1 ≤ nscalar + n ≤ Int_max)); [|lia]. simpl.
    destruct (decide (- Int_max - 1 ≤ nscalar + n - 1 ≤ Int_max)); [|lia].
    simpl. destruct (decide (n = 0)); [lia|].
    rewrite Z.quot_div_nonneg by lia.
    pose proof (Z.div_mod (nscalar + n - 1) n ltac:(lia)) as Hdm.
    pose proof (Z.mod_pos_bound (nscalar + n - 1) n Hn) as Hmod.
    assert (0 ≤ (nscalar + n - 1) / n) by (apply Z.div_pos; lia).
    assert ((nscalar + n - 1) / n ≤ nscalar + n - 1)
      by (apply Z.div_le_upper_bound; nia).
    destruct (decide (- Int_max - 1 ≤ (nscalar + n - 1) / n ≤ Int_max));
      [|lia].
    eexists. split; [done|].
    revert Hdm Hmod. generalize ((nscalar + n - 1) / n) as k.
    generalize ((nscalar + n - 1) mod n) as r. intros r k Hdm Hmod.
    split; [lia|]. intros k' Hk'.
    destruct (decide (k ≤ k')) as [|Hlt]; [done|exfalso].
    assert (n * k' ≤ n * (k - 1)) by (apply Z.mul_le_mono_nonneg_l; lia).
    lia.
  - intros Hover. unfold npack, Int_result.
    destruct (decide (- Int_max - 1 ≤ nscalar + n ≤ Int_max)); [lia|done].
Qed.

(** ** Floating-point exception control *)

(** X27. Enabling traps never traps at once: right after [enable_fpes(mask)]
    none of the exceptions of [mask] is both raised and trapping, since the
    pending flags of [mask] are cleared first. Disabling the same mask
    after enabling it leaves trapping what disabling alone leaves trapping,
    while the flags that enabling cleared stay cleared. After
    [disable_all_fpes()] no supported exception traps, so
    [get_enabled_fpes()] returns 0 whenever only supported exceptions were
    trapping. When [EKAT_ENABLE_FPE] is not defined the three procedures
    change nothing and the two queries return 0. *)
Theorem fpe_control (EKAT_ENABLE_FPE EKAT_FPE : bool)
    (FE_DIVBYZERO FE_INVALID FE_OVERFLOW FE_ALL_EXCEPT mask : Z)
    (e : fpe.fenv) :
  let on := fpe.enable_fpes EKAT_ENABLE_FPE FE_ALL_EXCEPT mask e in
  (EKAT_ENABLE_FPE = true →
   Z.land (Z.land (fpe.raised on) (fpe.trapping on))
          (Z.land mask FE_ALL_EXCEPT) = 0) ∧
  fpe.disable_fpes EKAT_ENABLE_FPE FE_ALL_EXCEPT mask on
  = fpe.mk_fenv (fpe.raised on)
      (fpe.trapping
         (fpe.disable_fpes EKAT_ENABLE_FPE FE_ALL_EXCEPT mask e)) ∧
  (Z.land (fpe.trapping e) (Z.lnot FE_ALL_EXCEPT) = 0 →
   fpe.get_enabled_fpes EKAT_ENABLE_FPE
     (fpe.disable_all_fpes EKAT_ENABLE_FPE FE_ALL_EXCEPT e) = 0) ∧
  (EKAT_ENABLE_FPE = false →
   on = e ∧
   fpe.disable_fpes EKAT_ENABLE_FPE FE_ALL_EXCEPT mask e = e ∧
   fpe.disable_all_fpes EKAT_ENABLE_FPE FE_ALL_EXCEPT e = e ∧
   fpe.get_enabled_fpes EKAT_ENABLE_FPE e = 0 ∧
   fpe.get_default_fpes EKAT_ENABLE_FPE EKAT_FPE
     FE_DIVBYZERO FE_INVALID FE_OVERFLOW = 0).
Proof.
  intros on. subst on. destruct e as [r t]. split_and!.
  - intros ->. simpl. apply Z.bits_inj'. intros i Hi.
    rewrite !Z.land_spec, Z.lnot_spec, Z.lor_spec, !Z.land_spec, Z.bits_0
      by done.
    by destruct (Z.testbit r i), (Z.testbit t i), (Z.testbit mask i),
      (Z.testbit FE_ALL_EXCEPT i).
  - destruct EKAT_ENABLE_FPE; simpl; [|done].
    unfold fpe.fedisableexcept. simpl. f_equal.
    apply Z.bits_inj'. intros i Hi.
    rewrite !Z.land_spec, Z.lor_spec, Z.lnot_spec, !Z.land_spec by done.
    by destruct (Z.testbit t i), (Z.testbit mask i),
      (Z.testbit FE_ALL_EXCEPT i).
  - intros Hsup. destruct EKAT_ENABLE_FPE; simpl; [|done].
    simpl in Hsup. apply Z.bits_inj'. intros i Hi.
    apply (f_equal (λ z, Z.testbit z i)) in Hsup.
    revert Hsup.
    rewrite !Z.land_spec, !Z.lnot_spec, !Z.land_spec, Z.bits_0 by done.
    by destruct (Z.testbit t i), (Z.testbit FE_ALL_EXCEPT i).
  - by intros ->.
Qed.

(** * The rest of the header on [unsigned int] packs *)

Example mask_operators_run :
  let a := Mask.mk [1; 0; 7; 0] in
  let b := Mask.mk [1; 1; 0; 0] in
  ekat_mask_gen_bin_op_mm 4 OpAnd [9; 9; 9; 9] a b
    = Some (Mask.mk [1; 0; 0; 0]) ∧
  ekat_mask_gen_bin_op_mm 4 OpOr [9; 9; 9; 9] a b
    = Some (Mask.mk [1; 1; 1; 0]) ∧
  ekat_mask_gen_bin_op_mb 4 OpOr [9; 9; 9; 9] a false
    = Some (Mask.mk [1; 0; 1; 0]) ∧
  operator_not 4 [9; 9; 9; 9] a = Some (Mask.mk [0; 1; 0; 1]).
Proof. by split_and!. Qed.

Example pack_functions_run :
  let a := Pack.mk [1; 2; 3; 4] in
  let b := Pack.mk [4; 2; 1; 9] in
  ekat_pack_gen_assign_op_p 4 (Compound OpAdd) a b
    = Some (Pack.mk [5; 4; 4; 13]) ∧
  ekat_pack_gen_assign_op_s 4 (Compound OpMul) a 3
    = Some (Pack.mk [3; 6; 9; 12]) ∧
  square 4 [0; 0; 0; 0] a = Some (Pack.mk [1; 4; 9; 16]) ∧
  cube 4 [0; 0; 0; 0] a = Some (Pack.mk [1; 8; 27; 64]) ∧
  min_pack 4 b = Some 1 ∧ max_pack 4 b = Some 9 ∧
  ekat_mask_gen_bin_op_pp 4 CmpLt [9; 9; 9; 9] a b
    = Some (Mask.mk [1; 0; 0; 1]) ∧
  range 4 [0; 0; 0; 0] 10 = Some (Pack.mk [10; 11; 12; 13]) ∧
  npack (2 ^ 31 - 1) 4 10 = Some 3 ∧ npack (2 ^ 31 - 1) 4 0 = Some 0 ∧
  npack (2 ^ 31 - 1) 4 (2 ^ 31 - 4) = None.
Proof. by split_and!. Qed.

Lemma mask_set_get_witness :
  let m := Mask.mk [1; 0; 1; 0] in
  Mask.wf 4 m ∧ 0 ≤ 1 < 4 ∧ ¬ 0 ≤ 4 < 4 ∧
  (∃ m', Mask.set m 1 true = Some m' ∧ Mask.wf 4 m' ∧
     Mask.get m' 1 = Some true ∧
     ∀ j, j ≠ 1 → Mask.get m' j = Mask.get m j) ∧
  (Mask.set m 4 true = None ∧ Mask.get m 4 = None).
Proof.
  intros m.
  pose proof (mask_set_get 4 m 1 true eq_refl) as [Hin _].
  pose proof (mask_set_get 4 m 4 true eq_refl) as [_ Hout].
  split_and!;
    [reflexivity|lia|lia|lia|exact (Hin ltac:(lia))
    |apply Hout; lia|apply Hout; lia].
Defined.

Lemma mask_broadcast_queries_witness :
  Z.of_nat (length [5; 6; 7; 8]) = 4 ∧
  ∃ m, Mask.broadcast 4 [5; 6; 7; 8] true = Some m ∧ Mask.wf 4 m ∧
    (∀ j, 0 ≤ j < 4 → Mask.get m j = Some true) ∧
    (0 < 4 → Mask.any 4 m = Some true ∧ Mask.all 4 m = Some true ∧
             Mask.none 4 m = Some (negb true)).
Proof.
  split; [reflexivity|].
  exact (mask_broadcast_queries 4 [5; 6; 7; 8] true eq_refl).
Defined.

Lemma mask_not_queries_witness :
  let m := Mask.mk [1; 0; 7; 0] in
  Z.of_nat (length [9; 9; 9; 9]) = 4 ∧ Mask.wf 4 m ∧
  ∃ r, operator_not 4 [9; 9; 9; 9] m = Some r ∧ Mask.wf 4 r ∧
    (∀ j, 0 ≤ j < 4 → Mask.get r j = negb <$> Mask.get m j) ∧
    Mask.any 4 r = negb <$> Mask.all 4 m ∧
    Mask.all 4 r = Mask.none 4 m ∧
    Mask.none 4 r = Mask.all 4 m.
Proof.
  intros m. split_and!; [reflexivity..|].
  exact (mask_not_queries 4 [9; 9; 9; 9] m eq_refl eq_refl).
Defined.

Lemma mask_double_negation_witness :
  let m := Mask.mk [1; 0; 7; 0] in
  Z.of_nat (length [9; 9; 9; 9]) = 4 ∧ Z.of_nat (length [8; 8; 8; 8]) = 4 ∧
  Mask.wf 4 m ∧
  (x ← operator_not 4 [9; 9; 9; 9] m; operator_not 4 [8; 8; 8; 8] x)
  = Some (Mask.mk [1; 0; 1; 0]) ∧
  ∃ r, (x ← operator_not 4 [9; 9; 9; 9] m; operator_not 4 [8; 8; 8; 8] x)
       = Some r ∧
    Mask.wf 4 r ∧
    (∀ j, Mask.get r j = Mask.get m j) ∧
    Mask.d r = (λ x, if decide (x = 0) then 0 else 1) <$> Mask.d m ∧
    ((∀ x, x ∈ Mask.d m → x = 0 ∨ x = 1) → r = m).
Proof.
  intros m. split_and!; [reflexivity..|].
  exact (mask_double_negation 4 [9; 9; 9; 9] [8; 8; 8; 8] m
           eq_refl eq_refl eq_refl).
Defined.

Lemma mask_de_morgan_witness :
  let a := Mask.mk [1; 0; 7; 0] in
  let b := Mask.mk [1; 1; 0; 0] in
  let raw := [9; 9; 9; 9] in
  Z.of_nat (length raw) = 4 ∧ Mask.wf 4 a ∧ Mask.wf 4 b ∧
  is_Some (x ← ekat_mask_gen_bin_op_mm 4 OpAnd raw a b;
           operator_not 4 raw x) ∧
  (x ← ekat_mask_gen_bin_op_mm 4 OpAnd raw a b; operator_not 4 raw x)
  = (na ← operator_not 4 raw a; nb ← operator_not 4 raw b;
     ekat_mask_gen_bin_op_mm 4 OpOr raw na nb) ∧
  (x ← ekat_mask_gen_bin_op_mm 4 OpOr raw a b; operator_not 4 raw x)
  = (na ← operator_not 4 raw a; nb ← operator_not 4 raw b;
     ekat_mask_gen_bin_op_mm 4 OpAnd raw na nb).
Proof.
  intros a b raw. split_and!; [reflexivity..| | |];
    apply (mask_de_morgan 4 raw raw raw raw raw a b
             eq_refl eq_refl eq_refl eq_refl eq_refl eq_refl eq_refl).
Defined.

Lemma mask_any_all_distribute_witness :
  let a := Mask.mk [1; 0; 7; 0] in
  let b := Mask.mk [1; 1; 0; 0] in
  let raw := [9; 9; 9; 9] in
  Z.of_nat (length raw) = 4 ∧ Mask.wf 4 a ∧ Mask.wf 4 b ∧
  (r ← ekat_mask_gen_bin_op_mm 4 OpOr raw a b; Mask.any 4 r)
  = (x ← Mask.any 4 a; y ← Mask.any 4 b; Some (x || y)) ∧
  (r ← ekat_mask_gen_bin_op_mm 4 OpAnd raw a b; Mask.all 4 r)
  = (x ← Mask.all 4 a; y ← Mask.all 4 b; Some (x && y)) ∧
  is_Some (r ← ekat_mask_gen_bin_op_mm 4 OpOr raw a b; Mask.any 4 r).
Proof.
  intros a b raw. split_and!; [reflexivity..| | |];
    apply (mask_any_all_distribute 4 raw a b eq_refl eq_refl eq_refl).
Defined.

Lemma mask_bool_operand_witness :
  let a := Mask.mk [1; 0; 7; 0] in
  let raw := [9; 9; 9; 9] in
  Z.of_nat (length raw) = 4 ∧ Mask.wf 4 a ∧
  ekat_mask_gen_bin_op_mb 4 OpAnd raw a true
  = (mb ← Mask.broadcast 4 raw true; ekat_mask_gen_bin_op_mm 4 OpAnd raw a mb) ∧
  ekat_mask_gen_bin_op_mb 4 OpAnd raw a false = Mask.broadcast 4 raw false ∧
  ekat_mask_gen_bin_op_mb 4 OpOr raw a true = Mask.broadcast 4 raw true.
Proof.
  intros a raw.
  pose proof (mask_bool_operand 4 raw raw OpAnd a true
                eq_refl eq_refl eq_refl) as (H1 & H2 & H3 & _).
  split_and!; [reflexivity|reflexivity|exact H1|exact H2|exact H3].
Defined.

Lemma pack_put_get_witness :
  let p := Pack.mk [11; 12; 13; 14] in
  Pack.wf 4 p ∧
  (∃ p', Pack.put p 2 99 = Some p' ∧ Pack.wf 4 p' ∧
     Pack.get p' 2 = Some 99 ∧
     ∀ j, j ≠ 2 → Pack.get p' j = Pack.get p j) ∧
  Pack.put p 4 99 = None ∧ Pack.get p (-1) = None.
Proof.
  intros p.
  pose proof (pack_put_get 4 p 2 99 eq_refl) as [Hin _].
  pose proof (pack_put_get 4 p 4 99 eq_refl) as [_ Hout4].
  pose proof (pack_put_get 4 p (-1) 99 eq_refl) as [_ Houtm].
  split_and!;
    [reflexivity|exact (Hin ltac:(lia))|apply Hout4; lia|apply Houtm; lia].
Defined.

Lemma pack_copy_constructor_witness :
  let p := Pack.mk [11; 12; 13; 14] in
  Z.of_nat (length [0; 0; 0; 0]) = 4 ∧ Pack.wf 4 p ∧
  Pack.from_pack 4 [0; 0; 0; 0] p = Some p.
Proof.
  intros p. split_and!; [reflexivity..|].
  exact (pack_copy_constructor 4 [0; 0; 0; 0] p eq_refl eq_refl).
Defined.

Lemma masked_is_default_then_set_witness :
  let m := Mask.mk [1; 0; 1; 0] in
  let p := Pack.mk [11; 12; 13; 14] in
  Z.of_nat (length [0; 0; 0; 0]) = 4 ∧ Z.of_nat (length [5; 5; 5; 5]) = 4 ∧
  Mask.wf 4 m ∧ Pack.wf 4 p ∧
  Pack.masked 4 [0; 0; 0; 0] m p
  = (q ← Pack.default 4 [5; 5; 5; 5]; Pack.set 4 q m p) ∧
  is_Some (Pack.masked 4 [0; 0; 0; 0] m p).
Proof.
  intros m p.
  pose proof (masked_is_default_then_set 4 [0; 0; 0; 0] [5; 5; 5; 5] m p
             eq_refl eq_refl eq_refl eq_refl) as (H1 & H2).
  split_and!; [reflexivity..|exact H1|exact H2].
Defined.

Lemma set_scalar_is_set_broadcast_witness :
  let m := Mask.mk [1; 0; 1; 0] in
  let q := Pack.mk [21; 22; 23; 24] in
  Z.of_nat (length [0; 0; 0; 0]) = 4 ∧ Mask.wf 4 m ∧ Pack.wf 4 q ∧
  Pack.set_scalar 4 q m 7
  = (b ← Pack.broadcast 4 [0; 0; 0; 0] 7; Pack.set 4 q m b).
Proof.
  intros m q. split_and!; [reflexivity..|].
  exact (proj1 (set_scalar_is_set_broadcast 4 [0; 0; 0; 0] q m 7
                  eq_refl eq_refl eq_refl)).
Defined.

Lemma set_full_and_empty_mask_witness :
  let p := Pack.mk [11; 12; 13; 14] in
  let q := Pack.mk [21; 22; 23; 24] in
  Z.of_nat (length [9; 9; 9; 9]) = 4 ∧ Pack.wf 4 p ∧ Pack.wf 4 q ∧
  (mk ← Mask.broadcast 4 [9; 9; 9; 9] true; Pack.set 4 q mk p) = Some p ∧
  (mk ← Mask.broadcast 4 [9; 9; 9; 9] false; Pack.set 4 q mk p) = Some q.
Proof.
  intros p q.
  pose proof (set_full_and_empty_mask 4 [9; 9; 9; 9] q p
             eq_refl eq_refl eq_refl) as (H1 & H2).
  split_and!; [reflexivity..|exact H1|exact H2].
Defined.

Lemma set_twice_witness :
  let m := Mask.mk [1; 0; 1; 0] in
  let p := Pack.mk [11; 12; 13; 14] in
  let q := Pack.mk [21; 22; 23; 24] in
  Z.of_nat (length [9; 9; 9; 9]) = 4 ∧ Mask.wf 4 m ∧
  Pack.wf 4 p ∧ Pack.wf 4 q ∧
  (q1 ← Pack.set 4 q m p; Pack.set 4 q1 m p) = Pack.set 4 q m p ∧
  (q1 ← Pack.set 4 q m p; nm ← operator_not 4 [9; 9; 9; 9] m;
   Pack.set 4 q1 nm p) = Some p.
Proof.
  intros m p q.
  pose proof (set_twice 4 [9; 9; 9; 9] q m p eq_refl eq_refl eq_refl eq_refl)
    as (H1 & H2).
  split_and!; [reflexivity..|exact H1|exact H2].
Defined.

Lemma assignment_operators_witness :
  let q := Pack.mk [10; 20; 30; 40] in
  let a := Pack.mk [1; 2; 3; 50] in
  let raw := [0; 0; 0; 0] in
  Z.of_nat (length raw) = 4 ∧ Pack.wf 4 q ∧ Pack.wf 4 a ∧
  ekat_pack_gen_assign_op_p 4 (Compound OpSub) q a
  = Some (Pack.mk [9; 18; 27; 4294967286]) ∧
  ekat_pack_gen_assign_op_s 4 (Compound OpSub) q 5
  = Some (Pack.mk [5; 15; 25; 35]) ∧
  ekat_pack_gen_assign_op_p 4 (Compound OpDiv) q a
  = Some (Pack.mk [10; 10; 10; 0]) ∧
  ekat_pack_gen_assign_op_s 4 (Compound OpDiv) q 5
  = Some (Pack.mk [2; 4; 6; 8]) ∧
  ekat_pack_gen_assign_op_s 4 (Compound OpDiv) q 0 = None ∧
  ekat_pack_gen_assign_op_p 4 (Compound OpSub) q a
  = ekat_pack_gen_bin_op_pp 4 OpSub raw q a ∧
  ekat_pack_gen_assign_op_s 4 (Compound OpSub) q 5
  = ekat_pack_gen_bin_op_ps 4 OpSub raw q 5 ∧
  ekat_pack_gen_assign_op_p 4 Assign q a = Some a ∧
  ekat_pack_gen_assign_op_s 4 Assign q 5 = Pack.broadcast 4 raw 5 ∧
  is_Some (ekat_pack_gen_assign_op_p 4 (Compound OpSub) q a) ∧
  is_Some (ekat_pack_gen_assign_op_s 4 (Compound OpSub) q 5) ∧
  computes_lanes 4 (ekat_pack_gen_assign_op_p 4 (Compound OpDiv) q a)
    (λ j, x ← Pack.get q j; y ← Pack.get a j; div x y) ∧
  computes_lanes 4 (ekat_pack_gen_assign_op_s 4 (Compound OpDiv) q 5)
    (λ j, x ← Pack.get q j; div x 5).
Proof.
  intros q a raw.
  pose proof (assignment_operators 4 OpSub raw q a 5 eq_refl eq_refl eq_refl)
    as (H1 & H2 & H3 & H4 & H5 & H6 & H7).
  destruct (H5 ltac:(discriminate)) as [H5p H5s].
  split_and!; [reflexivity..|exact H1|exact H2|exact H3|exact H4
              |exact H5p|exact H5s|exact H6|exact H7].
Defined.

Lemma scalar_operand_is_broadcast_witness :
  let a := Pack.mk [1; 2; 3; 4] in
  let raw := [0; 0; 0; 0] in
  Z.of_nat (length raw) = 4 ∧ Pack.wf 4 a ∧
  ekat_pack_gen_bin_op_ps 4 OpSub raw a 2
  = Some (Pack.mk [4294967295; 0; 1; 2]) ∧
  ekat_pack_gen_bin_op_sp 4 OpSub raw 2 a
  = Some (Pack.mk [1; 0; 4294967295; 4294967294]) ∧
  ekat_pack_gen_bin_op_ps 4 OpDiv raw a 2 = Some (Pack.mk [0; 1; 1; 2]) ∧
  ekat_pack_gen_bin_op_sp 4 OpDiv raw 2 a = Some (Pack.mk [2; 1; 0; 0]) ∧
  ekat_pack_gen_bin_op_ps 4 OpDiv raw a 0 = None ∧
  (b ← Pack.broadcast 4 raw 0; ekat_pack_gen_bin_op_pp 4 OpDiv raw a b)
  = None ∧
  ekat_pack_gen_bin_op_ps 4 OpSub raw a 2
  = (b ← Pack.broadcast 4 raw 2; ekat_pack_gen_bin_op_pp 4 OpSub raw a b) ∧
  ekat_pack_gen_bin_op_sp 4 OpSub raw 2 a
  = (b ← Pack.broadcast 4 raw 2; ekat_pack_gen_bin_op_pp 4 OpSub raw b a) ∧
  is_Some (ekat_pack_gen_bin_op_ps 4 OpSub raw a 2) ∧
  is_Some (ekat_pack_gen_bin_op_sp 4 OpSub raw 2 a) ∧
  computes_lanes 4 (ekat_pack_gen_bin_op_ps 4 OpDiv raw a 2)
    (λ j, x ← Pack.get a j; div x 2) ∧
  computes_lanes 4 (ekat_pack_gen_bin_op_sp 4 OpDiv raw 2 a)
    (λ j, y ← Pack.get a j; div 2 y).
Proof.
  intros a raw.
  pose proof (scalar_operand_is_broadcast 4 OpSub raw raw a 2
             eq_refl eq_refl eq_refl) as (H1 & H2 & H3 & H4 & H5).
  destruct (H3 ltac:(discriminate)) as [H3p H3s].
  split_and!; [reflexivity..|exact H1|exact H2|exact H3p|exact H3s
              |exact H4|exact H5].
Defined.

Lemma unary_functions_lanewise_witness :
  let p := Pack.mk [1; 2; 3; 4] in
  let raw := [0; 0; 0; 0] in
  let f := λ x : Z, add x 1 in
  let g := λ x : Z, mul x 2 in
  Z.of_nat (length raw) = 4 ∧ Pack.wf 4 p ∧
  returns_lanes 4 (ekat_pack_gen_unary_fn 4 f raw p)
    (λ j, f <$> Pack.get p j) ∧
  (b ← Pack.broadcast 4 raw 9; ekat_pack_gen_unary_fn 4 f raw b)
  = Pack.broadcast 4 raw (f 9) ∧
  (r ← ekat_pack_gen_unary_fn 4 f raw p; ekat_pack_gen_unary_fn 4 g raw r)
  = ekat_pack_gen_unary_fn 4 (g ∘ f) raw p.
Proof.
  intros p raw f g.
  pose proof (unary_functions_lanewise 4 f g raw raw raw p 9
                eq_refl eq_refl eq_refl eq_refl) as (H1 & _ & H3 & H4).
  split_and!; [reflexivity|reflexivity|exact H1|exact H3|exact H4].
Defined.

Lemma square_cube_are_products_witness :
  let a := Pack.mk [1; 2; 3; 2 ^ 31] in
  let raw := [0; 0; 0; 0] in
  Z.of_nat (length raw) = 4 ∧ Pack.wf 4 a ∧
  square 4 raw a = ekat_pack_gen_bin_op_pp 4 OpMul raw a a ∧
  cube 4 raw a
  = (s ← square 4 raw a; ekat_pack_gen_bin_op_pp 4 OpMul raw s a) ∧
  is_Some (cube 4 raw a).
Proof.
  intros a raw.
  pose proof (square_cube_are_products 4 raw raw raw a
             eq_refl eq_refl eq_refl eq_refl) as (H1 & H2 & H3).
  split_and!; [reflexivity..|exact H1|exact H2|exact H3].
Defined.

Lemma min_max_pack_witness :
  let p := Pack.mk [3; 1; 4; 1] in
  Z.of_nat (length [9; 9; 9; 9]) = 4 ∧ Pack.wf 4 p ∧ 0 < 4 ∧
  ∃ x0, Pack.get p 0 = Some x0 ∧
    min_pack 4 p = Some (foldl impl_min x0 (Pack.d p)) ∧
    max_pack 4 p = Some (foldl impl_max x0 (Pack.d p)) ∧
    min_pack 4 p
    = (m ← Mask.broadcast 4 [9; 9; 9; 9] true; min_masked 4 m x0 p) ∧
    max_pack 4 p
    = (m ← Mask.broadcast 4 [9; 9; 9; 9] true; max_masked 4 m x0 p).
Proof.
  intros p. split_and!; [reflexivity..|].
  exact (proj1 (min_max_pack 4 [9; 9; 9; 9] p eq_refl eq_refl) eq_refl).
Defined.

Lemma binary_functions_lanewise_witness :
  let a := Pack.mk [3; 1; 4; 1] in
  let b := Pack.mk [2; 7; 1; 8] in
  let raw := [0; 0; 0; 0] in
  Z.of_nat (length raw) = 4 ∧ Pack.wf 4 a ∧ Pack.wf 4 b ∧
  returns_lanes 4 (ekat_pack_gen_bin_fn_pp 4 impl_max raw a b)
    (λ j, x ← Pack.get a j; y ← Pack.get b j; Some (impl_max x y)) ∧
  ekat_pack_gen_bin_fn_ps 4 impl_max raw a 2
  = (bs ← Pack.broadcast 4 raw 2;
     ekat_pack_gen_bin_fn_pp 4 impl_max raw a bs) ∧
  ekat_pack_gen_bin_fn_sp 4 impl_max raw 2 b
  = (bs ← Pack.broadcast 4 raw 2;
     ekat_pack_gen_bin_fn_pp 4 impl_max raw bs b).
Proof.
  intros a b raw.
  pose proof (binary_functions_lanewise 4 impl_max raw raw a b 2
             eq_refl eq_refl eq_refl eq_refl) as (H1 & H2 & H3 & _).
  split_and!; [reflexivity..|exact H1|exact H2|exact H3].
Defined.

Lemma comparison_masks_witness :
  let a := Pack.mk [3; 1; 4; 1] in
  let b := Pack.mk [2; 7; 4; 8] in
  let raw := [9; 9; 9; 9] in
  let rawp := [0; 0; 0; 0] in
  Z.of_nat (length raw) = 4 ∧ Z.of_nat (length rawp) = 4 ∧
  Pack.wf 4 a ∧ Pack.wf 4 b ∧
  (∃ m, ekat_mask_gen_bin_op_pp 4 CmpLe raw a b = Some m ∧ Mask.wf 4 m ∧
     (∀ j, 0 ≤ j < 4 →
        Mask.get m j
        = (x ← Pack.get a j; y ← Pack.get b j; Some (scalar_le x y))) ∧
     (∀ z, z ∈ Mask.d m → z = 0 ∨ z = 1)) ∧
  ekat_mask_gen_bin_op_ps 4 CmpLe raw a 2
  = (bs ← Pack.broadcast 4 rawp 2; ekat_mask_gen_bin_op_pp 4 CmpLe raw a bs).
Proof.
  intros a b raw rawp.
  pose proof (comparison_masks 4 CmpLe (λ _, false) raw rawp a b 2
                eq_refl eq_refl eq_refl eq_refl) as (H1 & H2 & _).
  split_and!; [reflexivity..|exact H1|exact H2].
Defined.

Lemma comparison_relations_witness :
  let a := Pack.mk [3; 1; 4; 1] in
  let b := Pack.mk [2; 7; 4; 8] in
  let raw := [9; 9; 9; 9] in
  Z.of_nat (length raw) = 4 ∧ Pack.wf 4 a ∧ Pack.wf 4 b ∧
  ekat_mask_gen_bin_op_pp 4 CmpNe raw a b
  = (m ← ekat_mask_gen_bin_op_pp 4 CmpEq raw a b; operator_not 4 raw m) ∧
  ekat_mask_gen_bin_op_pp 4 CmpGt raw a b
  = ekat_mask_gen_bin_op_pp 4 CmpLt raw b a.
Proof.
  intros a b raw.
  pose proof (comparison_relations 4 CmpNe CmpEq raw raw raw a b
                eq_refl eq_refl eq_refl eq_refl eq_refl) as [Hneg _].
  pose proof (comparison_relations 4 CmpGt CmpLt raw raw raw a b
                eq_refl eq_refl eq_refl eq_refl eq_refl) as [_ Hswap].
  split_and!; [reflexivity..| |].
  - exact (Hneg (λ x y, eq_refl)).
  - exact (Hswap Z.gtb_ltb).
Defined.

Lemma shift_round_trip_witness :
  let p := Pack.mk [1; 2; 3; 4] in
  let raw := [0; 0; 0; 0] in
  0 < 4 ∧ Z.of_nat (length raw) = 4 ∧ Pack.wf 4 p ∧
  (r ← shift_right_scalar 4 raw 9 p; x ← Pack.get p (4 - 1);
   shift_left_scalar 4 raw x r) = Some p ∧
  (l ← shift_left_scalar 4 raw 9 p; x ← Pack.get p 0;
   shift_right_scalar 4 raw x l) = Some p.
Proof.
  intros p raw.
  pose proof (shift_round_trip 4 raw raw 9 p eq_refl eq_refl eq_refl eq_refl)
    as (H1 & H2).
  split_and!; [reflexivity..|exact H1|exact H2].
Defined.

Lemma shift_is_window_witness :
  let pm1 := Pack.mk [10; 20; 30; 40] in
  let pp1 := Pack.mk [50; 60; 70; 80] in
  let p := Pack.mk [1; 2; 3; 4] in
  let raw := [0; 0; 0; 0] in
  0 < 4 ∧ Z.of_nat (length raw) = 4 ∧
  Pack.wf 4 pm1 ∧ Pack.wf 4 pp1 ∧ Pack.wf 4 p ∧
  shift_right 4 raw pm1 p = Some (Pack.mk [40; 1; 2; 3]) ∧
  shift_left 4 raw pp1 p = Some (Pack.mk [2; 3; 4; 50]).
Proof.
  intros pm1 pp1 p raw.
  pose proof (shift_is_window 4 raw pm1 pp1 p
             eq_refl eq_refl eq_refl eq_refl eq_refl) as (H1 & H2).
  split_and!; [reflexivity..|exact H1|exact H2].
Defined.

Lemma range_lanes_witness :
  let raw := [0; 0; 0; 0] in
  Z.of_nat (length raw) = 4 ∧
  returns_lanes 4 (range 4 raw 10) (λ j, Some (add 10 (of_int j))) ∧
  returns_lanes 4
    (r ← range 4 raw 10; shift_left_scalar 4 raw (add 10 (of_int 4)) r)
    (λ j, Some (add 10 (of_int (j + 1)))).
Proof.
  intros raw.
  pose proof (range_lanes 4 raw raw 10 eq_refl eq_refl) as [H1 H2].
  split_and!; [reflexivity|exact H1|exact (H2 eq_refl)].
Defined.

Lemma reduce_sum_chains_witness :
  let q := Pack.mk [1; 2; 3; 4] in
  let p := Pack.mk [10; 20; 30; 40] in
  Pack.wf 4 q ∧ Pack.wf 4 p ∧
  (s ← reduce_sum 4 true None q 5; reduce_sum 4 true None p s) = Some 115.
Proof.
  intros q p. split_and!; [reflexivity..|].
  exact (reduce_sum_chains 4 true q p 5 eq_refl eq_refl).
Defined.

Lemma npack_is_ceiling_witness :
  0 < 4 ∧ 0 ≤ 10 ∧ 10 + 4 ≤ 2 ^ 31 - 1 ∧
  ∃ k, npack (2 ^ 31 - 1) 4 10 = Some k ∧
    4 * (k - 1) < 10 ≤ 4 * k ∧
    ∀ k', 10 ≤ 4 * k' → k ≤ k'.
Proof.
  split_and!; [reflexivity|discriminate|discriminate|].
  exact (proj1 (npack_is_ceiling (2 ^ 31 - 1) 4 10 eq_refl
                  ltac:(discriminate)) ltac:(discriminate)).
Defined.

(** The environment of an x86 build with the exception support compiled in:
    invalid and division by zero pending, nothing trapping. *)
Lemma fpe_control_witness :
  let e := fpe.mk_fenv 5 0 in
  let on := fpe.enable_fpes true 61 13 e in
  true = true ∧ Z.land (fpe.trapping e) (Z.lnot 61) = 0 ∧
  on = fpe.mk_fenv 0 13 ∧
  fpe.disable_fpes true 61 13 on = fpe.mk_fenv 0 0 ∧
  fpe.disable_fpes true 61 13 e = fpe.mk_fenv 5 0 ∧
  fpe.get_enabled_fpes true on = 13 ∧
  Z.land (Z.land (fpe.raised on) (fpe.trapping on)) (Z.land 13 61) = 0 ∧
  fpe.disable_fpes true 61 13 on
  = fpe.mk_fenv (fpe.raised on)
      (fpe.trapping (fpe.disable_fpes true 61 13 e)) ∧
  fpe.get_enabled_fpes true (fpe.disable_all_fpes true 61 e) = 0.
Proof.
  intros e on.
  pose proof (fpe_control true true 4 1 8 61 13 e) as (H1 & H2 & H3 & _).
  split_and!; [reflexivity..|exact (H1 eq_refl)|exact H2|exact (H3 eq_refl)].
Defined.
